(** * process-resource-tracker: the sampling and aggregation core

    A shallow embedding of [track_process_resources.py].  Python floats are
    IEEE 754 binary64 numbers; they are modelled by the Standard Library's
    executable specification of binary64 ([spec_float] with the [SF64*]
    operations), Python integers by [Z], dictionaries by [gmap], the set of
    tracked pids by [gset].  Python exceptions that the arithmetic of the
    program can raise are the [Raise] results of a small error monad.  The
    operating system (the cgroup listing and the files under /proc) is an
    explicit environment handed to every sampling pass.  The readers of
    [/proc/<pid>/stat] and [/proc/<pid>/io] and the path of the cgroup
    directory are modelled separately, as functions of the text they are
    given. *)

From Stdlib Require Import ZArith Floats Lia Bool.
From stdpp Require Import gmap strings list fin_maps sorting.

Local Open Scope Z_scope.

(** * The program *)

(** ** Python arithmetic *)

Module Py.

Abbreviation float := spec_float.

Definition zero : float := S754_zero false.
Definition inf : float := S754_infinity false.
Definition neg_inf : float := S754_infinity true.
Definition nan : float := S754_nan.

Inductive exn := ZeroDivisionError | OverflowError.

Inductive result (A : Type) : Type :=
| Ok (a : A)
| Raise (e : exn).
Arguments Ok {A} a.
Arguments Raise {A} e.

Definition bind {A B} (m : result A) (k : A → result B) : result B :=
  match m with
  | Ok a => k a
  | Raise e => Raise e
  end.

(** [float(n)]: the nearest binary64 value, ties to even; CPython raises
    OverflowError when that rounding leaves the finite range. *)
Definition float_of_int (n : Z) : result float :=
  match binary_normalize prec emax n 0 false with
  | S754_infinity _ => Raise OverflowError
  | f => Ok f
  end.

(** An integer as an exact, unrounded mantissa with exponent zero. *)
Definition exact (n : Z) : float :=
  match n with
  | Z0 => S754_zero false
  | Zpos p => S754_finite false p 0
  | Zneg p => S754_finite true p 0
  end.

(** [a / b] on two ints: the correctly rounded quotient. *)
Definition int_truediv (a b : Z) : result float :=
  if b =? 0 then Raise ZeroDivisionError
  else match SF64div (exact a) (exact b) with
       | S754_infinity _ => Raise OverflowError
       | q => Ok q
       end.

(** [x < y], [x <= y], [x > y], [x == y] on floats. *)
Definition float_lt (x y : float) : bool := SFltb x y.
Definition float_le (x y : float) : bool := SFleb x y.
Definition float_gt (x y : float) : bool := SFltb y x.
Definition float_eq (x y : float) : bool := SFeqb x y.

(** [x / y] on two floats. *)
Definition float_truediv (x y : float) : result float :=
  if float_eq y zero then Raise ZeroDivisionError else Ok (SF64div x y).

(** [n / y] with an int on the left: the int is converted first. *)
Definition int_div_float (n : Z) (y : float) : result float :=
  bind (float_of_int n) (λ x, float_truediv x y).

(** [x / n] with an int on the right. *)
Definition float_div_int (x : float) (n : Z) : result float :=
  bind (float_of_int n) (λ y, float_truediv x y).

(** The builtin [max(a, b)]: [b] replaces [a] only when [b > a]. *)
Definition max (a b : float) : float := if float_gt b a then b else a.

End Py.

Import Py.

#[global] Instance result_bind : MBind result := λ A B k m, Py.bind m k.
#[global] Instance result_ret : MRet result := @Ok.

(** The literal [100.0]. *)
Definition hundred : float := Eval vm_compute in binary_normalize prec emax 100 0 false.

(** ** MetricAccumulator *)

Record MetricAccumulator := mkAcc {
  minimum : float;
  maximum : float;
  total : float;
  count : Z
}.

Definition MetricAccumulator_new : MetricAccumulator :=
  {| minimum := inf; maximum := neg_inf; total := zero; count := 0 |}.

Definition add (self : MetricAccumulator) (value : option float) : MetricAccumulator :=
  match value with
  | None => self
  | Some value =>
      let minimum' := if float_lt value (minimum self) then value else minimum self in
      let maximum' := if float_gt value (maximum self) then value else maximum self in
      {| minimum := minimum';
         maximum := maximum';
         total := SF64add (total self) value;
         count := count self + 1 |}
  end.

Definition as_tuple (self : MetricAccumulator) : result (float * float * float) :=
  if count self =? 0 then Ok (zero, zero, zero)
  else avg ← float_div_int (total self) (count self);
       Ok (minimum self, maximum self, avg).

(** ** ProcessStats and PrevSample *)

Module ProcessStats.
Record t := mk {
  pid : Z;
  name : string;
  ppid : Z;
  first_seen : float;
  last_seen : float;
  cpu : MetricAccumulator;
  mem : MetricAccumulator;
  disk : MetricAccumulator;
  xfer : MetricAccumulator;
  current_cpu : float;
  current_mem : float;
  current_disk : float;
  current_xfer : float
}.

(** [ProcessStats(pid=.., name=.., ppid=.., first_seen=.., last_seen=..)]:
    the other fields take their dataclass defaults. *)
Definition new (pid : Z) (name : string) (ppid : Z) (first_seen last_seen : float) : t :=
  {| pid := pid; name := name; ppid := ppid;
     first_seen := first_seen; last_seen := last_seen;
     cpu := MetricAccumulator_new; mem := MetricAccumulator_new;
     disk := MetricAccumulator_new; xfer := MetricAccumulator_new;
     current_cpu := zero; current_mem := zero;
     current_disk := zero; current_xfer := zero |}.

(** [record.last_seen = now] *)
Definition set_last_seen (r : t) (now : float) : t :=
  {| pid := pid r; name := name r; ppid := ppid r;
     first_seen := first_seen r; last_seen := now;
     cpu := cpu r; mem := mem r; disk := disk r; xfer := xfer r;
     current_cpu := current_cpu r; current_mem := current_mem r;
     current_disk := current_disk r; current_xfer := current_xfer r |}.
End ProcessStats.
Abbreviation ProcessStats := ProcessStats.t.

Module PrevSample.
Record t := mk {
  cpu_ticks : Z;
  disk_bytes : Z;
  xfer_bytes : Z;
  timestamp : float
}.
End PrevSample.
Abbreviation PrevSample := PrevSample.t.

(** ** The operating system as seen by one sampling pass

    [pids_in_service_cgroup] is the set the cgroup walk returns for the
    service, [read_stat pid] the parsed [/proc/<pid>/stat]
    [(name, ppid, utime + stime, rss_pages)], [read_io_counters pid] the two
    sums read from [/proc/<pid>/io]; [None] is the Python [None] both readers
    return for a vanished, unreadable or malformed file.  The record holds
    what the readers return: a call that an exception leaves instead (the
    UnicodeDecodeError of [read_stat], the IndexError of [read_io_counters],
    see [Parse]) ends the program and is not a pass of this model. *)
Record OS := {
  pids_in_service_cgroup : gset Z;
  read_stat : Z → option (string * Z * Z * Z);
  read_io_counters : Z → option (Z * Z)
}.

(** The two dictionaries [main] creates and every pass mutates. *)
Record State := {
  stats_by_pid : gmap Z ProcessStats;
  prev_by_pid : gmap Z PrevSample
}.

Definition empty_state : State := {| stats_by_pid := ∅; prev_by_pid := ∅ |}.

(** ** sample_once *)

(** The rates as first computed (before clamping): [None] without a previous
    sample or when [dt > 0] fails. *)
Definition raw_rates (prev : option PrevSample) (now : float) (clk_tck cpu_ticks : Z)
    (disk_total xfer_total : option Z) : result (option float * option float * option float) :=
  match prev with
  | None => Ok (None, None, None)
  | Some prev =>
      let dt := SF64sub now (PrevSample.timestamp prev) in
      if float_gt dt zero then
        q ← int_truediv (cpu_ticks - PrevSample.cpu_ticks prev) clk_tck;
        q ← float_truediv q dt;
        let cpu_pct := SF64mul q hundred in
        disk_bps ← match disk_total with
                   | Some disk_total =>
                       r ← int_div_float (disk_total - PrevSample.disk_bytes prev) dt;
                       Ok (Some r)
                   | None => Ok None
                   end;
        xfer_bps ← match xfer_total with
                   | Some xfer_total =>
                       r ← int_div_float (xfer_total - PrevSample.xfer_bytes prev) dt;
                       Ok (Some r)
                   | None => Ok None
                   end;
        Ok (Some cpu_pct, disk_bps, xfer_bps)
      else Ok (None, None, None)
  end.

(** [max(0.0, rate)] where a rate was computed. *)
Definition clamp (rate : option float) : option float := Py.max zero <$> rate.

(** The rate outputs of a pass for one pid: the clamped rates fed to the
    accumulators. *)
Definition rates (prev : option PrevSample) (now : float) (clk_tck cpu_ticks : Z)
    (disk_total xfer_total : option Z) : result (option float * option float * option float) :=
  '(cpu_pct, disk_bps, xfer_bps) ← raw_rates prev now clk_tck cpu_ticks disk_total xfer_total;
  Ok (clamp cpu_pct, clamp disk_bps, clamp xfer_bps).

(** The entry written to [prev_by_pid] at the end of the loop body. *)
Definition next_prev (prev : option PrevSample) (now : float) (cpu_ticks : Z)
    (disk_total xfer_total : option Z) : PrevSample :=
  if bool_decide (is_Some disk_total) || bool_decide (is_Some xfer_total) then
    {| PrevSample.cpu_ticks := cpu_ticks;
       PrevSample.disk_bytes :=
         match disk_total with
         | Some disk_total => disk_total
         | None => match prev with Some prev => PrevSample.disk_bytes prev | None => 0 end
         end;
       PrevSample.xfer_bytes :=
         match xfer_total with
         | Some xfer_total => xfer_total
         | None => match prev with Some prev => PrevSample.xfer_bytes prev | None => 0 end
         end;
       PrevSample.timestamp := now |}
  else
    match prev with
    | None =>
        {| PrevSample.cpu_ticks := cpu_ticks;
           PrevSample.disk_bytes := 0;
           PrevSample.xfer_bytes := 0;
           PrevSample.timestamp := now |}
    | Some prev =>
        {| PrevSample.cpu_ticks := cpu_ticks;
           PrevSample.disk_bytes := PrevSample.disk_bytes prev;
           PrevSample.xfer_bytes := PrevSample.xfer_bytes prev;
           PrevSample.timestamp := now |}
    end.

(** [stats_by_pid.get(pid)], creating the record on the first observation
    and refreshing [last_seen] otherwise. *)
Definition lookup_or_create (record : option ProcessStats) (pid : Z) (name : string)
    (ppid : Z) (now : float) : ProcessStats :=
  match record with
  | None => ProcessStats.new pid name ppid now now
  | Some record => ProcessStats.set_last_seen record now
  end.

(** The assignments to the [current_*] fields and the four [add] calls. *)
Definition record_sample (record : ProcessStats) (cpu_pct disk_bps xfer_bps : option float)
    (rss : float) : ProcessStats :=
  {| ProcessStats.pid := ProcessStats.pid record;
     ProcessStats.name := ProcessStats.name record;
     ProcessStats.ppid := ProcessStats.ppid record;
     ProcessStats.first_seen := ProcessStats.first_seen record;
     ProcessStats.last_seen := ProcessStats.last_seen record;
     ProcessStats.cpu := add (ProcessStats.cpu record) cpu_pct;
     ProcessStats.mem := add (ProcessStats.mem record) (Some rss);
     ProcessStats.disk := add (ProcessStats.disk record) disk_bps;
     ProcessStats.xfer := add (ProcessStats.xfer record) xfer_bps;
     ProcessStats.current_cpu := default zero cpu_pct;
     ProcessStats.current_mem := rss;
     ProcessStats.current_disk := default zero disk_bps;
     ProcessStats.current_xfer := default zero xfer_bps |}.

(** The body of the [for pid in tracked] loop. *)
Definition sample_pid (os : OS) (now : float) (clk_tck page_size : Z)
    (st : State) (pid : Z) : result State :=
  match read_stat os pid with
  | None => Ok st
  | Some (name, ppid, cpu_ticks, rss_pages) =>
      let io_counters := read_io_counters os pid in
      let disk_total := fst <$> io_counters in
      let xfer_total := snd <$> io_counters in
      let rss_bytes := rss_pages * page_size in
      let record := lookup_or_create (stats_by_pid st !! pid) pid name ppid now in
      let prev := prev_by_pid st !! pid in
      '(cpu_pct, disk_bps, xfer_bps) ←
        rates prev now clk_tck cpu_ticks disk_total xfer_total;
      rss ← float_of_int rss_bytes;
      let record := record_sample record cpu_pct disk_bps xfer_bps rss in
      Ok {| stats_by_pid := <[pid := record]> (stats_by_pid st);
            prev_by_pid :=
              <[pid := next_prev prev now cpu_ticks disk_total xfer_total]> (prev_by_pid st) |}
  end.

(** A [for] loop whose body may raise. *)
Fixpoint for_each {S A} (body : S → A → result S) (l : list A) (s : S) : result S :=
  match l with
  | [] => Ok s
  | x :: l => s ← body s x; for_each body l s
  end.

(** One sampling pass: the new state and the returned [len(tracked)]. *)
Definition sample_once (os : OS) (now : float) (clk_tck page_size : Z)
    (st : State) : result (Z * State) :=
  let tracked := pids_in_service_cgroup os in
  if decide (tracked = ∅) then Ok (0, st)
  else
    st ← for_each (sample_pid os now clk_tck page_size) (elements tracked) st;
    Ok (Z.of_nat (size tracked), st).

(** ** main *)

(** The sampling loop of [main] (and of [render_live]): one [sample_once]
    per iteration, each with the clock reading and the OS it finds. *)
Definition run_passes (clk_tck page_size : Z) (passes : list (OS * float))
    (st : State) : result State :=
  for_each (λ st pass,
              '(_tracked_count, st) ← sample_once pass.1 pass.2 clk_tck page_size st;
              Ok st) passes st.

(** One line of the final table: the values handed to the format string. *)
Record Row := {
  row_pid : Z;
  row_name : string;
  row_ppid : Z;
  row_cpu : float * float * float;
  row_mem_mb : float * float * float;
  row_disk : float * float * float;
  row_xfer : float * float * float
}.

Definition report_row (entry : Z * ProcessStats) : result Row :=
  let '(pid, rec) := entry in
  cpu_triplet ← as_tuple (ProcessStats.cpu rec);
  '(mem_min_b, mem_max_b, mem_avg_b) ← as_tuple (ProcessStats.mem rec);
  mem_min ← float_div_int mem_min_b (1024 * 1024);
  mem_max ← float_div_int mem_max_b (1024 * 1024);
  mem_avg ← float_div_int mem_avg_b (1024 * 1024);
  disk_triplet ← as_tuple (ProcessStats.disk rec);
  xfer_triplet ← as_tuple (ProcessStats.xfer rec);
  Ok {| row_pid := pid;
        row_name := String.substring 0%nat 20%nat (ProcessStats.name rec);
        row_ppid := ProcessStats.ppid rec;
        row_cpu := cpu_triplet;
        row_mem_mb := (mem_min, mem_max, mem_avg);
        row_disk := disk_triplet;
        row_xfer := xfer_triplet |}.

Fixpoint map_result {A B} (f : A → result B) (l : list A) : result (list B) :=
  match l with
  | [] => Ok []
  | x :: l => y ← f x; ys ← map_result f l; Ok (y :: ys)
  end.

(** How [main] ends: [return 2] for a bad interval, the no-data message and
    [return 1], or the table and [return 0]. *)
Inductive Outcome :=
| InvalidInterval
| NoData
| Report (rows : list Row).

Definition exit_status (o : Outcome) : Z :=
  match o with
  | InvalidInterval => 2
  | NoData => 1
  | Report _ => 0
  end.

Definition report_entries (o : Outcome) : list Row :=
  match o with
  | Report rows => rows
  | _ => []
  end.

Definition pid_le (a b : Z * ProcessStats) : Prop := a.1 ≤ b.1.

#[global] Instance pid_le_dec a b : Decision (pid_le a b).
Proof. unfold pid_le. apply _. Defined.

(** [for pid in sorted(stats_by_pid)] *)
Definition sorted_items (stats : gmap Z ProcessStats) : list (Z * ProcessStats) :=
  merge_sort pid_le (map_to_list stats).

(** [main], after argument parsing: [interval] is [args.interval], [passes]
    the iterations the loop makes before the stop flag or the deadline ends
    it. *)
Definition main (interval : float) (clk_tck page_size : Z)
    (passes : list (OS * float)) : result Outcome :=
  if float_le interval zero then Ok InvalidInterval
  else
    st ← run_passes clk_tck page_size passes empty_state;
    if decide (stats_by_pid st = ∅) then Ok NoData
    else
      rows ← map_result report_row (sorted_items (stats_by_pid st));
      Ok (Report rows).

(** ** The readers of /proc and of the cgroup hierarchy

    [read_stat], [read_io_counters] and [get_service_cgroup] as functions of
    the text they are given: the contents of the file as [f.read()] and
    [for line in f] deliver them, the output of [systemctl].  A Python [str]
    is the list of its code points. *)

Abbreviation text := (list N).

(** A string literal, for ASCII characters. *)
Definition text_of (s : string) : text := Ascii.N_of_ascii <$> String.list_ascii_of_string s.

(** The methods of [str] that the readers call. *)
Module Str.

(** [c.isspace()]: the characters that [strip] and [split] treat as
    whitespace. *)
Definition isspace (c : N) : bool :=
  ((9 <=? c) && (c <=? 13) || (28 <=? c) && (c <=? 32) || (c =? 133) || (c =? 160) ||
   (c =? 5760) || (8192 <=? c) && (c <=? 8202) || (c =? 8232) || (c =? 8233) ||
   (c =? 8239) || (c =? 8287) || (c =? 12288))%N.

Fixpoint lstrip (s : text) : text :=
  match s with
  | c :: s' => if isspace c then lstrip s' else s
  | [] => []
  end.

Definition rstrip (s : text) : text := reverse (lstrip (reverse s)).

(** [s.strip()] *)
Definition strip (s : text) : text := rstrip (lstrip s).

(** [s.lstrip(c)] for a single character [c]. *)
Fixpoint lstrip_char (c : N) (s : text) : text :=
  match s with
  | c' :: s' => if (c' =? c)%N then lstrip_char c s' else s
  | [] => []
  end.

(** [s.find(c)] and [s.rfind(c)] for a single character [c]: the index of
    its first, respectively last, occurrence, or [-1]. *)
Fixpoint find (s : text) (c : N) : Z :=
  match s with
  | [] => -1
  | c' :: s' =>
      if (c' =? c)%N then 0
      else let i := find s' c in if i =? -1 then -1 else i + 1
  end.

Fixpoint rfind (s : text) (c : N) : Z :=
  match s with
  | [] => -1
  | c' :: s' =>
      let i := rfind s' c in
      if i =? -1 then (if (c' =? c)%N then 0 else -1) else i + 1
  end.

(** [s[start:stop]] and [s[start:]] for indices that are not negative. *)
Definition slice (s : text) (start stop : Z) : text :=
  take (Z.to_nat stop - Z.to_nat start) (drop (Z.to_nat start) s).

Definition slice_from (s : text) (start : Z) : text := drop (Z.to_nat start) s.

(** [s.split()]: the maximal runs of characters that are not whitespace. *)
Fixpoint split (s : text) : list text :=
  match s with
  | [] => []
  | c :: s' =>
      if isspace c then split s'
      else match s' with
           | [] => [[c]]
           | c' :: _ =>
               if isspace c' then [c] :: split s'
               else match split s' with
                    | word :: words => (c :: word) :: words
                    | [] => [[c]]
                    end
           end
  end.

(** [s.startswith(prefix)] *)
Fixpoint startswith (s prefix : text) : bool :=
  match prefix, s with
  | [], _ => true
  | p :: prefix, c :: s => (c =? p)%N && startswith s prefix
  | _ :: _, [] => false
  end.

End Str.

(** The readers.  They carry different names from the fields of [OS], which
    stand for their results. *)
Module Parse.
Section WithInt.

(** The builtin [int] applied to a string; [None] is its ValueError. *)
Context (py_int : text → option Z).

(** [read_stat], from what [f.read()] returns; [None] for the three
    subclasses of OSError that the function catches.  The characters 40 and
    41 are the two parentheses. *)
Definition read_stat (contents : option text) : option (text * Z * Z * Z) :=
  match contents with
  | None => None
  | Some contents =>
      let raw := Str.strip contents in
      let lpar := Str.find raw 40 in
      let rpar := Str.rfind raw 41 in
      if bool_decide (lpar = -1 ∨ rpar = -1 ∨ rpar ≤ lpar) then None
      else
        let name := Str.slice raw (lpar + 1) rpar in
        let tail := Str.split (Str.slice_from raw (rpar + 2)) in
        if bool_decide (length tail < 22)%nat then None
        else
          ppid ← py_int (nth 1 tail []);
          utime ← py_int (nth 11 tail []);
          stime ← py_int (nth 12 tail []);
          rss_pages ← py_int (nth 21 tail []);
          Some (name, ppid, utime + stime, rss_pages)
  end.

(** The two exceptions that [int(line.split()[1])] can raise. *)
Inductive field_error := ValueError | IndexError.

Definition second_field (line : text) : field_error + Z :=
  match Str.split line with
  | _ :: field :: _ =>
      match py_int field with
      | Some n => inr n
      | None => inl ValueError
      end
  | _ => inl IndexError
  end.

(** The [for line in f] loop of [read_io_counters]. *)
Fixpoint sum_counters (lines : list text) (disk_total xfer_total : Z) : field_error + Z * Z :=
  match lines with
  | [] => inr (disk_total, xfer_total)
  | line :: lines =>
      if Str.startswith line (text_of "read_bytes:")
         || Str.startswith line (text_of "write_bytes:") then
        match second_field line with
        | inr n => sum_counters lines (disk_total + n) xfer_total
        | inl e => inl e
        end
      else if Str.startswith line (text_of "rchar:")
              || Str.startswith line (text_of "wchar:") then
        match second_field line with
        | inr n => sum_counters lines disk_total (xfer_total + n)
        | inl e => inl e
        end
      else sum_counters lines disk_total xfer_total
  end.

(** How a call of [read_io_counters] ends: it returns, or an IndexError
    leaves it (the [except] clause does not list that exception). *)
Inductive io_outcome :=
| Returns (r : option (Z * Z))
| RaisesIndexError.

(** [read_io_counters], from the lines of the file; [None] for the three
    subclasses of OSError that the function catches. *)
Definition read_io_counters (lines : option (list text)) : io_outcome :=
  match lines with
  | None => Returns None
  | Some lines =>
      match sum_counters lines 0 0 with
      | inr totals => Returns (Some totals)
      | inl ValueError => Returns None
      | inl IndexError => RaisesIndexError
      end
  end.

End WithInt.

(** [get_service_cgroup], from what [subprocess.run] gives: the return code
    and the captured standard output, [None] when systemctl is not found. *)
Definition get_service_cgroup (run : option (Z * text)) : option text :=
  match run with
  | None => None
  | Some (returncode, stdout) =>
      if bool_decide (returncode ≠ 0) then None
      else
        let value := Str.strip stdout in
        if bool_decide (value = [] ∨ value = text_of "/") then None
        else Some value
  end.

(** [os.path.join(a, b)] of posixpath; 47 is the slash. *)
Definition path_join (a b : text) : text :=
  if Str.startswith b (text_of "/") then b
  else if bool_decide (a = []) || bool_decide (last a = Some 47%N) then a ++ b
  else a ++ text_of "/" ++ b.

(** The directory that [pids_in_service_cgroup] walks. *)
Definition service_path (cgroup : text) : text :=
  path_join (text_of "/sys/fs/cgroup") (Str.lstrip_char 47 cgroup).

End Parse.

(** * Vocabulary of the properties

    Nothing below is part of the program: these are the notions the lemmas
    and the claims are stated with, and the concrete inputs on which the
    theorems are run. *)

(** ** Classes and order of binary64 numbers *)

(** [signed s x]: [x] is a number (not NaN) whose sign bit is [s]. *)
Definition signed (s : bool) (x : float) : Prop :=
  match x with
  | S754_nan => False
  | S754_zero s' | S754_infinity s' | S754_finite s' _ _ => s' = s
  end.

Definition is_nan (x : float) : bool :=
  match x with S754_nan => true | _ => false end.

Definition is_zero (x : float) : bool :=
  match x with S754_zero _ => true | _ => false end.

Definition is_inf (x : float) : bool :=
  match x with S754_infinity _ => true | _ => false end.

(** The comparisons of [spec_float] are those of a lexicographic key: the
    class of the number, then its exponent, then its mantissa (the last two
    negated for negative numbers).  NaN has no key. *)
Definition key (x : float) : option (Z * Z * Z) :=
  match x with
  | S754_nan => None
  | S754_infinity true => Some (-2, 0, 0)
  | S754_finite true m e => Some (-1, - e, Z.neg m)
  | S754_zero _ => Some (0, 0, 0)
  | S754_finite false m e => Some (1, e, Z.pos m)
  | S754_infinity false => Some (2, 0, 0)
  end.

Definition kcmp (a b : Z * Z * Z) : comparison :=
  let '(c1, e1, m1) := a in
  let '(c2, e2, m2) := b in
  match c1 ?= c2 with
  | Eq => match e1 ?= e2 with
          | Eq => m1 ?= m2
          | r => r
          end
  | r => r
  end.

Definition klt (a b : Z * Z * Z) : Prop :=
  a.1.1 < b.1.1 ∨ (a.1.1 = b.1.1 ∧ (a.1.2 < b.1.2 ∨ (a.1.2 = b.1.2 ∧ a.2 < b.2))).

Definition kle (a b : Z * Z * Z) : Prop :=
  a.1.1 < b.1.1 ∨ (a.1.1 = b.1.1 ∧ (a.1.2 < b.1.2 ∨ (a.1.2 = b.1.2 ∧ a.2 ≤ b.2))).

(** Two floats with the same key are indistinguishable by comparisons. *)
Definition same (x y : float) : Prop := key x = key y.

(** The minimum and the maximum as [add] updates them. *)
Definition fmin (m v : float) : float := if float_lt v m then v else m.
Definition fmax (m v : float) : float := if float_gt v m then v else m.

(** [<] on optional keys, as [float_lt] computes it. *)
Definition kltb (a b : option (Z * Z * Z)) : bool :=
  match a, b with
  | Some a, Some b => match kcmp a b with Lt => true | _ => false end
  | _, _ => false
  end.

(** ** Streams of [add] calls *)

(** A stream of [add] calls, in order. *)
Definition feed (values : list (option float)) (acc : MetricAccumulator) : MetricAccumulator :=
  fold_left add values acc.

(** The values of a stream that are not [None]. *)
Definition present (values : list (option float)) : list float := omap id values.

(** [sum(values)] and the mean [sum(values) / len(values)], in float
    arithmetic, left to right. *)
Definition fsum (values : list float) : float := fold_left SF64add values zero.

Definition arithmetic_mean (values : list float) : result float :=
  float_div_int (fsum values) (Z.of_nat (length values)).

(** Two accumulators that comparisons cannot tell apart. *)
Definition acc_same (a b : MetricAccumulator) : Prop :=
  same (minimum a) (minimum b) ∧ same (maximum a) (maximum b) ∧ count a = count b.

(** ** Sessions *)

(** What the pass reads for a pid: the two I/O totals, when available. *)
Definition disk_read (os : OS) (pid : Z) : option Z := fst <$> read_io_counters os pid.
Definition xfer_read (os : OS) (pid : Z) : option Z := snd <$> read_io_counters os pid.

(** The pass tracks [pid] and reads its stat file successfully. *)
Definition read_ok (pid : Z) (pass : OS * float) : Prop :=
  pid ∈ pids_in_service_cgroup pass.1 ∧ is_Some (read_stat pass.1 pid).

#[global] Instance read_ok_dec pid pass : Decision (read_ok pid pass).
Proof. unfold read_ok. apply _. Defined.

(** In how many passes of a session [pid] is read successfully. *)
Definition times_read (pid : Z) (passes : list (OS * float)) : nat :=
  length (filter (read_ok pid) passes).

(** The value [current_disk] holds for [pid] when a session ends. *)
Definition disk_rate_after (clk_tck page_size : Z) (passes : list (OS * float))
    (pid : Z) : option float :=
  match run_passes clk_tck page_size passes empty_state with
  | Ok st => ProcessStats.current_disk <$> stats_by_pid st !! pid
  | Raise _ => None
  end.

(** The record a session ends with for [pid]. *)
Definition record_after (clk_tck page_size : Z) (passes : list (OS * float))
    (pid : Z) : option ProcessStats :=
  match run_passes clk_tck page_size passes empty_state with
  | Ok st => stats_by_pid st !! pid
  | Raise _ => None
  end.

(** ** Inputs that raise nothing *)

(** Magnitudes far inside the range of a double: the counters the kernel
    keeps are 64-bit. *)
Definition limit : Z := 2 ^ 999.

(** [n] is of magnitude below [2 ^ 999]. *)
Definition small (n : Z) : Prop := Z.abs n < limit.

(** Everything the readers return is small. *)
Definition small_os (page_size : Z) (os : OS) : Prop :=
  (∀ pid name ppid cpu_ticks rss_pages,
     read_stat os pid = Some (name, ppid, cpu_ticks, rss_pages) →
     small cpu_ticks ∧ small (rss_pages * page_size)) ∧
  (∀ pid disk_total xfer_total,
     read_io_counters os pid = Some (disk_total, xfer_total) →
     small disk_total ∧ small xfer_total).

(** Every stored previous sample is small. *)
Definition small_state (st : State) : Prop :=
  ∀ pid prev, prev_by_pid st !! pid = Some prev →
    small (PrevSample.cpu_ticks prev) ∧
    small (PrevSample.disk_bytes prev) ∧
    small (PrevSample.xfer_bytes prev).

(** ** The claims that fail, as the specification words them *)

(** Every value added lies between the stored minimum and maximum. *)
Definition bounds_every_value (values : list (option float)) : Prop :=
  let acc := feed values MetricAccumulator_new in
  0 < count acc →
  ∀ v, v ∈ present values →
    float_le (minimum acc) v = true ∧ float_le v (maximum acc) = true.

(** Two accumulators report the same minimum, maximum and mean. *)
Definition summaries_agree (a b : MetricAccumulator) : Prop :=
  match as_tuple a, as_tuple b with
  | Ok (min_a, max_a, avg_a), Ok (min_b, max_b, avg_b) =>
      float_eq min_a min_b = true ∧ float_eq max_a max_b = true ∧ float_eq avg_a avg_b = true
  | _, _ => False
  end.

(** ** Counting and bounding what a session stores *)

(** 1 for a value that is present, 0 for [None]. *)
Definition tally {A} (o : option A) : Z :=
  match o with Some _ => 1 | None => 0 end.

(** An accumulator that was fed numbers [≥ 0] only. *)
Definition nonneg_acc (acc : MetricAccumulator) : Prop :=
  0 ≤ count acc ∧
  signed false (total acc) ∧
  signed false (minimum acc) ∧
  (count acc = 0 → maximum acc = neg_inf) ∧
  (0 < count acc →
     signed false (maximum acc) ∧ float_le (minimum acc) (maximum acc) = true).

(** The accumulators of a pid's record, those of a fresh record when there
    is none; likewise [current_mem]. *)
Definition cpu_of (record : option ProcessStats) : MetricAccumulator :=
  from_option ProcessStats.cpu MetricAccumulator_new record.
Definition mem_of (record : option ProcessStats) : MetricAccumulator :=
  from_option ProcessStats.mem MetricAccumulator_new record.
Definition disk_of (record : option ProcessStats) : MetricAccumulator :=
  from_option ProcessStats.disk MetricAccumulator_new record.
Definition xfer_of (record : option ProcessStats) : MetricAccumulator :=
  from_option ProcessStats.xfer MetricAccumulator_new record.
Definition current_mem_of (record : option ProcessStats) : float :=
  from_option ProcessStats.current_mem zero record.

(** The memory value a pass contributes for [pid]: the resident set size in
    bytes when the pass reads the pid, nothing otherwise. *)
Definition rss_sample (page_size pid : Z) (pass : OS * float) : option float :=
  if decide (pid ∈ pids_in_service_cgroup pass.1) then
    match read_stat pass.1 pid with
    | Some (_, _, _, rss_pages) =>
        match float_of_int (rss_pages * page_size) with
        | Ok rss => Some rss
        | Raise _ => None
        end
    | None => None
    end
  else None.

(** Every clock reading is later than all the readings before it: each
    difference [later - earlier] is [> 0]. *)
Fixpoint advancing (times : list float) : Prop :=
  match times with
  | [] => True
  | t :: times => Forall (λ t', float_gt (SF64sub t' t) zero = true) times ∧ advancing times
  end.

(** The passes of a session that read [pid] successfully, and among some
    passes those whose I/O read of [pid] succeeds. *)
Definition reads (pid : Z) (passes : list (OS * float)) : list (OS * float) :=
  filter (read_ok pid) passes.

Definition with_io (pid : Z) (passes : list (OS * float)) : list (OS * float) :=
  filter (λ pass, is_Some (read_io_counters pass.1 pid)) passes.

(** The reads that yield rates: all of them once a previous sample is
    stored, all but the first otherwise. *)
Definition rated (prev : option PrevSample) (l : list (OS * float)) : list (OS * float) :=
  match prev with
  | Some _ => l
  | None => drop 1 l
  end.

(** Two passes made at the same time that show the same about [pid]: the
    same membership in the tracked set, the same stat and I/O reads. *)
Definition agree_on (pid : Z) (a b : OS * float) : Prop :=
  a.2 = b.2 ∧
  (pid ∈ pids_in_service_cgroup a.1 ↔ pid ∈ pids_in_service_cgroup b.1) ∧
  read_stat a.1 pid = read_stat b.1 pid ∧
  read_io_counters a.1 pid = read_io_counters b.1 pid.

(** ** The text of the files *)

(** A non-empty run of characters none of which is whitespace. *)
Definition token (w : text) : Prop := w ≠ [] ∧ Forall (λ c, Str.isspace c = false) w.

#[global] Instance token_dec w : Decision (token w).
Proof. unfold token. apply _. Defined.

(** The fields joined by single spaces. *)
Fixpoint join_sp (fields : list text) : text :=
  match fields with
  | [] => []
  | [f] => f
  | f :: fields => f ++ 32%N :: join_sp fields
  end.

(** A line of [/proc/<pid>/stat] as the kernel writes it: the pid, the
    command name in parentheses, then the other fields. *)
Definition stat_line (pid_txt name : text) (fields : list text) : text :=
  pid_txt ++ text_of " (" ++ name ++ text_of ") " ++ join_sp fields.

(** The lines [read_io_counters] adds to [disk_total], and to [xfer_total]. *)
Definition disk_line (line : text) : bool :=
  Str.startswith line (text_of "read_bytes:") || Str.startswith line (text_of "write_bytes:").

Definition xfer_line (line : text) : bool :=
  negb (disk_line line) &&
  (Str.startswith line (text_of "rchar:") || Str.startswith line (text_of "wchar:")).

Definition counted (line : text) : Prop := disk_line line = true ∨ xfer_line line = true.

#[global] Instance counted_dec line : Decision (counted line).
Proof. unfold counted. apply _. Defined.

(** The integer in the second field of a line, where there is one. *)
Definition field_value (py_int : text → option Z) (line : text) : option Z :=
  match Str.split line with
  | _ :: field :: _ => py_int field
  | _ => None
  end.

(** The sum of the second fields of the lines that [select] picks. *)
Definition sum_fields (py_int : text → option Z) (select : text → bool)
    (lines : list text) : Z :=
  foldr (λ line acc, if select line then default 0 (field_value py_int line) + acc else acc)
    0 lines.

(** ** Concrete inputs *)

(** The float literal [n.0]. *)
Definition fl (n : Z) : float := binary_normalize prec emax n 0 false.

(** An OS in which the service has the single process 100. *)
Definition one_process (name : string) (ppid cpu_ticks : Z) (io : option (Z * Z)) : OS :=
  {| pids_in_service_cgroup := {[ 100 ]};
     read_stat := λ pid, if decide (pid = 100) then Some (name, ppid, cpu_ticks, 10) else None;
     read_io_counters := λ pid, if decide (pid = 100) then io else None |}.

(** An OS in which the service resolves to no process. *)
Definition no_process : OS :=
  {| pids_in_service_cgroup := ∅;
     read_stat := λ _, None;
     read_io_counters := λ _, None |}.

(** Passes at t = 0, 1, 2; the I/O read fails at t = 1. *)
Definition io_gap_pass0 : OS := one_process "proc" 1 0 (Some (1000, 5000)).
Definition io_gap_pass1 : OS := one_process "proc" 1 50 None.
Definition io_gap_pass2 : OS := one_process "proc" 1 150 (Some (1400, 5800)).

Definition io_gap_session : list (OS * float) :=
  [(io_gap_pass0, fl 0); (io_gap_pass1, fl 1); (io_gap_pass2, fl 2)].

(** The state a session ends in (the empty state if it raises). *)
Definition state_after (clk_tck page_size : Z) (passes : list (OS * float)) : State :=
  match run_passes clk_tck page_size passes empty_state with
  | Ok st => st
  | Raise _ => empty_state
  end.

(** The process changes its name and parent between two passes. *)
Definition renamed_session : list (OS * float) :=
  [(one_process "old" 1 0 None, fl 0); (one_process "new" 7 10 None, fl 1)].

(** 0.1, 0.2 and 0.3 as Python reads them. *)
Definition tenth : float := SF64div (fl 1) (fl 10).
Definition fifth : float := SF64div (fl 2) (fl 10).
Definition three_tenths : float := SF64div (fl 3) (fl 10).

(** The record a state holds for [pid] (a fresh one where it holds none). *)
Definition the_record (st : State) (pid : Z) : ProcessStats :=
  default (ProcessStats.new pid "" 0 zero zero) (stats_by_pid st !! pid).

(** What a run of [main] returned ([InvalidInterval] if it raised). *)
Definition outcome_of (r : result Outcome) : Outcome :=
  match r with
  | Ok outcome => outcome
  | Raise _ => InvalidInterval
  end.

(** An OS in which the service has the processes 100 and 200; only the
    first has a readable I/O file. *)
Definition two_processes (cpu_a cpu_b : Z) : OS :=
  {| pids_in_service_cgroup := {[ 100; 200 ]};
     read_stat := λ pid,
       if decide (pid = 100) then Some ("a"%string, 1, cpu_a, 10)
       else if decide (pid = 200) then Some ("b"%string, 100, cpu_b, 20)
       else None;
     read_io_counters := λ pid, if decide (pid = 100) then Some (1000, 5000) else None |}.

Definition two_process_session : list (OS * float) :=
  [(two_processes 0 0, fl 0); (two_processes 50 20, fl 1)].

(** An OS in which the service has the process 100, whose stat file cannot
    be read. *)
Definition unreadable : OS :=
  {| pids_in_service_cgroup := {[ 100 ]};
     read_stat := λ _, None;
     read_io_counters := λ _, None |}.

(** The OS with one more process, 200, in the service. *)
Definition with_neighbour (os : OS) : OS :=
  {| pids_in_service_cgroup := {[ 200 ]} ∪ pids_in_service_cgroup os;
     read_stat := λ pid,
       if decide (pid = 200) then Some ("other"%string, 1, 7, 5) else read_stat os pid;
     read_io_counters := λ pid,
       if decide (pid = 200) then Some (10, 20) else read_io_counters os pid |}.

(** [int] on an optional sign followed by ASCII digits; it stands for the
    builtin on the concrete files below. *)
Fixpoint decimal_digits (s : text) (acc : Z) : option Z :=
  match s with
  | [] => Some acc
  | c :: s =>
      if ((48 <=? c) && (c <=? 57))%N then decimal_digits s (10 * acc + Z.of_N (c - 48))
      else None
  end.

Definition decimal (s : text) : option Z :=
  match s with
  | [] => None
  | c :: digits =>
      if ((c =? 45) || (c =? 43))%N then
        match digits with
        | [] => None
        | _ => (if (c =? 45)%N then Z.opp else id) <$> decimal_digits digits 0
        end
      else decimal_digits s 0
  end.

(** The newline. *)
Definition nl : text := [10%N].

(** The fields that follow the command name in a stat line: the state, the
    parent pid 1, ..., utime 25 and stime 5, ..., rss 10. *)
Definition stat_fields : list text :=
  text_of <$> ["S"; "1"; "4242"; "4242"; "0"; "-1"; "4194560"; "500"; "0"; "3"; "0";
               "25"; "5"; "0"; "0"; "20"; "0"; "1"; "0"; "100"; "10000000"; "10";
               "18446744073709551615"; "1"; "1"; "0"]%string.

(** The seven lines of a [/proc/<pid>/io] file. *)
Definition io_example : list text :=
  [text_of "rchar: 5000" ++ nl; text_of "wchar: 800" ++ nl;
   text_of "syscr: 12" ++ nl; text_of "syscw: 7" ++ nl;
   text_of "read_bytes: 1000" ++ nl; text_of "write_bytes: 400" ++ nl;
   text_of "cancelled_write_bytes: 64" ++ nl].

(** * The model on concrete inputs *)

(** [0.1] is the double [0x1.999999999999ap-4]. *)
Example tenth_bits : tenth = S754_finite false 7205759403792794 (-56).
Proof. vm_compute. reflexivity. Qed.

(** [0.1 + 0.2 + 0.3] is [0.6000000000000001], [0.3 + 0.2 + 0.1] is [0.6]. *)
Example sum_left_to_right :
  fsum [tenth; fifth; three_tenths] = S754_finite false 5404319552844596 (-53) ∧
  fsum [three_tenths; fifth; tenth] = S754_finite false 5404319552844595 (-53).
Proof. split; vm_compute; reflexivity. Qed.

Example int_truediv_by_zero : int_truediv 1 0 = Raise ZeroDivisionError.
Proof. reflexivity. Qed.

Example int_truediv_huge : int_truediv (10 ^ 400) (10 ^ 399) = Ok (fl 10).
Proof. vm_compute. reflexivity. Qed.

Example float_of_int_overflow : float_of_int (2 ^ 1024) = Raise OverflowError.
Proof. vm_compute. reflexivity. Qed.

Example max_of_nan : Py.max zero nan = zero.
Proof. reflexivity. Qed.

Example max_of_negative_zero : Py.max zero (S754_zero true) = zero.
Proof. reflexivity. Qed.

(** Process 100 at t = 0, 1, 2 with cpu ticks 0, 50, 150 and 100 ticks per
    second: the cpu percentages are absent, 50 and 100, so the accumulator
    ends with minimum 50, maximum 100, mean 75 over 2 values. *)
Example cpu_over_three_passes :
  ∃ record,
    record_after 100 4096 io_gap_session 100 = Some record ∧
    count (ProcessStats.cpu record) = 2 ∧
    as_tuple (ProcessStats.cpu record) = Ok (fl 50, fl 100, fl 75) ∧
    count (ProcessStats.mem record) = 3.
Proof. eexists. split; [vm_compute; reflexivity|]. split_and!; vm_compute; reflexivity. Qed.

(** A session of [main]: one row for the one process, exit status 0. *)
Example main_reports_one_row :
  ∃ row,
    main (fl 1) 100 4096 io_gap_session = Ok (Report [row]) ∧
    row_pid row = 100 ∧ row_name row = "proc"%string ∧
    row_disk row = (fl 400, fl 400, fl 400).
Proof. eexists. split; [vm_compute; reflexivity|]. split_and!; vm_compute; reflexivity. Qed.

Example main_rejects_interval : main zero 100 4096 io_gap_session = Ok InvalidInterval.
Proof. reflexivity. Qed.

(** * Facts about binary64 arithmetic *)

Lemma shr_1_nonneg mrs : 0 ≤ shr_m mrs → 0 ≤ shr_m (shr_1 mrs).
Proof.
  destruct mrs as [m r s]; simpl.
  destruct m as [|[p|p|]|[p|p|]]; simpl; lia.
Qed.

Lemma iter_shr_1_nonneg p : ∀ mrs,
  0 ≤ shr_m mrs → 0 ≤ shr_m (SpecFloat.iter_pos shr_1 p mrs).
Proof.
  induction p as [p IH|p IH|]; intros mrs Hm; simpl.
  - apply IH, IH, shr_1_nonneg, Hm.
  - apply IH, IH, Hm.
  - apply shr_1_nonneg, Hm.
Qed.

Lemma shr_fexp_nonneg m e l :
  0 ≤ m → 0 ≤ shr_m (shr_fexp prec emax m e l).1.
Proof.
  intros Hm. unfold shr_fexp, shr.
  assert (H0 : 0 ≤ shr_m (shr_record_of_loc m l)) by (destruct l as [|[]]; exact Hm).
  destruct (fexp prec emax (Zdigits2 m + e) - e); simpl; auto.
  apply iter_shr_1_nonneg, H0.
Qed.

Lemma round_nearest_even_nonneg m l : 0 ≤ m → 0 ≤ round_nearest_even m l.
Proof.
  intros Hm. destruct l as [|[]]; simpl; try lia.
  destruct (Z.even m); lia.
Qed.

(** Rounding never changes the sign it is given and never yields NaN. *)
Lemma binary_round_aux_signed s m e l :
  0 ≤ m → signed s (binary_round_aux prec emax s m e l).
Proof.
  intros Hm. unfold binary_round_aux.
  pose proof (shr_fexp_nonneg m e l Hm) as H1.
  destruct (shr_fexp prec emax m e l) as [mrs' e']. simpl in H1.
  pose proof (shr_fexp_nonneg _ e' loc_Exact
                (round_nearest_even_nonneg _ (loc_of_shr_record mrs') H1)) as H2.
  destruct (shr_fexp prec emax _ e' loc_Exact) as [mrs'' e'']. simpl in H2.
  destruct (shr_m mrs'') as [|q|q]; simpl; [done| |lia].
  destruct (e'' <=? emax - prec); done.
Qed.

Lemma binary_normalize_signed n :
  signed (n <? 0) (binary_normalize prec emax n 0 false).
Proof.
  destruct n as [|p|p]; simpl; [done| |].
  - unfold binary_round. destruct (shl_align _ _ _). by apply binary_round_aux_signed.
  - unfold binary_round. destruct (shl_align _ _ _). by apply binary_round_aux_signed.
Qed.

(** A finite dividend over a non-zero divisor: the signs combine. *)
Lemma SF64div_signed sx sy x y :
  signed sx x → signed sy y → is_inf x = false → is_zero y = false →
  signed (xorb sx sy) (SF64div x y).
Proof.
  intros Hx Hy Hfx Hzy.
  destruct x as [s1|s1| |s1 m1 e1], y as [s2|s2| |s2 m2 e2];
    simpl in *; try done; subst; try done.
  unfold SFdiv_core_binary.
  set (m' := match _ - _ - _ with Z0 => _ | Z.pos _ => _ | Z.neg _ => _ end).
  assert (Hm' : 0 ≤ m').
  { subst m'. destruct (_ - _ - _); [lia| |lia]. apply Z.shiftl_nonneg. lia. }
  pose proof (Z.div_pos m' (Z.pos m2) Hm' ltac:(lia)) as Hq.
  unfold Z.div in Hq. destruct (Z.div_eucl m' (Z.pos m2)) as [q r]. simpl in Hq.
  by apply binary_round_aux_signed.
Qed.

Lemma SF64mul_hundred_signed s x : signed s x → signed s (SF64mul x hundred).
Proof.
  intros Hx. destruct x as [s1|s1| |s1 m1 e1]; simpl in *; try done; subst.
  - by destruct s.
  - by destruct s.
  - unfold hundred, SF64mul, SFmul. rewrite xorb_false_r.
    by apply binary_round_aux_signed.
Qed.

Lemma gt_zero_signed dt : float_gt dt zero = true → signed false dt ∧ is_zero dt = false.
Proof. destruct dt as [s|[]| |[] m e]; simpl; done. Qed.

Lemma max_zero_signed_false x : signed false x → Py.max zero x = x.
Proof. destruct x as [[]|[]| |[] m e]; simpl; done. Qed.

Lemma max_zero_signed_true x : signed true x → Py.max zero x = zero.
Proof. destruct x as [[]|[]| |[] m e]; simpl; done. Qed.

Lemma max_zero_ge x : float_le zero (Py.max zero x) = true.
Proof. destruct x as [[]|[]| |[] m e]; simpl; done. Qed.

Lemma exact_signed n : signed (n <? 0) (exact n) ∧ is_inf (exact n) = false.
Proof. destruct n; done. Qed.

Lemma exact_pos_nonzero n : n ≠ 0 → is_zero (exact n) = false.
Proof. destruct n; done. Qed.

(** ** Rounding without overflow *)

Lemma digits2_pos_size p : digits2_pos p = Pos.size p.
Proof. induction p as [p IH|p IH|]; simpl; by rewrite ?IH. Qed.

Lemma Zdigits2_nonneg n : 0 ≤ Zdigits2 n.
Proof. destruct n; simpl; lia. Qed.

(** A number below [2 ^ k] has at most [k] binary digits. *)
Lemma Zdigits2_le n k : 0 ≤ k → 0 ≤ n < 2 ^ k → Zdigits2 n ≤ k.
Proof.
  intros Hk [Hn Hlt]. destruct n as [|p|p]; simpl; [lia| |lia].
  rewrite digits2_pos_size.
  pose proof (Pos.size_le p) as Hle.
  apply Pos2Z.pos_le_pos in Hle. rewrite Pos2Z.inj_pow, (Pos2Z.inj_xO p) in Hle.
  destruct (Z.le_gt_cases (Z.pos (Pos.size p)) k) as [|Hgt]; [done|exfalso].
  assert (2 ^ Z.succ k ≤ 2 ^ Z.pos (Pos.size p)) as Hpow by (apply Z.pow_le_mono_r; lia).
  rewrite Z.pow_succ_r in Hpow by lia. lia.
Qed.

(** A non-negative number is below [2 ^ digits]. *)
Lemma Zdigits2_gt n : 0 ≤ n → n < 2 ^ Zdigits2 n.
Proof.
  intros Hn. destruct n as [|p|p]; simpl; [lia| |lia].
  rewrite digits2_pos_size.
  pose proof (Pos.size_gt p) as Hgt.
  apply Pos2Z.pos_lt_pos in Hgt. by rewrite Pos2Z.inj_pow in Hgt.
Qed.

Lemma shr_1_digits mrs :
  0 ≤ shr_m mrs → Zdigits2 (shr_m (shr_1 mrs)) = Z.max 0 (Zdigits2 (shr_m mrs) - 1).
Proof.
  destruct mrs as [m r s]; simpl. destruct m as [|[p|p|]|[p|p|]]; simpl; lia.
Qed.

Lemma iter_shr_1_digits p : ∀ mrs,
  0 ≤ shr_m mrs →
  Zdigits2 (shr_m (SpecFloat.iter_pos shr_1 p mrs)) = Z.max 0 (Zdigits2 (shr_m mrs) - Z.pos p).
Proof.
  induction p as [p IH|p IH|]; intros mrs Hm; simpl.
  - rewrite !IH, shr_1_digits
      by (repeat first [apply iter_shr_1_nonneg | apply shr_1_nonneg | done]).
    lia.
  - rewrite !IH by (repeat first [apply iter_shr_1_nonneg | done]). lia.
  - by apply shr_1_digits.
Qed.

(** The exponent and the number of digits that [shr_fexp] leaves. *)
Lemma shr_fexp_spec m e l :
  0 ≤ m →
  let '(mrs, e') := shr_fexp prec emax m e l in
  e' = Z.max e (fexp prec emax (Zdigits2 m + e)) ∧
  0 ≤ shr_m mrs ∧
  Zdigits2 (shr_m mrs) = Z.max 0 (Zdigits2 m - (e' - e)).
Proof.
  intros Hm. unfold shr_fexp, shr.
  assert (H0 : shr_m (shr_record_of_loc m l) = m) by (by destruct l as [|[]]).
  pose proof (Zdigits2_nonneg m).
  destruct (fexp prec emax (Zdigits2 m + e) - e) as [|p|p] eqn:E.
  - rewrite H0. lia.
  - rewrite iter_shr_1_digits, H0 by (rewrite H0; done).
    split_and!; [lia| |lia]. apply iter_shr_1_nonneg. by rewrite H0.
  - rewrite H0. lia.
Qed.

Lemma digits2_pos_succ p : (digits2_pos (Pos.succ p) ≤ digits2_pos p + 1)%positive.
Proof. induction p as [p IH|p IH|]; simpl; lia. Qed.

Lemma round_nearest_even_digits m l :
  0 ≤ m → Zdigits2 (round_nearest_even m l) ≤ Zdigits2 m + 1.
Proof.
  intros Hm.
  assert (Zdigits2 (m + 1) ≤ Zdigits2 m + 1) as Hs.
  { destruct m as [|p|p]; simpl; [lia| |lia].
    rewrite Pos.add_1_r. pose proof (digits2_pos_succ p). lia. }
  destruct l as [|[]]; simpl; try lia. destruct (Z.even m); lia.
Qed.

(** Rounding a mantissa whose magnitude stays far below [2 ^ 1024] never
    overflows to an infinity. *)
Lemma binary_round_aux_finite s m e l :
  0 ≤ m → Zdigits2 m + e ≤ 1000 → e ≤ 900 →
  is_inf (binary_round_aux prec emax s m e l) = false.
Proof.
  intros Hm Hd He. unfold binary_round_aux.
  pose proof (shr_fexp_spec m e l Hm) as H1.
  destruct (shr_fexp prec emax m e l) as [mrs' e']. destruct H1 as (He'&Hm'&Hd').
  pose proof (round_nearest_even_nonneg _ (loc_of_shr_record mrs') Hm') as Hr.
  pose proof (round_nearest_even_digits _ (loc_of_shr_record mrs') Hm') as Hrd.
  pose proof (shr_fexp_spec _ e' loc_Exact Hr) as H2.
  destruct (shr_fexp prec emax _ e' loc_Exact) as [mrs'' e'']. destruct H2 as (He''&Hm''&_).
  destruct (shr_m mrs'') as [|q|q]; [done| |done].
  assert (e'' ≤ emax - prec) as Hle.
  { unfold fexp, SpecFloat.emin, prec, emax in *. lia. }
  apply Z.leb_le in Hle. by rewrite Hle.
Qed.

Lemma digits2_pos_iter_xO m d :
  Z.pos (digits2_pos (Pos.iter xO m d)) = Z.pos (digits2_pos m) + Z.pos d.
Proof.
  induction d as [|d IH] using Pos.peano_ind; simpl; [lia|].
  rewrite Pos.iter_succ. simpl. lia.
Qed.

(** [float(n)] raises nothing for an integer of magnitude below [2 ^ 1000]. *)
Lemma float_of_int_ok n : Z.abs n < 2 ^ 1000 → ∃ f, float_of_int n = Ok f.
Proof.
  intros Hn. unfold float_of_int.
  enough (is_inf (binary_normalize prec emax n 0 false) = false) as Hfin
    by (destruct (binary_normalize prec emax n 0 false); by eauto).
  assert (∀ s m, Z.pos m < 2 ^ 1000 → is_inf (binary_round prec emax s m 0) = false) as Hround.
  { intros s m Hm. unfold binary_round, shl_align.
    pose proof (Zdigits2_le (Z.pos m) 1000 ltac:(lia) ltac:(lia)) as Hd. simpl in Hd.
    destruct (fexp prec emax (Z.pos (digits2_pos m) + 0) - 0) as [|d|d] eqn:E;
      apply binary_round_aux_finite; simpl; rewrite ?digits2_pos_iter_xO; lia. }
  destruct n as [|m|m]; simpl; [done|apply Hround; lia|apply Hround; lia].
Qed.

(** [a / b] on ints raises nothing for a non-zero [b] and an [a] of
    magnitude below [2 ^ 1000]. *)
Lemma int_truediv_ok a b : b ≠ 0 → Z.abs a < 2 ^ 1000 → ∃ q, int_truediv a b = Ok q.
Proof.
  intros Hb Ha. unfold int_truediv. rewrite (proj2 (Z.eqb_neq b 0) Hb).
  enough (is_inf (SF64div (exact a) (exact b)) = false) as Hfin
    by (destruct (SF64div (exact a) (exact b)); by eauto).
  assert (∀ s ma mb, Z.pos ma < 2 ^ 1000 →
            is_inf (SF64div (S754_finite s ma 0) (S754_finite false mb 0)) = false ∧
            is_inf (SF64div (S754_finite s ma 0) (S754_finite true mb 0)) = false) as Hdiv.
  { intros s ma mb Hma.
    assert (∀ s', is_inf (SF64div (S754_finite s ma 0) (S754_finite s' mb 0)) = false) as H;
      [|by split].
    intros s'. unfold SF64div, SFdiv, SFdiv_core_binary.
    set (e' := Z.min _ _). set (sh := 0 - 0 - e').
    assert (e' ≤ 0) by (subst e'; lia). assert (0 ≤ sh) by (subst sh; lia).
    set (m' := match sh with 0 => _ | Z.pos _ => _ | Z.neg _ => _ end).
    assert (m' = Z.pos ma * 2 ^ sh) as Hm'.
    { subst m'. destruct sh as [|p|p] eqn:E; [simpl; lia| |lia].
      by rewrite Z.shiftl_mul_pow2. }
    pose proof (Zdigits2_le (Z.pos ma) 1000 ltac:(lia) ltac:(lia)) as Hd.
    pose proof (Zdigits2_gt (Z.pos ma) ltac:(lia)) as Hgt.
    assert (0 < 2 ^ sh) as Hpos by (apply Z.pow_pos_nonneg; lia).
    assert (m' < 2 ^ (Zdigits2 (Z.pos ma) + sh)) as Hlt.
    { rewrite Hm', Z.pow_add_r by (try done; apply Zdigits2_nonneg).
      by apply Z.mul_lt_mono_pos_r. }
    assert (0 ≤ m') as Hm0 by lia.
    pose proof (Z.div_pos m' (Z.pos mb) Hm0 ltac:(lia)) as Hq0.
    assert (m' / Z.pos mb ≤ m') as Hqle.
    { apply Z.div_le_upper_bound; [lia|nia]. }
    unfold Z.div in Hq0, Hqle. destruct (Z.div_eucl m' (Z.pos mb)) as [q r].
    simpl in Hq0, Hqle.
    pose proof (Zdigits2_le q (Zdigits2 (Z.pos ma) + sh)
                  ltac:(pose proof (Zdigits2_nonneg (Z.pos ma)); lia) ltac:(lia)) as Hdq.
    apply binary_round_aux_finite; [done| |lia]. subst sh. lia. }
  destruct a as [|ma|ma], b as [|mb|mb]; try done; simpl in Ha;
    first [apply (Hdiv false ma mb); lia | apply (Hdiv true ma mb); lia].
Qed.

(** ** The order of binary64 numbers *)

Lemma SFcompare_key x y :
  SFcompare x y =
    match key x, key y with
    | Some a, Some b => Some (kcmp a b)
    | _, _ => None
    end.
Proof.
  destruct x as [sx|[]| |[] mx ex], y as [sy|[]| |[] my ey]; simpl; try done.
  rewrite Z.compare_opp, (Z.compare_antisym ey ex).
  by destruct (ey ?= ex).
Qed.

Lemma kcmp_Lt a b : kcmp a b = Lt ↔ klt a b.
Proof.
  destruct a as [[c1 e1] m1], b as [[c2 e2] m2]; unfold klt; simpl.
  destruct (Z.compare_spec c1 c2), (Z.compare_spec e1 e2), (Z.compare_spec m1 m2);
    split; intros; try done; lia.
Qed.

Lemma kcmp_Eq a b : kcmp a b = Eq ↔ a = b.
Proof.
  destruct a as [[c1 e1] m1], b as [[c2 e2] m2]; simpl.
  destruct (Z.compare_spec c1 c2), (Z.compare_spec e1 e2), (Z.compare_spec m1 m2);
    split; intros Heq; try done; try (inversion Heq; lia); subst; done.
Qed.

Lemma kcmp_le a b : kcmp a b ≠ Gt ↔ kle a b.
Proof.
  destruct a as [[c1 e1] m1], b as [[c2 e2] m2]; unfold kle; simpl.
  destruct (Z.compare_spec c1 c2), (Z.compare_spec e1 e2), (Z.compare_spec m1 m2);
    split; intros; try done; lia.
Qed.

Lemma float_lt_key x y :
  float_lt x y = true ↔ ∃ a b, key x = Some a ∧ key y = Some b ∧ klt a b.
Proof.
  unfold float_lt, SFltb. rewrite SFcompare_key.
  destruct (key x) as [a|], (key y) as [b|]; try (split; [done|intros (?&?&?&?&?); done]).
  split.
  - intros Hc. exists a, b. split_and!; [done..|].
    apply kcmp_Lt. by destruct (kcmp a b).
  - intros (a'&b'&[= <-]&[= <-]&Hc%kcmp_Lt). by rewrite Hc.
Qed.

Lemma float_le_key x y :
  float_le x y = true ↔ ∃ a b, key x = Some a ∧ key y = Some b ∧ kle a b.
Proof.
  unfold float_le, SFleb. rewrite SFcompare_key.
  destruct (key x) as [a|], (key y) as [b|]; try (split; [done|intros (?&?&?&?&?); done]).
  split.
  - intros Hc. exists a, b. split_and!; [done..|].
    apply kcmp_le. by destruct (kcmp a b).
  - intros (a'&b'&[= <-]&[= <-]&Hc%kcmp_le). by destruct (kcmp a b).
Qed.

Lemma float_eq_key x y :
  float_eq x y = true ↔ ∃ a, key x = Some a ∧ key y = Some a.
Proof.
  unfold float_eq, SFeqb. rewrite SFcompare_key.
  destruct (key x) as [a|], (key y) as [b|]; try (split; [done|intros (?&?&?); done]).
  split.
  - intros Hc. exists a. split; [done|].
    f_equal. symmetry. apply kcmp_Eq. by destruct (kcmp a b).
  - intros (a'&?&?). simplify_eq. by rewrite (proj2 (kcmp_Eq _ _) eq_refl).
Qed.

Lemma key_is_nan x : is_nan x = false ↔ is_Some (key x).
Proof.
  destruct x as [?|[]| |[] ? ?]; simpl; split; intros Hx; try done; try by eexists.
Qed.

(** Finishes an order goal once the keys of the floats involved are named. *)
Ltac key_order :=
repeat match goal with
       | H : ∃ _, _ |- _ => destruct H as [? H]
       | H : _ ∧ _ |- _ => destruct H as [? ?]
       end;
simplify_eq;
try (eexists _, _; split_and!; [eassumption..|]);
repeat match goal with
       | a : (Z * Z * Z)%type |- _ => destruct a as [[? ?] ?]
       end;
unfold klt, kle in *; simpl in *; try lia.

Lemma float_le_refl x : is_nan x = false → float_le x x = true.
Proof.
  intros [a Ha]%key_is_nan. apply float_le_key. exists a, a. split_and!; [done..|].
  destruct a as [[? ?] ?]. unfold kle. simpl. lia.
Qed.

Lemma float_le_trans x y z : float_le x y = true → float_le y z = true → float_le x z = true.
Proof. rewrite !float_le_key. intros H1 H2. key_order. Qed.

Lemma float_lt_le x y : float_lt x y = true → float_le x y = true.
Proof. rewrite float_lt_key, float_le_key. intros H1. key_order. Qed.

Lemma float_lt_not_nan x y : float_lt x y = true → is_nan x = false ∧ is_nan y = false.
Proof. rewrite float_lt_key, !key_is_nan. intros (a&b&->&->&_). eauto. Qed.

Lemma float_not_lt_le x y :
  is_nan x = false → is_nan y = false → float_lt x y = false → float_le y x = true.
Proof.
  intros [a Ha]%key_is_nan [b Hb]%key_is_nan Hlt.
  apply float_le_key. exists b, a. split_and!; [done..|].
  assert (Hn : ¬ klt a b).
  { intros Hk. apply not_true_iff_false in Hlt. apply Hlt, float_lt_key. eauto. }
  key_order.
Qed.

Lemma same_eq x y : same x y → is_nan x = false → float_eq x y = true.
Proof. intros Hs [a Ha]%key_is_nan. apply float_eq_key. exists a. by rewrite <- Hs. Qed.

Lemma float_lt_kltb x y : float_lt x y = kltb (key x) (key y).
Proof.
  unfold float_lt, SFltb, kltb. rewrite SFcompare_key.
  by destruct (key x), (key y).
Qed.

Lemma kltb_Some a b : kltb (Some a) (Some b) = true ↔ klt a b.
Proof.
  unfold kltb. rewrite <- kcmp_Lt. by destruct (kcmp a b).
Qed.

Lemma key_fmin m v :
  key (fmin m v) = if kltb (key v) (key m) then key v else key m.
Proof. unfold fmin. rewrite float_lt_kltb. by destruct (kltb _ _). Qed.

Lemma key_fmax m v :
  key (fmax m v) = if kltb (key m) (key v) then key v else key m.
Proof.
  unfold fmax, float_gt. fold (float_lt m v). rewrite float_lt_kltb.
  by destruct (kltb _ _).
Qed.

Lemma kltb_None_l b : kltb None b = false.
Proof. done. Qed.

Lemma kltb_None_r a : kltb a None = false.
Proof. by destruct a. Qed.

Ltac kltb_split :=
repeat first
  [ rewrite kltb_None_l
  | rewrite kltb_None_r
  | match goal with
    | |- context [kltb (Some ?a) (Some ?b)] =>
        let E := fresh "E" in
        destruct (kltb (Some a) (Some b)) eqn:E;
        [apply kltb_Some in E
        |apply not_true_iff_false in E; rewrite kltb_Some in E]
    end ];
try done;
repeat match goal with
       | a : (Z * Z * Z)%type |- _ => destruct a as [[? ?] ?]
       end;
unfold klt in *; simpl in *;
try (exfalso; lia);
try (repeat f_equal; lia).

Lemma fmin_swap m x y : same (fmin (fmin m x) y) (fmin (fmin m y) x).
Proof.
  unfold same. rewrite !key_fmin.
  destruct (key m) as [km|], (key x) as [kx|], (key y) as [ky|]; kltb_split.
Qed.

Lemma fmax_swap m x y : same (fmax (fmax m x) y) (fmax (fmax m y) x).
Proof.
  unfold same. rewrite !key_fmax.
  destruct (key m) as [km|], (key x) as [kx|], (key y) as [ky|]; kltb_split.
Qed.

Lemma fmin_same m m' v : same m m' → same (fmin m v) (fmin m' v).
Proof. unfold same. rewrite !key_fmin. by intros ->. Qed.

Lemma fmax_same m m' v : same m m' → same (fmax m v) (fmax m' v).
Proof. unfold same. rewrite !key_fmax. by intros ->. Qed.

Lemma fmin_not_nan m v : is_nan m = false → is_nan (fmin m v) = false.
Proof.
  intros Hm. unfold fmin. destruct (float_lt v m) eqn:E; [|done].
  by apply float_lt_not_nan in E as [? _].
Qed.

Lemma fmax_not_nan m v : is_nan m = false → is_nan (fmax m v) = false.
Proof.
  intros Hm. unfold fmax, float_gt. fold (float_lt m v). destruct (float_lt m v) eqn:E; [|done].
  by apply float_lt_not_nan in E as [_ ?].
Qed.

Lemma fmin_le_old m v : is_nan m = false → float_le (fmin m v) m = true.
Proof.
  intros Hm. unfold fmin.
  destruct (float_lt v m) eqn:E; [by apply float_lt_le|by apply float_le_refl].
Qed.

Lemma fmin_le_new m v :
  is_nan m = false → is_nan v = false → float_le (fmin m v) v = true.
Proof.
  intros Hm Hv. unfold fmin.
  destruct (float_lt v m) eqn:E; [by apply float_le_refl|by apply float_not_lt_le].
Qed.

Lemma fmax_ge_old m v : is_nan m = false → float_le m (fmax m v) = true.
Proof.
  intros Hm. unfold fmax, float_gt. fold (float_lt m v).
  destruct (float_lt m v) eqn:E; [by apply float_lt_le|by apply float_le_refl].
Qed.

Lemma fmax_ge_new m v :
  is_nan m = false → is_nan v = false → float_le v (fmax m v) = true.
Proof.
  intros Hm Hv. unfold fmax, float_gt. fold (float_lt m v).
  destruct (float_lt m v) eqn:E; [by apply float_le_refl|by apply float_not_lt_le].
Qed.

(** * MetricAccumulator: running statistics *)

Lemma add_None acc : add acc None = acc.
Proof. done. Qed.

Lemma add_Some acc v :
  add acc (Some v) =
    {| minimum := fmin (minimum acc) v;
       maximum := fmax (maximum acc) v;
       total := SF64add (total acc) v;
       count := count acc + 1 |}.
Proof. done. Qed.

Lemma feed_present values : ∀ acc, feed values acc = feed (Some <$> present values) acc.
Proof.
  induction values as [|[v|] values IH]; intros acc; simpl; [done|apply IH|apply IH].
Qed.

Lemma count_feed values : ∀ acc,
  count (feed values acc) = count acc + Z.of_nat (length (present values)).
Proof.
  induction values as [|[v|] values IH]; intros acc; simpl.
  - lia.
  - rewrite IH. simpl. lia.
  - apply IH.
Qed.

Lemma total_feed values : ∀ acc,
  total (feed values acc) = fold_left SF64add (present values) (total acc).
Proof.
  induction values as [|[v|] values IH]; intros acc; simpl; [done|by rewrite IH|apply IH].
Qed.

Lemma minimum_feed_not_nan values : ∀ acc,
  is_nan (minimum acc) = false → is_nan (minimum (feed values acc)) = false.
Proof.
  induction values as [|[v|] values IH]; intros acc Hm; simpl; [done| |by apply IH].
  apply IH. simpl. by apply fmin_not_nan.
Qed.

Lemma maximum_feed_not_nan values : ∀ acc,
  is_nan (maximum acc) = false → is_nan (maximum (feed values acc)) = false.
Proof.
  induction values as [|[v|] values IH]; intros acc Hm; simpl; [done| |by apply IH].
  apply IH. simpl. by apply fmax_not_nan.
Qed.

(** The stored minimum only decreases and is below every number fed. *)
Lemma minimum_feed_le values : ∀ acc,
  is_nan (minimum acc) = false →
  float_le (minimum (feed values acc)) (minimum acc) = true ∧
  ∀ v, v ∈ present values → is_nan v = false →
    float_le (minimum (feed values acc)) v = true.
Proof.
  induction values as [|[w|] values IH]; intros acc Hm; simpl.
  - split; [by apply float_le_refl|]. intros v Hv. by apply elem_of_nil in Hv.
  - destruct (IH (add acc (Some w))) as [IH1 IH2]; [by apply fmin_not_nan|].
    simpl in IH1. split.
    + eapply float_le_trans; [exact IH1|]. by apply fmin_le_old.
    + intros v [->|Hv]%elem_of_cons Hnan; [|by apply IH2].
      eapply float_le_trans; [exact IH1|]. by apply fmin_le_new.
  - by apply IH.
Qed.

Lemma maximum_feed_ge values : ∀ acc,
  is_nan (maximum acc) = false →
  float_le (maximum acc) (maximum (feed values acc)) = true ∧
  ∀ v, v ∈ present values → is_nan v = false →
    float_le v (maximum (feed values acc)) = true.
Proof.
  induction values as [|[w|] values IH]; intros acc Hm; simpl.
  - split; [by apply float_le_refl|]. intros v Hv. by apply elem_of_nil in Hv.
  - destruct (IH (add acc (Some w))) as [IH1 IH2]; [by apply fmax_not_nan|].
    simpl in IH1. split.
    + eapply float_le_trans; [|exact IH1]. by apply fmax_ge_old.
    + intros v [->|Hv]%elem_of_cons Hnan; [|by apply IH2].
      eapply float_le_trans; [|exact IH1]. by apply fmax_ge_new.
  - by apply IH.
Qed.

Lemma acc_same_refl a : acc_same a a.
Proof. done. Qed.

Lemma acc_same_trans a b c : acc_same a b → acc_same b c → acc_same a c.
Proof.
  unfold acc_same, same. intros (->&->&->) (->&->&->). done.
Qed.

Lemma add_acc_same a b o : acc_same a b → acc_same (add a o) (add b o).
Proof.
  intros (Hmin&Hmax&Hc). destruct o as [v|]; [|done].
  rewrite !add_Some. split_and!; simpl.
  - by apply fmin_same.
  - by apply fmax_same.
  - lia.
Qed.

Lemma add_swap a x y : acc_same (add (add a x) y) (add (add a y) x).
Proof.
  destruct x as [x|], y as [y|]; try done.
  rewrite !add_Some. split_and!; simpl.
  - apply fmin_swap.
  - apply fmax_swap.
  - lia.
Qed.

Lemma feed_acc_same values : ∀ a b, acc_same a b → acc_same (feed values a) (feed values b).
Proof.
  induction values as [|o values IH]; intros a b Hab; simpl; [done|].
  by apply IH, add_acc_same.
Qed.

Lemma feed_permutation l1 l2 :
  l1 ≡ₚ l2 → ∀ a b, acc_same a b → acc_same (feed l1 a) (feed l2 b).
Proof.
  induction 1 as [|o l1 l2 _ IH|x y l|l1 l2 l3 _ IH1 _ IH2]; intros a b Hab; simpl.
  - done.
  - by apply IH, add_acc_same.
  - apply feed_acc_same. eapply acc_same_trans; [apply add_swap|].
    by apply add_acc_same, add_acc_same.
  - eapply acc_same_trans; [by apply IH1|]. apply IH2, acc_same_refl.
Qed.

(** * One sampling pass, seen from one pid *)

Lemma bind_Ok {A B} (m : result A) (k : A → result B) (b : B) :
m ≫= k = Ok b → ∃ a, m = Ok a ∧ k a = Ok b.
Proof. destruct m as [a|e]; simpl; [eauto|done]. Qed.

Section Pass.
Context (os : OS) (now : float) (clk_tck page_size : Z).

Lemma sample_pid_unread st pid :
  read_stat os pid = None → sample_pid os now clk_tck page_size st pid = Ok st.
Proof. intros H. unfold sample_pid. by rewrite H. Qed.

Lemma sample_pid_other st st' p pid :
  sample_pid os now clk_tck page_size st p = Ok st' → p ≠ pid →
  stats_by_pid st' !! pid = stats_by_pid st !! pid ∧
  prev_by_pid st' !! pid = prev_by_pid st !! pid.
Proof.
  unfold sample_pid. intros H Hne.
  destruct (read_stat os p) as [[[[name ppid] cpu_ticks] rss_pages]|]; [|by simplify_eq].
  apply bind_Ok in H as ([[cpu_pct disk_bps] xfer_bps]&_&H).
  apply bind_Ok in H as (rss&_&H). simplify_eq. simpl.
  by rewrite !lookup_insert_ne.
Qed.

Lemma sample_pid_at st st' pid name ppid cpu_ticks rss_pages :
  sample_pid os now clk_tck page_size st pid = Ok st' →
  read_stat os pid = Some (name, ppid, cpu_ticks, rss_pages) →
  ∃ cpu_pct disk_bps xfer_bps rss,
    rates (prev_by_pid st !! pid) now clk_tck cpu_ticks (disk_read os pid) (xfer_read os pid)
      = Ok (cpu_pct, disk_bps, xfer_bps) ∧
    float_of_int (rss_pages * page_size) = Ok rss ∧
    stats_by_pid st' !! pid =
      Some (record_sample (lookup_or_create (stats_by_pid st !! pid) pid name ppid now)
              cpu_pct disk_bps xfer_bps rss) ∧
    prev_by_pid st' !! pid =
      Some (next_prev (prev_by_pid st !! pid) now cpu_ticks (disk_read os pid) (xfer_read os pid)).
Proof.
  unfold sample_pid. intros H Hread. rewrite Hread in H.
  apply bind_Ok in H as ([[cpu_pct disk_bps] xfer_bps]&Hr&H).
  apply bind_Ok in H as (rss&Hrss&H). simplify_eq. simpl.
  exists cpu_pct, disk_bps, xfer_bps, rss. by rewrite !lookup_insert_eq.
Qed.

Lemma for_each_other l : ∀ st st' pid,
  for_each (sample_pid os now clk_tck page_size) l st = Ok st' → pid ∉ l →
  stats_by_pid st' !! pid = stats_by_pid st !! pid ∧
  prev_by_pid st' !! pid = prev_by_pid st !! pid.
Proof.
  induction l as [|p l IH]; intros st st' pid H Hnotin; simpl in H; [by simplify_eq|].
  apply bind_Ok in H as (st1&H1&H).
  apply not_elem_of_cons in Hnotin as [Hne Hnotin].
  destruct (IH _ _ _ H Hnotin) as [-> ->].
  eapply sample_pid_other; eauto.
Qed.

(** The loop runs the body for a tracked pid once, on that pid's entries
    as they were when the pass began. *)
Lemma for_each_at l : ∀ st st' pid,
  for_each (sample_pid os now clk_tck page_size) l st = Ok st' → NoDup l → pid ∈ l →
  ∃ st1 st2,
    sample_pid os now clk_tck page_size st1 pid = Ok st2 ∧
    stats_by_pid st1 !! pid = stats_by_pid st !! pid ∧
    prev_by_pid st1 !! pid = prev_by_pid st !! pid ∧
    stats_by_pid st' !! pid = stats_by_pid st2 !! pid ∧
    prev_by_pid st' !! pid = prev_by_pid st2 !! pid.
Proof.
  induction l as [|p l IH]; intros st st' pid H Hnd Hin; [by apply elem_of_nil in Hin|].
  simpl in H. apply bind_Ok in H as (st1&H1&H).
  apply NoDup_cons in Hnd as [Hp Hnd].
  apply elem_of_cons in Hin as [->|Hin].
  - exists st, st1. destruct (for_each_other _ _ _ _ H Hp) as [-> ->]. done.
  - destruct (IH _ _ _ H Hnd Hin) as (sa&sb&Hs&E1&E2&E3&E4).
    assert (p ≠ pid) as Hne by (intros ->; done).
    destruct (sample_pid_other _ _ _ _ H1 Hne) as [E5 E6].
    exists sa, sb. rewrite E1, E2, E5, E6. done.
Qed.

Lemma sample_once_unread st n st' pid :
  sample_once os now clk_tck page_size st = Ok (n, st') →
  pid ∉ pids_in_service_cgroup os ∨ read_stat os pid = None →
  stats_by_pid st' !! pid = stats_by_pid st !! pid ∧
  prev_by_pid st' !! pid = prev_by_pid st !! pid.
Proof.
  unfold sample_once. intros H Hun. case_decide; [by simplify_eq|].
  apply bind_Ok in H as (st1&H1&H). simplify_eq.
  destruct (decide (pid ∈ elements (pids_in_service_cgroup os))) as [Hin|Hnotin].
  - destruct Hun as [Hun|Hun]; [by apply elem_of_elements in Hin|].
    destruct (for_each_at _ _ _ _ H1 (NoDup_elements _) Hin) as (sa&sb&Hs&E1&E2&E3&E4).
    rewrite sample_pid_unread in Hs by done. simplify_eq. by rewrite E3, E4.
  - eapply for_each_other; eauto.
Qed.

Lemma sample_once_at st n st' pid name ppid cpu_ticks rss_pages :
  sample_once os now clk_tck page_size st = Ok (n, st') →
  pid ∈ pids_in_service_cgroup os →
  read_stat os pid = Some (name, ppid, cpu_ticks, rss_pages) →
  ∃ cpu_pct disk_bps xfer_bps rss,
    rates (prev_by_pid st !! pid) now clk_tck cpu_ticks (disk_read os pid) (xfer_read os pid)
      = Ok (cpu_pct, disk_bps, xfer_bps) ∧
    float_of_int (rss_pages * page_size) = Ok rss ∧
    stats_by_pid st' !! pid =
      Some (record_sample (lookup_or_create (stats_by_pid st !! pid) pid name ppid now)
              cpu_pct disk_bps xfer_bps rss) ∧
    prev_by_pid st' !! pid =
      Some (next_prev (prev_by_pid st !! pid) now cpu_ticks (disk_read os pid) (xfer_read os pid)).
Proof.
  unfold sample_once. intros H Hin Hread. case_decide as Hempty.
  { rewrite Hempty in Hin. by apply not_elem_of_empty in Hin. }
  apply bind_Ok in H as (st1&H1&H). simplify_eq.
  apply elem_of_elements in Hin.
  destruct (for_each_at _ _ _ _ H1 (NoDup_elements _) Hin) as (sa&sb&Hs&E1&E2&E3&E4).
  destruct (sample_pid_at _ _ _ _ _ _ _ Hs Hread) as (c&d&x&r&Hr&Hf&Hst&Hpv).
  exists c, d, x, r. rewrite E3, E4, <- E1, <- E2. done.
Qed.

(** Two iterations of the loop body on different pids commute. *)
Lemma sample_pid_swap st p q s1 s2 :
  p ≠ q →
  sample_pid os now clk_tck page_size st p = Ok s1 →
  sample_pid os now clk_tck page_size s1 q = Ok s2 →
  ∃ s1', sample_pid os now clk_tck page_size st q = Ok s1' ∧
         sample_pid os now clk_tck page_size s1' p = Ok s2.
Proof.
  intros Hne H1 H2. unfold sample_pid in *.
  destruct (read_stat os p) as [[[[np pp] cp] rp]|], (read_stat os q) as [[[[nq pq] cq] rq]|];
    simplify_eq; eauto.
  apply bind_Ok in H1 as ([[c1 d1] x1]&Hr1&H1).
  apply bind_Ok in H1 as (m1&Hm1&H1). simplify_eq. simpl in H2.
  rewrite !lookup_insert_ne in H2 by done.
  apply bind_Ok in H2 as ([[c2 d2] x2]&Hr2&H2).
  apply bind_Ok in H2 as (m2&Hm2&H2). simplify_eq.
  eexists. rewrite Hr2. simpl. rewrite Hm2. simpl. split; [reflexivity|].
  simpl. rewrite !lookup_insert_ne by done. rewrite Hr1. simpl. rewrite Hm1. simpl.
  f_equal. f_equal; apply insert_insert_ne; done.
Qed.

(** The order in which the loop visits the tracked pids does not change
    the state a pass ends in. *)
Lemma for_each_permutation l l' :
  l ≡ₚ l' → ∀ st st',
  for_each (sample_pid os now clk_tck page_size) l st = Ok st' →
  for_each (sample_pid os now clk_tck page_size) l' st = Ok st'.
Proof.
  induction 1 as [|p l l' _ IH|p q l|l1 l2 l3 _ IH1 _ IH2]; intros st st' H.
  - done.
  - simpl in *. apply bind_Ok in H as (s1&H1&H). rewrite H1. simpl. by apply IH.
  - simpl in *. apply bind_Ok in H as (s1&H1&H). apply bind_Ok in H as (s2&H2&H).
    destruct (decide (q = p)) as [->|Hne].
    + rewrite H1. simpl. rewrite H2. done.
    + destruct (sample_pid_swap _ _ _ _ _ Hne H1 H2) as (s1'&Hq&Hp).
      rewrite Hq. simpl. rewrite Hp. done.
  - by apply IH2, IH1.
Qed.

End Pass.

(** * The rate computation *)

Lemma gt_zero_ne dt : float_gt dt zero = true → float_eq dt zero = false.
Proof. destruct dt as [s|[]| |[] m e]; simpl; done. Qed.

Lemma le_zero_not_gt dt : float_le dt zero = true → float_gt dt zero = false.
Proof. destruct dt as [s|[]| |[] m e]; simpl; done. Qed.

Lemma float_of_int_signed n f :
  float_of_int n = Ok f → signed (n <? 0) f ∧ is_inf f = false.
Proof.
  unfold float_of_int. intros H.
  pose proof (binary_normalize_signed n) as Hs.
  destruct (binary_normalize prec emax n 0 false); by simplify_eq.
Qed.

Lemma int_truediv_signed a b q :
  int_truediv a b = Ok q → 0 < b → signed (a <? 0) q ∧ is_inf q = false.
Proof.
  unfold int_truediv. intros H Hb.
  destruct (Z.eqb_spec b 0) as [->|Hne]; [lia|].
  destruct (exact_signed a) as [Ha Hia], (exact_signed b) as [Hb' _].
  pose proof (SF64div_signed _ _ _ _ Ha Hb' Hia (exact_pos_nonzero b Hne)) as Hs.
  replace (b <? 0) with false in Hs by (symmetry; apply Z.ltb_ge; lia).
  rewrite xorb_false_r in Hs.
  destruct (SF64div (exact a) (exact b)); by simplify_eq.
Qed.

Lemma rate_signed s f dt :
  signed s f → is_inf f = false → float_gt dt zero = true → signed s (SF64div f dt).
Proof.
  intros Hf Hfin [Hdt Hnz]%gt_zero_signed.
  pose proof (SF64div_signed _ _ _ _ Hf Hdt Hfin Hnz) as Hs.
  by rewrite xorb_false_r in Hs.
Qed.

(** Clamping keeps a rate whose integer delta is not negative and turns
    the rate of a negative delta into [0.0]. *)
Lemma clamp_rate delta r :
  signed (delta <? 0) r →
  float_le zero (Py.max zero r) = true ∧
  (0 ≤ delta → Py.max zero r = r) ∧
  (delta < 0 → Py.max zero r = zero).
Proof.
  intros Hs. split; [apply max_zero_ge|]. split; intros Hd.
  - apply max_zero_signed_false. by replace (delta <? 0) with false in Hs
      by (symmetry; apply Z.ltb_ge; lia).
  - apply max_zero_signed_true. by replace (delta <? 0) with true in Hs
      by (symmetry; apply Z.ltb_lt; lia).
Qed.

(** A clamped rate is never NaN, nor is a converted integer: every value
    [sample_once] hands to an accumulator is a number. *)
Lemma clamp_not_nan rate v : clamp rate = Some v → is_nan v = false.
Proof.
  destruct rate as [r|]; simpl; [|done]. intros [= <-].
  by destruct r as [[]|[]| |[] m e].
Qed.

Lemma float_of_int_not_nan n f : float_of_int n = Ok f → is_nan f = false.
Proof. intros [Hs _]%float_of_int_signed. by destruct f. Qed.

Lemma rates_not_nan prev now clk_tck cpu_ticks disk_total xfer_total cpu_pct disk_bps xfer_bps :
  rates prev now clk_tck cpu_ticks disk_total xfer_total = Ok (cpu_pct, disk_bps, xfer_bps) →
  ∀ v, cpu_pct = Some v ∨ disk_bps = Some v ∨ xfer_bps = Some v → is_nan v = false.
Proof.
  unfold rates. intros H. apply bind_Ok in H as ([[c d] x]&_&H). simplify_eq.
  intros v [Hv|[Hv|Hv]]; by apply clamp_not_nan in Hv.
Qed.

Lemma rates_first now clk_tck cpu_ticks disk_total xfer_total :
  rates None now clk_tck cpu_ticks disk_total xfer_total = Ok (None, None, None).
Proof. done. Qed.

Lemma rates_no_elapsed prev now clk_tck cpu_ticks disk_total xfer_total :
  float_gt (SF64sub now (PrevSample.timestamp prev)) zero = false →
  rates (Some prev) now clk_tck cpu_ticks disk_total xfer_total = Ok (None, None, None).
Proof. intros H. unfold rates, raw_rates. by rewrite H. Qed.

(** With a previous sample and [dt > 0]: what each output is when the
    computation raises nothing. *)
Lemma rates_elapsed_inv prev now clk_tck cpu_ticks disk_total xfer_total cpu_pct disk_bps xfer_bps :
  let dt := SF64sub now (PrevSample.timestamp prev) in
  float_gt dt zero = true →
  rates (Some prev) now clk_tck cpu_ticks disk_total xfer_total
    = Ok (cpu_pct, disk_bps, xfer_bps) →
  (∃ q, int_truediv (cpu_ticks - PrevSample.cpu_ticks prev) clk_tck = Ok q ∧
        cpu_pct = Some (Py.max zero (SF64mul (SF64div q dt) hundred))) ∧
  match disk_total with
  | Some d => ∃ f, float_of_int (d - PrevSample.disk_bytes prev) = Ok f ∧
                   disk_bps = Some (Py.max zero (SF64div f dt))
  | None => disk_bps = None
  end ∧
  match xfer_total with
  | Some x => ∃ f, float_of_int (x - PrevSample.xfer_bytes prev) = Ok f ∧
                   xfer_bps = Some (Py.max zero (SF64div f dt))
  | None => xfer_bps = None
  end.
Proof.
  intros dt Hgt H. unfold rates, raw_rates in H. fold dt in H. rewrite Hgt in H.
  apply bind_Ok in H as ([[c d] x]&H&Hc).
  apply bind_Ok in H as (q&Hq&H).
  apply bind_Ok in H as (q'&Hq'&H).
  apply bind_Ok in H as (d'&Hd&H).
  apply bind_Ok in H as (x'&Hx&H).
  unfold float_truediv in Hq'. rewrite (gt_zero_ne _ Hgt) in Hq'.
  simplify_eq. split_and!.
  - by exists q.
  - destruct disk_total as [dv|]; [|by simplify_eq].
    apply bind_Ok in Hd as (r&Hr&Hd). unfold int_div_float in Hr.
    apply bind_Ok in Hr as (f&Hf&Hr).
    unfold float_truediv in Hr. rewrite (gt_zero_ne _ Hgt) in Hr.
    simplify_eq. by exists f.
  - destruct xfer_total as [xv|]; [|by simplify_eq].
    apply bind_Ok in Hx as (r&Hr&Hx). unfold int_div_float in Hr.
    apply bind_Ok in Hr as (f&Hf&Hr).
    unfold float_truediv in Hr. rewrite (gt_zero_ne _ Hgt) in Hr.
    simplify_eq. by exists f.
Qed.

(** The converse: when the conversions succeed, so does the computation. *)
Lemma rates_elapsed prev now clk_tck cpu_ticks d x q fd fx :
  let dt := SF64sub now (PrevSample.timestamp prev) in
  float_gt dt zero = true →
  int_truediv (cpu_ticks - PrevSample.cpu_ticks prev) clk_tck = Ok q →
  float_of_int (d - PrevSample.disk_bytes prev) = Ok fd →
  float_of_int (x - PrevSample.xfer_bytes prev) = Ok fx →
  rates (Some prev) now clk_tck cpu_ticks (Some d) (Some x) =
    Ok (Some (Py.max zero (SF64mul (SF64div q dt) hundred)),
        Some (Py.max zero (SF64div fd dt)),
        Some (Py.max zero (SF64div fx dt))).
Proof.
  intros dt Hgt Hq Hfd Hfx. unfold rates, raw_rates. fold dt. rewrite Hgt, Hq. simpl.
  unfold int_div_float, float_truediv. rewrite Hfd, Hfx, (gt_zero_ne _ Hgt). done.
Qed.

(** The same whether or not each I/O total was read. *)
Lemma rates_elapsed_any prev now clk_tck cpu_ticks disk_total xfer_total q fd fx :
  let dt := SF64sub now (PrevSample.timestamp prev) in
  float_gt dt zero = true →
  int_truediv (cpu_ticks - PrevSample.cpu_ticks prev) clk_tck = Ok q →
  (∀ d, disk_total = Some d → float_of_int (d - PrevSample.disk_bytes prev) = Ok fd) →
  (∀ x, xfer_total = Some x → float_of_int (x - PrevSample.xfer_bytes prev) = Ok fx) →
  rates (Some prev) now clk_tck cpu_ticks disk_total xfer_total =
    Ok (Some (Py.max zero (SF64mul (SF64div q dt) hundred)),
        (λ _, Py.max zero (SF64div fd dt)) <$> disk_total,
        (λ _, Py.max zero (SF64div fx dt)) <$> xfer_total).
Proof.
  intros dt Hgt Hq Hfd Hfx. unfold rates, raw_rates. fold dt. rewrite Hgt, Hq. simpl.
  unfold int_div_float, float_truediv. rewrite (gt_zero_ne _ Hgt).
  destruct disk_total as [d|], xfer_total as [x|]; simpl;
    rewrite ?(Hfd _ eq_refl), ?(Hfx _ eq_refl); done.
Qed.

(** * Sessions *)

Lemma run_passes_cons clk_tck page_size pass passes st st' :
  run_passes clk_tck page_size (pass :: passes) st = Ok st' ↔
  ∃ n st1, sample_once pass.1 pass.2 clk_tck page_size st = Ok (n, st1) ∧
           run_passes clk_tck page_size passes st1 = Ok st'.
Proof.
  unfold run_passes. simpl. split.
  - intros H. apply bind_Ok in H as (st1&H1&H).
    apply bind_Ok in H1 as ([n st1']&H1&?). simplify_eq. eauto.
  - intros (n&st1&H1&H). by rewrite H1.
Qed.

Lemma run_passes_never_read clk_tck page_size pid passes : ∀ st st',
  run_passes clk_tck page_size passes st = Ok st' →
  times_read pid passes = 0%nat →
  stats_by_pid st' !! pid = stats_by_pid st !! pid ∧
  prev_by_pid st' !! pid = prev_by_pid st !! pid.
Proof.
  unfold times_read.
  induction passes as [|pass passes IH]; intros st st' H Hn.
  - unfold run_passes in H. simpl in H. by simplify_eq.
  - apply run_passes_cons in H as (n&st1&H1&H).
    rewrite filter_cons in Hn. destruct (decide (read_ok pid pass)) as [Hok|Hno]; [done|].
    destruct (IH _ _ H Hn) as [-> ->].
    eapply sample_once_unread; [exact H1|].
    unfold read_ok in Hno.
    destruct (decide (pid ∈ pids_in_service_cgroup pass.1)); [|by left].
    right. destruct (read_stat pass.1 pid) eqn:E; [|done].
    exfalso. apply Hno. eauto.
Qed.

Lemma run_passes_nothing_tracked clk_tck page_size passes : ∀ st,
  Forall (λ pass : OS * float, pids_in_service_cgroup pass.1 = ∅) passes →
  run_passes clk_tck page_size passes st = Ok st.
Proof.
  induction passes as [|pass passes IH]; intros st Hall; [done|].
  apply Forall_cons in Hall as [Hempty Hall].
  apply run_passes_cons. exists 0, st. split; [|by apply IH].
  unfold sample_once. by rewrite decide_True.
Qed.

Lemma session_read_once clk_tck page_size pid passes : ∀ st st',
  run_passes clk_tck page_size passes st = Ok st' →
  stats_by_pid st !! pid = None → prev_by_pid st !! pid = None →
  times_read pid passes = 1%nat →
  ∃ name ppid now rss,
    stats_by_pid st' !! pid =
      Some (record_sample (ProcessStats.new pid name ppid now now) None None None rss).
Proof.
  induction passes as [|pass passes IH]; intros st st' H Hs Hp Hn; [done|].
  apply run_passes_cons in H as (n&st1&H1&H).
  unfold times_read in Hn. rewrite filter_cons in Hn.
  destruct (decide (read_ok pid pass)) as [[Hin [[[[name ppid] cpu] rss] Hread]]|Hno].
  - simpl in Hn.
    destruct (run_passes_never_read _ _ pid _ _ _ H) as [-> _];
      [unfold times_read; lia|].
    destruct (sample_once_at _ _ _ _ _ _ _ _ _ _ _ _ H1 Hin Hread)
      as (c&d&x&r&Hr&Hf&Hst&_).
    rewrite Hp, rates_first in Hr. rewrite Hs in Hst. simplify_eq.
    by exists name, ppid, pass.2, r.
  - assert (pid ∉ pids_in_service_cgroup pass.1 ∨ read_stat pass.1 pid = None) as Hun.
    { unfold read_ok in Hno.
      destruct (decide (pid ∈ pids_in_service_cgroup pass.1)); [|by left].
      right. destruct (read_stat pass.1 pid) eqn:E; [|done].
      exfalso. apply Hno. eauto. }
    destruct (sample_once_unread _ _ _ _ _ _ _ _ H1 Hun) as [E1 E2].
    apply (IH st1 st' H); [by rewrite E1|by rewrite E2|done].
Qed.

(** * Sessions that raise nothing *)

Lemma limit_double : 2 ^ 1000 = 2 * limit.
Proof. unfold limit. by rewrite <- Z.pow_succ_r. Qed.

Lemma limit_pos : 0 < limit.
Proof. unfold limit. by apply Z.pow_pos_nonneg. Qed.

Lemma small_sub a b : small a → small b → Z.abs (a - b) < 2 ^ 1000.
Proof. unfold small. rewrite limit_double. lia. Qed.

Lemma small_abs a : small a → Z.abs a < 2 ^ 1000.
Proof. unfold small. rewrite limit_double. lia. Qed.

Lemma rates_ok prev now clk_tck cpu_ticks disk_total xfer_total :
  clk_tck ≠ 0 →
  (∀ p, prev = Some p →
     small (PrevSample.cpu_ticks p) ∧ small (PrevSample.disk_bytes p) ∧
     small (PrevSample.xfer_bytes p)) →
  small cpu_ticks →
  (∀ d, disk_total = Some d → small d) →
  (∀ x, xfer_total = Some x → small x) →
  ∃ r, rates prev now clk_tck cpu_ticks disk_total xfer_total = Ok r.
Proof.
  intros Hclk Hprev Hcpu Hdisk Hxfer. destruct prev as [p|]; [|by eexists].
  destruct (Hprev p eq_refl) as (Hpc&Hpd&Hpx).
  unfold rates, raw_rates.
  destruct (float_gt (SF64sub now (PrevSample.timestamp p)) zero) eqn:Hgt; [|by eexists].
  destruct (int_truediv_ok (cpu_ticks - PrevSample.cpu_ticks p) clk_tck Hclk
              (small_sub _ _ Hcpu Hpc)) as [q ->]. simpl.
  unfold int_div_float, float_truediv. rewrite (gt_zero_ne _ Hgt). simpl.
  destruct disk_total as [d|], xfer_total as [x|]; simpl.
  - destruct (float_of_int_ok _ (small_sub _ _ (Hdisk d eq_refl) Hpd)) as [fd ->].
    destruct (float_of_int_ok _ (small_sub _ _ (Hxfer x eq_refl) Hpx)) as [fx ->].
    by eexists.
  - destruct (float_of_int_ok _ (small_sub _ _ (Hdisk d eq_refl) Hpd)) as [fd ->].
    by eexists.
  - destruct (float_of_int_ok _ (small_sub _ _ (Hxfer x eq_refl) Hpx)) as [fx ->].
    by eexists.
  - by eexists.
Qed.

Lemma next_prev_small prev now cpu_ticks disk_total xfer_total :
  (∀ p, prev = Some p →
     small (PrevSample.cpu_ticks p) ∧ small (PrevSample.disk_bytes p) ∧
     small (PrevSample.xfer_bytes p)) →
  small cpu_ticks →
  (∀ d, disk_total = Some d → small d) →
  (∀ x, xfer_total = Some x → small x) →
  let p' := next_prev prev now cpu_ticks disk_total xfer_total in
  small (PrevSample.cpu_ticks p') ∧ small (PrevSample.disk_bytes p') ∧
  small (PrevSample.xfer_bytes p').
Proof.
  intros Hprev Hcpu Hdisk Hxfer.
  assert (small 0) as H0 by (unfold small; pose proof limit_pos; lia).
  unfold next_prev.
  destruct disk_total as [d|], xfer_total as [x|], prev as [p|]; simpl;
    try destruct (Hprev p eq_refl) as (?&?&?); split_and!; auto.
Qed.

Section Totality.
Context (os : OS) (now : float) (clk_tck page_size : Z).
Context (Hclk : clk_tck ≠ 0) (Hos : small_os page_size os).

Lemma sample_pid_ok st pid :
  small_state st →
  ∃ st', sample_pid os now clk_tck page_size st pid = Ok st' ∧ small_state st'.
Proof.
  intros Hst. unfold sample_pid.
  destruct (read_stat os pid) as [[[[name ppid] cpu_ticks] rss_pages]|] eqn:Hread;
    [|by eexists].
  destruct Hos as [Hstat Hio].
  destruct (Hstat _ _ _ _ _ Hread) as [Hcpu Hrss].
  assert (∀ d, fst <$> read_io_counters os pid = Some d → small d) as Hd.
  { intros d. destruct (read_io_counters os pid) as [[d' x']|] eqn:E; [|done].
    intros [= <-]. by destruct (Hio _ _ _ E). }
  assert (∀ x, snd <$> read_io_counters os pid = Some x → small x) as Hx.
  { intros x. destruct (read_io_counters os pid) as [[d' x']|] eqn:E; [|done].
    intros [= <-]. by destruct (Hio _ _ _ E). }
  destruct (rates_ok (prev_by_pid st !! pid) now clk_tck cpu_ticks _ _ Hclk
              (Hst pid) Hcpu Hd Hx) as [[[c d] x] ->]. simpl.
  destruct (float_of_int_ok _ (small_abs _ Hrss)) as [rss ->]. simpl.
  eexists. split; [reflexivity|].
  intros pid' prev'. simpl. destruct (decide (pid = pid')) as [<-|Hne].
  - rewrite lookup_insert_eq. intros [= <-].
    by apply (next_prev_small _ _ _ _ _ (Hst pid)).
  - rewrite lookup_insert_ne by done. apply Hst.
Qed.

Lemma for_each_ok l : ∀ st,
  small_state st →
  ∃ st', for_each (sample_pid os now clk_tck page_size) l st = Ok st' ∧ small_state st'.
Proof.
  induction l as [|pid l IH]; intros st Hst; simpl; [by eexists|].
  destruct (sample_pid_ok st pid Hst) as (st1&->&Hst1). simpl. by apply IH.
Qed.

Lemma sample_once_ok st :
  small_state st →
  ∃ n st', sample_once os now clk_tck page_size st = Ok (n, st') ∧ small_state st'.
Proof.
  intros Hst. unfold sample_once. case_decide; [by eexists _, _|].
  destruct (for_each_ok (elements (pids_in_service_cgroup os)) st Hst) as (st'&->&Hst').
  simpl. by eexists _, _.
Qed.

End Totality.

(** A session raises nothing when the clock rate is not zero and every
    number read from the OS is of magnitude below [2 ^ 999]. *)
Lemma run_passes_ok clk_tck page_size passes : ∀ st,
  clk_tck ≠ 0 →
  Forall (λ pass : OS * float, small_os page_size pass.1) passes →
  small_state st →
  ∃ st', run_passes clk_tck page_size passes st = Ok st' ∧ small_state st'.
Proof.
  induction passes as [|pass passes IH]; intros st Hclk Hall Hst.
  - by exists st.
  - apply Forall_cons in Hall as [Hos Hall].
    destruct (sample_once_ok pass.1 pass.2 clk_tck page_size Hclk Hos st Hst)
      as (n&st1&H1&Hst1).
    destruct (IH st1 Hclk Hall Hst1) as (st'&H&Hst').
    exists st'. split; [|done]. apply run_passes_cons. eauto.
Qed.

(** * The claims *)

(** C1 as stated fails.  With the I/O read succeeding at t = 0
    (disk = 1000), failing at t = 1 and succeeding at t = 2 (disk = 1400),
    the disk rate of the pass at t = 2 is 400 bytes/sec, not 200: the pass
    at t = 1 kept the byte counts of t = 0 but refreshed the timestamp. *)
Lemma io_gap_rate_is_400 :
  disk_rate_after 100 4096 io_gap_session 100 = Some (fl 400) ∧
  disk_rate_after 100 4096 io_gap_session 100 ≠ Some (fl 200).
Proof.
  split.
  - vm_compute. reflexivity.
  - vm_compute. intros H. discriminate H.
Qed.

(** C1, amended.  After a pass whose I/O read failed, the disk rate of the
    next pass takes the byte delta against the last successful I/O
    snapshot and divides it by the time elapsed since the previous pass
    (the one whose I/O read failed): for disk = 1000 at t = 0, a failed
    I/O read at t = 1 and disk = 1400 at t = 2 it is
    [(1400 - 1000) / (2 - 1) = 400] bytes/sec. *)
Theorem io_gap_rate clk_tck page_size os0 t0 os1 t1 os2 t2 st0 n0 st1 n1 st2 n2 st3 pid
    D0 X0 D2 X2 :
  let dt := SF64sub t2 t1 in
  sample_once os0 t0 clk_tck page_size st0 = Ok (n0, st1) →
  sample_once os1 t1 clk_tck page_size st1 = Ok (n1, st2) →
  sample_once os2 t2 clk_tck page_size st2 = Ok (n2, st3) →
  read_ok pid (os0, t0) → read_ok pid (os1, t1) → read_ok pid (os2, t2) →
  read_io_counters os0 pid = Some (D0, X0) →
  read_io_counters os1 pid = None →
  read_io_counters os2 pid = Some (D2, X2) →
  float_gt dt zero = true → D0 ≤ D2 →
  ∃ f record2 record3,
    float_of_int (D2 - D0) = Ok f ∧
    stats_by_pid st2 !! pid = Some record2 ∧
    stats_by_pid st3 !! pid = Some record3 ∧
    ProcessStats.current_disk record3 = SF64div f dt ∧
    ProcessStats.disk record3 = add (ProcessStats.disk record2) (Some (SF64div f dt)).
Proof.
  intros dt Hp0 Hp1 Hp2 [Hin0 [[[[nm0 pp0] c0] r0] Hr0]] [Hin1 [[[[nm1 pp1] c1] r1] Hr1]]
    [Hin2 [[[[nm2 pp2] c2] r2] Hr2]] Hio0 Hio1 Hio2 Hgt Hle.
  simpl in *.
  destruct (sample_once_at _ _ _ _ _ _ _ _ _ _ _ _ Hp0 Hin0 Hr0) as (?&?&?&?&_&_&_&Hprev1).
  destruct (sample_once_at _ _ _ _ _ _ _ _ _ _ _ _ Hp1 Hin1 Hr1) as (?&?&?&?&_&_&Hst2&Hprev2).
  destruct (sample_once_at _ _ _ _ _ _ _ _ _ _ _ _ Hp2 Hin2 Hr2) as (cr&dr&xr&mr&Hr&_&Hst3&_).
  unfold disk_read, xfer_read in *.
  rewrite Hio0 in Hprev1. rewrite Hprev1, Hio1 in Hprev2. rewrite Hprev2, Hio2 in Hr.
  apply rates_elapsed_inv in Hr as (_&(f&Hf&->)&_); [|exact Hgt].
  simpl in Hf.
  destruct (float_of_int_signed _ _ Hf) as [Hs Hi].
  pose proof (clamp_rate _ _ (rate_signed _ _ _ Hs Hi Hgt)) as (_&Hc&_).
  specialize (Hc ltac:(lia)).
  rewrite Hst2 in Hst3.
  exists f. eexists _, _. split_and!; [exact Hf|exact Hst2|exact Hst3|..].
  - exact Hc.
  - exact (f_equal (λ v, add _ (Some v)) Hc).
Qed.

Lemma io_gap_rate_witness :
  ∃ record3,
    stats_by_pid (state_after 100 4096 io_gap_session) !! 100 = Some record3 ∧
    ProcessStats.current_disk record3 = fl 400.
Proof.
  destruct (io_gap_rate 100 4096 io_gap_pass0 (fl 0) io_gap_pass1 (fl 1) io_gap_pass2 (fl 2)
              empty_state 1
              (state_after 100 4096 (take 1 io_gap_session)) 1
              (state_after 100 4096 (take 2 io_gap_session)) 1
              (state_after 100 4096 io_gap_session)
              100 1000 5000 1400 5800)
    as (f&r2&r3&Hf&_&Hs3&Hd&_).
  - vm_compute. reflexivity.
  - vm_compute. reflexivity.
  - vm_compute. reflexivity.
  - split; [vm_compute; reflexivity|by eexists].
  - split; [vm_compute; reflexivity|by eexists].
  - split; [vm_compute; reflexivity|by eexists].
  - reflexivity.
  - reflexivity.
  - reflexivity.
  - vm_compute. reflexivity.
  - lia.
  - exists r3. split; [exact Hs3|]. rewrite Hd.
    assert (f = fl 400) as -> by (vm_compute in Hf; injection Hf as <-; reflexivity).
    vm_compute. reflexivity.
Defined.

(** C2 as stated fails.  A process first read as ["old"] with parent 1 and
    read again as ["new"] with parent 7 is still stored under the name
    ["old"] and the parent 1. *)
Lemma renamed_process_keeps_first_identity :
  ∃ record,
    record_after 100 4096 renamed_session 100 = Some record ∧
    ProcessStats.name record = "old"%string ∧
    ProcessStats.name record ≠ "new"%string ∧
    ProcessStats.ppid record = 1 ∧
    ProcessStats.ppid record ≠ 7.
Proof.
  eexists. split; [vm_compute; reflexivity|]. simpl. split_and!; done.
Qed.

(** C2, amended.  For every pid already present in the registry, a
    sampling pass leaves the stored [pid], [name], [ppid] and [first_seen]
    at their first-observed values; when the pid is read successfully the
    pass refreshes [last_seen] to [now]. *)
Theorem identity_kept os now clk_tck page_size st n st' pid record :
  sample_once os now clk_tck page_size st = Ok (n, st') →
  stats_by_pid st !! pid = Some record →
  ∃ record',
    stats_by_pid st' !! pid = Some record' ∧
    ProcessStats.pid record' = ProcessStats.pid record ∧
    ProcessStats.name record' = ProcessStats.name record ∧
    ProcessStats.ppid record' = ProcessStats.ppid record ∧
    ProcessStats.first_seen record' = ProcessStats.first_seen record ∧
    (read_ok pid (os, now) → ProcessStats.last_seen record' = now).
Proof.
  intros Hpass Hrec.
  destruct (decide (read_ok pid (os, now))) as [[Hin [[[[name ppid] cpu] rss] Hread]]|Hno].
  - simpl in *.
    destruct (sample_once_at _ _ _ _ _ _ _ _ _ _ _ _ Hpass Hin Hread)
      as (c&d&x&r&_&_&Hst&_).
    rewrite Hrec in Hst. eexists. split; [exact Hst|]. done.
  - assert (pid ∉ pids_in_service_cgroup os ∨ read_stat os pid = None) as Hun.
    { unfold read_ok in Hno. simpl in Hno.
      destruct (decide (pid ∈ pids_in_service_cgroup os)); [|by left].
      right. destruct (read_stat os pid) eqn:E; [|done].
      exfalso. apply Hno. eauto. }
    destruct (sample_once_unread _ _ _ _ _ _ _ _ Hpass Hun) as [E _].
    exists record. rewrite E. done.
Qed.

Lemma identity_kept_witness :
  ∃ record',
    stats_by_pid (state_after 100 4096 renamed_session) !! 100 = Some record' ∧
    ProcessStats.name record' = "old"%string ∧
    ProcessStats.ppid record' = 1 ∧
    ProcessStats.last_seen record' = fl 1.
Proof.
  destruct (identity_kept (one_process "new" 7 10 None) (fl 1) 100 4096
              (state_after 100 4096 (take 1 renamed_session)) 1
              (state_after 100 4096 renamed_session) 100
              (record_sample (ProcessStats.new 100 "old" 1 (fl 0) (fl 0)) None None None
                 (fl 40960)))
    as (record'&Hs&_&Hname&Hppid&_&Hseen).
  - vm_compute. reflexivity.
  - vm_compute. reflexivity.
  - exists record'. split_and!; [exact Hs|exact Hname|exact Hppid|].
    apply Hseen. split; [vm_compute; reflexivity|by eexists].
Defined.

(** C3. After a sampling pass in which the stat read of a tracked pid
    succeeded, the stored [PrevSample] of that pid has the timestamp and the
    CPU ticks of the current read in every case; its disk and transfer bytes
    are those of the current read when the I/O read produced them, and
    otherwise the previously stored ones, unchanged. *)
Theorem carry_forward os now clk_tck page_size st n st' pid name ppid cpu_ticks rss_pages :
  sample_once os now clk_tck page_size st = Ok (n, st') →
  pid ∈ pids_in_service_cgroup os →
  read_stat os pid = Some (name, ppid, cpu_ticks, rss_pages) →
  ∃ stored,
    prev_by_pid st' !! pid = Some stored ∧
    PrevSample.timestamp stored = now ∧
    PrevSample.cpu_ticks stored = cpu_ticks ∧
    match read_io_counters os pid with
    | Some (disk_total, xfer_total) =>
        PrevSample.disk_bytes stored = disk_total ∧
        PrevSample.xfer_bytes stored = xfer_total
    | None =>
        ∀ prev, prev_by_pid st !! pid = Some prev →
          PrevSample.disk_bytes stored = PrevSample.disk_bytes prev ∧
          PrevSample.xfer_bytes stored = PrevSample.xfer_bytes prev
    end.
Proof.
  intros Hpass Hin Hread.
  destruct (sample_once_at _ _ _ _ _ _ _ _ _ _ _ _ Hpass Hin Hread)
    as (c&d&x&r&_&_&_&Hprev).
  eexists. split; [exact Hprev|].
  unfold disk_read, xfer_read.
  destruct (read_io_counters os pid) as [[disk_total xfer_total]|]; simpl.
  - done.
  - split_and!; [by destruct (prev_by_pid st !! pid)..|].
    intros prev ->. done.
Qed.

Lemma carry_forward_witness :
  ∃ stored,
    prev_by_pid (state_after 100 4096 (take 2 io_gap_session)) !! 100 = Some stored ∧
    PrevSample.timestamp stored = fl 1 ∧
    PrevSample.cpu_ticks stored = 50 ∧
    PrevSample.disk_bytes stored = 1000 ∧
    PrevSample.xfer_bytes stored = 5000.
Proof.
  destruct (carry_forward io_gap_pass1 (fl 1) 100 4096
              (state_after 100 4096 (take 1 io_gap_session)) 1
              (state_after 100 4096 (take 2 io_gap_session))
              100 "proc" 1 50 10) as (stored&Hs&Ht&Hc&Hio).
  - vm_compute. reflexivity.
  - vm_compute. reflexivity.
  - reflexivity.
  - exists stored. split_and!; [done..| |].
    + by apply (Hio (PrevSample.mk 0 1000 5000 (fl 0))).
    + by apply (Hio (PrevSample.mk 0 1000 5000 (fl 0))).
Defined.

(** C4. When the first successful stat read of a pid falls on a pass whose
    I/O read fails, the stored [PrevSample] records [disk_bytes = 0] and
    [xfer_bytes = 0]; on the next pass, with [dt > 0] and an I/O read
    returning the totals [D] and [X], the computed rates are present and are
    [D / dt] and [X / dt]. *)
Theorem first_read_without_io clk_tck page_size os1 now1 os2 now2 st n1 st1 n2 st2 pid
    name1 ppid1 cpu1 rss1 name2 ppid2 cpu2 rss2 D X :
  let dt := SF64sub now2 now1 in
  prev_by_pid st !! pid = None →
  sample_once os1 now1 clk_tck page_size st = Ok (n1, st1) →
  pid ∈ pids_in_service_cgroup os1 →
  read_stat os1 pid = Some (name1, ppid1, cpu1, rss1) →
  read_io_counters os1 pid = None →
  sample_once os2 now2 clk_tck page_size st1 = Ok (n2, st2) →
  pid ∈ pids_in_service_cgroup os2 →
  read_stat os2 pid = Some (name2, ppid2, cpu2, rss2) →
  read_io_counters os2 pid = Some (D, X) →
  float_gt dt zero = true → 0 ≤ D → 0 ≤ X →
  prev_by_pid st1 !! pid = Some (PrevSample.mk cpu1 0 0 now1) ∧
  ∃ fD fX record1 record2,
    float_of_int D = Ok fD ∧ float_of_int X = Ok fX ∧
    stats_by_pid st1 !! pid = Some record1 ∧
    stats_by_pid st2 !! pid = Some record2 ∧
    ProcessStats.current_disk record2 = SF64div fD dt ∧
    ProcessStats.current_xfer record2 = SF64div fX dt ∧
    ProcessStats.disk record2 = add (ProcessStats.disk record1) (Some (SF64div fD dt)) ∧
    ProcessStats.xfer record2 = add (ProcessStats.xfer record1) (Some (SF64div fX dt)).
Proof.
  intros dt Hfirst Hpass1 Hin1 Hread1 Hio1 Hpass2 Hin2 Hread2 Hio2 Hgt HD HX.
  destruct (sample_once_at _ _ _ _ _ _ _ _ _ _ _ _ Hpass1 Hin1 Hread1)
    as (c1&d1&x1&r1&_&_&Hst1&Hprev1).
  unfold disk_read, xfer_read in Hprev1. rewrite Hfirst, Hio1 in Hprev1. simpl in Hprev1.
  split; [exact Hprev1|].
  destruct (sample_once_at _ _ _ _ _ _ _ _ _ _ _ _ Hpass2 Hin2 Hread2)
    as (c2&d2&x2&r2&Hr&_&Hst2&_).
  unfold disk_read, xfer_read in Hr. rewrite Hprev1, Hio2 in Hr. simpl in Hr.
  apply rates_elapsed_inv in Hr as (_&(fD&HfD&->)&(fX&HfX&->)); [|exact Hgt].
  simpl in HfD, HfX. rewrite Z.sub_0_r in HfD, HfX.
  destruct (float_of_int_signed _ _ HfD) as [HsD HiD].
  destruct (float_of_int_signed _ _ HfX) as [HsX HiX].
  pose proof (clamp_rate _ _ (rate_signed _ _ _ HsD HiD Hgt)) as (_&HcD&_).
  pose proof (clamp_rate _ _ (rate_signed _ _ _ HsX HiX Hgt)) as (_&HcX&_).
  specialize (HcD HD). specialize (HcX HX).
  rewrite Hst1 in Hst2.
  exists fD, fX. eexists _, _. split_and!; [done|done|exact Hst1|exact Hst2|..].
  - exact HcD.
  - exact HcX.
  - exact (f_equal (λ v, add _ (Some v)) HcD).
  - exact (f_equal (λ v, add _ (Some v)) HcX).
Qed.

Lemma first_read_without_io_witness :
  prev_by_pid (state_after 100 4096 [(io_gap_pass1, fl 1)]) !! 100
    = Some (PrevSample.mk 50 0 0 (fl 1)) ∧
  ∃ record2,
    stats_by_pid (state_after 100 4096 [(io_gap_pass1, fl 1); (io_gap_pass2, fl 2)]) !! 100
      = Some record2 ∧
    ProcessStats.current_disk record2 = fl 1400 ∧
    ProcessStats.current_xfer record2 = fl 5800.
Proof.
  destruct (first_read_without_io 100 4096 io_gap_pass1 (fl 1) io_gap_pass2 (fl 2)
              empty_state 1
              (state_after 100 4096 [(io_gap_pass1, fl 1)]) 1
              (state_after 100 4096 [(io_gap_pass1, fl 1); (io_gap_pass2, fl 2)])
              100 "proc" 1 50 10 "proc" 1 150 10 1400 5800)
    as (Hprev&fD&fX&r1&r2&HfD&HfX&_&Hs2&Hd&Hx&_).
  - reflexivity.
  - vm_compute. reflexivity.
  - vm_compute. reflexivity.
  - reflexivity.
  - reflexivity.
  - vm_compute. reflexivity.
  - vm_compute. reflexivity.
  - reflexivity.
  - reflexivity.
  - vm_compute. reflexivity.
  - lia.
  - lia.
  - split; [exact Hprev|]. exists r2. split; [exact Hs2|].
    rewrite Hd, Hx.
    assert (fD = fl 1400) as -> by (vm_compute in HfD; injection HfD as <-; reflexivity).
    assert (fX = fl 5800) as -> by (vm_compute in HfX; injection HfX as <-; reflexivity).
    split; vm_compute; reflexivity.
Defined.



(** C6 as stated fails.  After [add(nan)] on a fresh accumulator the count
    is 1 while the minimum is still [+inf] and the maximum [-inf], and
    neither [minimum <= nan] nor [nan <= maximum] holds. *)
Lemma nan_escapes_the_bounds : ¬ bounds_every_value [Some nan].
Proof.
  intros H. destruct (H ltac:(done) nan) as [Hmin _].
  - apply list_elem_of_singleton. reflexivity.
  - discriminate Hmin.
Qed.

(** C6, amended.  Every accumulator reachable from a fresh one by [add]
    operations satisfies: [count = 0] implies [minimum = +inf] and
    [maximum = -inf]; [count > 0] implies [minimum ≤ v ≤ maximum] for every
    value [v] added so far that is not NaN, and [total / count] is the mean
    of the added values (their left-to-right float sum over their number);
    and [add(None)] leaves the four fields unchanged. *)
Theorem accumulator_invariant (values : list (option float)) :
  let acc := feed values MetricAccumulator_new in
  (count acc = 0 → minimum acc = inf ∧ maximum acc = neg_inf) ∧
  (0 < count acc →
     (∀ v, v ∈ present values → is_nan v = false →
        float_le (minimum acc) v = true ∧ float_le v (maximum acc) = true) ∧
     float_div_int (total acc) (count acc) = arithmetic_mean (present values)) ∧
  add acc None = acc.
Proof.
  intros acc. subst acc. split_and!.
  - rewrite count_feed. simpl. intros Hc.
    assert (present values = []) as Hnil by (destruct (present values); [done|simpl in Hc; lia]).
    rewrite feed_present, Hnil. done.
  - intros _. split.
    + intros v Hv Hnan. split.
      * by apply (minimum_feed_le values MetricAccumulator_new).
      * by apply (maximum_feed_ge values MetricAccumulator_new).
    + unfold arithmetic_mean, fsum. rewrite count_feed, total_feed. simpl. done.
  - done.
Qed.

Lemma accumulator_invariant_witness :
  float_le (minimum (feed [Some tenth; None; Some three_tenths] MetricAccumulator_new)) tenth
    = true ∧
  float_le three_tenths
    (maximum (feed [Some tenth; None; Some three_tenths] MetricAccumulator_new)) = true ∧
  float_div_int (total (feed [Some tenth; None; Some three_tenths] MetricAccumulator_new)) 2
    = arithmetic_mean [tenth; three_tenths].
Proof.
  destruct (accumulator_invariant [Some tenth; None; Some three_tenths]) as (_&Hpos&_).
  destruct Hpos as [Hbounds Hmean]; [reflexivity|].
  split_and!.
  - apply Hbounds; [|reflexivity]. apply elem_of_cons. by left.
  - apply Hbounds; [|reflexivity]. apply elem_of_cons. right. apply elem_of_cons. by left.
  - exact Hmean.
Defined.

(** C7 as stated fails.  The stream 0.1, 0.2, 0.3 and its reversal give
    different means: the float sum is 0.6000000000000001 in one order and
    0.6 in the other. *)
Lemma mean_depends_on_order :
  [Some tenth; Some fifth; Some three_tenths] ≡ₚ [Some three_tenths; Some fifth; Some tenth] ∧
  ¬ summaries_agree
      (feed [Some tenth; Some fifth; Some three_tenths] MetricAccumulator_new)
      (feed [Some three_tenths; Some fifth; Some tenth] MetricAccumulator_new).
Proof.
  split.
  - apply (Permutation_rev [Some tenth; Some fifth; Some three_tenths]).
  - intros H. vm_compute in H. destruct H as (_&_&H). discriminate H.
Qed.

(** C7, amended.  For every finite stream of optional values and every
    permutation of it, feeding either order into a fresh accumulator gives
    the same minimum, the same maximum (as [==] compares them) and the same
    count; absent values change no field, in either order.  The mean is the
    left-to-right float sum over the count and is not promised to agree. *)
Theorem add_order_independent (l1 l2 : list (option float)) :
  l1 ≡ₚ l2 →
  let a1 := feed l1 MetricAccumulator_new in
  let a2 := feed l2 MetricAccumulator_new in
  float_eq (minimum a1) (minimum a2) = true ∧
  float_eq (maximum a1) (maximum a2) = true ∧
  count a1 = count a2 ∧
  a1 = feed (Some <$> present l1) MetricAccumulator_new ∧
  a2 = feed (Some <$> present l2) MetricAccumulator_new ∧
  (∀ acc, add acc None = acc).
Proof.
  intros Hperm a1 a2.
  destruct (feed_permutation l1 l2 Hperm MetricAccumulator_new MetricAccumulator_new
              (acc_same_refl _)) as (Hmin&Hmax&Hcount).
  split_and!.
  - apply same_eq; [exact Hmin|]. by apply minimum_feed_not_nan.
  - apply same_eq; [exact Hmax|]. by apply maximum_feed_not_nan.
  - exact Hcount.
  - apply feed_present.
  - apply feed_present.
  - done.
Qed.

Lemma add_order_independent_witness :
  float_eq (minimum (feed [Some tenth; None; Some zero; Some three_tenths] MetricAccumulator_new))
     (minimum (feed [Some three_tenths; Some zero; None; Some tenth] MetricAccumulator_new))
    = true ∧
  count (feed [Some tenth; None; Some zero; Some three_tenths] MetricAccumulator_new) = 3.
Proof.
  destruct (add_order_independent
              [Some tenth; None; Some zero; Some three_tenths]
              [Some three_tenths; Some zero; None; Some tenth])
    as (Hmin&_).
  - apply (Permutation_rev [Some tenth; None; Some zero; Some three_tenths]).
  - split; [exact Hmin|reflexivity].
Defined.

(** C8. For a pid observed for the first time (no stored previous
    snapshot) all three rate outputs are absent while the instantaneous
    memory value is present; hence a pid read successfully exactly once in
    a session ends with [count = 0] in its cpu, disk and xfer accumulators,
    each reporting [(0, 0, 0)], and with [count = 1] in its memory
    accumulator. *)
Theorem first_observation :
  (∀ os now clk_tck page_size st n st' pid name ppid cpu_ticks rss_pages,
     sample_once os now clk_tck page_size st = Ok (n, st') →
     pid ∈ pids_in_service_cgroup os →
     read_stat os pid = Some (name, ppid, cpu_ticks, rss_pages) →
     prev_by_pid st !! pid = None →
     rates (prev_by_pid st !! pid) now clk_tck cpu_ticks (disk_read os pid) (xfer_read os pid)
       = Ok (None, None, None) ∧
     ∃ rss record',
       float_of_int (rss_pages * page_size) = Ok rss ∧
       stats_by_pid st' !! pid = Some record' ∧
       ProcessStats.current_mem record' = rss ∧
       ProcessStats.mem record' =
         add (ProcessStats.mem (lookup_or_create (stats_by_pid st !! pid) pid name ppid now))
           (Some rss)) ∧
  (∀ clk_tck page_size passes st pid,
     run_passes clk_tck page_size passes empty_state = Ok st →
     times_read pid passes = 1%nat →
     ∃ record,
       stats_by_pid st !! pid = Some record ∧
       count (ProcessStats.cpu record) = 0 ∧
       count (ProcessStats.disk record) = 0 ∧
       count (ProcessStats.xfer record) = 0 ∧
       as_tuple (ProcessStats.cpu record) = Ok (zero, zero, zero) ∧
       as_tuple (ProcessStats.disk record) = Ok (zero, zero, zero) ∧
       as_tuple (ProcessStats.xfer record) = Ok (zero, zero, zero) ∧
       count (ProcessStats.mem record) = 1).
Proof.
  split.
  - intros os now clk_tck page_size st n st' pid name ppid cpu_ticks rss_pages
      Hpass Hin Hread Hprev.
    destruct (sample_once_at _ _ _ _ _ _ _ _ _ _ _ _ Hpass Hin Hread)
      as (c&d&x&r&Hr&Hf&Hst&_).
    rewrite Hprev in *. rewrite rates_first in Hr. simplify_eq.
    split; [done|]. exists r. eexists. split_and!; [done|exact Hst|done|done].
  - intros clk_tck page_size passes st pid Hrun Honce.
    destruct (session_read_once _ _ pid _ _ _ Hrun) as (name&ppid&now&rss&Hst); [done..|].
    eexists. split; [exact Hst|]. done.
Qed.

Lemma first_observation_witness :
  ∃ record,
    stats_by_pid (state_after 100 4096 [(no_process, fl 0); (io_gap_pass0, fl 1)]) !! 100
      = Some record ∧
    count (ProcessStats.cpu record) = 0 ∧
    as_tuple (ProcessStats.disk record) = Ok (zero, zero, zero) ∧
    count (ProcessStats.mem record) = 1.
Proof.
  destruct (proj2 first_observation 100 4096 [(no_process, fl 0); (io_gap_pass0, fl 1)]
              (state_after 100 4096 [(no_process, fl 0); (io_gap_pass0, fl 1)]) 100)
    as (record&Hs&Hc&_&_&_&Hd&_&Hm).
  - vm_compute. reflexivity.
  - vm_compute. reflexivity.
  - by exists record.
Defined.

(** C9. For a pid with a stored previous snapshot, when the elapsed time
    [dt = now - prev.timestamp] is [≤ 0] all three rate outputs of the pass
    are absent, and none of the cpu, disk and xfer accumulators of the pid
    receives a value in that pass. *)
Theorem no_rate_without_elapsed_time os now clk_tck page_size st n st' pid
    name ppid cpu_ticks rss_pages prev record :
  sample_once os now clk_tck page_size st = Ok (n, st') →
  pid ∈ pids_in_service_cgroup os →
  read_stat os pid = Some (name, ppid, cpu_ticks, rss_pages) →
  prev_by_pid st !! pid = Some prev →
  stats_by_pid st !! pid = Some record →
  float_le (SF64sub now (PrevSample.timestamp prev)) zero = true →
  rates (Some prev) now clk_tck cpu_ticks (disk_read os pid) (xfer_read os pid)
    = Ok (None, None, None) ∧
  ∃ record',
    stats_by_pid st' !! pid = Some record' ∧
    ProcessStats.cpu record' = ProcessStats.cpu record ∧
    ProcessStats.disk record' = ProcessStats.disk record ∧
    ProcessStats.xfer record' = ProcessStats.xfer record.
Proof.
  intros Hpass Hin Hread Hprev Hrec Hdt.
  pose proof (rates_no_elapsed prev now clk_tck cpu_ticks (disk_read os pid) (xfer_read os pid)
                (le_zero_not_gt _ Hdt)) as Hnone.
  split; [exact Hnone|].
  destruct (sample_once_at _ _ _ _ _ _ _ _ _ _ _ _ Hpass Hin Hread)
    as (c&d&x&r&Hr&_&Hst&_).
  rewrite Hprev, Hnone in Hr. rewrite Hrec in Hst. simplify_eq.
  eexists. split; [exact Hst|]. done.
Qed.

Lemma no_rate_without_elapsed_time_witness :
  ∃ record',
    stats_by_pid (state_after 100 4096 [(io_gap_pass0, fl 0); (io_gap_pass2, fl 0)]) !! 100
      = Some record' ∧
    count (ProcessStats.cpu record') = 0 ∧
    count (ProcessStats.disk record') = 0 ∧
    count (ProcessStats.xfer record') = 0.
Proof.
  destruct (no_rate_without_elapsed_time io_gap_pass2 (fl 0) 100 4096
              (state_after 100 4096 [(io_gap_pass0, fl 0)]) 1
              (state_after 100 4096 [(io_gap_pass0, fl 0); (io_gap_pass2, fl 0)])
              100 "proc" 1 150 10
              (PrevSample.mk 0 1000 5000 (fl 0))
              (record_sample (ProcessStats.new 100 "proc" 1 (fl 0) (fl 0)) None None None
                 (fl 40960)))
    as (_&record'&Hs&Hc&Hd&Hx).
  - vm_compute. reflexivity.
  - vm_compute. reflexivity.
  - reflexivity.
  - vm_compute. reflexivity.
  - vm_compute. reflexivity.
  - vm_compute. reflexivity.
  - exists record'. rewrite Hc, Hd, Hx. done.
Defined.



(** * Sessions, pid by pid *)

Lemma not_read_ok pid os now :
  ¬ read_ok pid (os, now) →
  pid ∉ pids_in_service_cgroup os ∨ read_stat os pid = None.
Proof.
  unfold read_ok. simpl. intros Hno.
  destruct (decide (pid ∈ pids_in_service_cgroup os)); [|by left].
  right. destruct (read_stat os pid) eqn:E; [|done].
  exfalso. apply Hno. eauto.
Qed.

Lemma times_read_cons pid pass passes :
  times_read pid (pass :: passes) =
    ((if decide (read_ok pid pass) then 1 else 0) + times_read pid passes)%nat.
Proof. unfold times_read. rewrite filter_cons. by destruct (decide _). Qed.

Lemma times_read_le pid passes : (times_read pid passes ≤ length passes)%nat.
Proof. unfold times_read. apply length_filter. Qed.

Lemma run_passes_app clk_tck page_size l1 l2 st st' :
  run_passes clk_tck page_size (l1 ++ l2) st = Ok st' ↔
  ∃ st1, run_passes clk_tck page_size l1 st = Ok st1 ∧
         run_passes clk_tck page_size l2 st1 = Ok st'.
Proof.
  revert st. induction l1 as [|pass l1 IH]; intros st; simpl.
  - split; [by exists st|]. by intros (st1&[= <-]&?).
  - rewrite !run_passes_cons. setoid_rewrite IH. split.
    + intros (n&s1&H1&s2&H2&H3). exists s2. split; [|done].
      apply run_passes_cons. eauto.
    + intros (s2&(n&s1&H1&H2)%run_passes_cons&H3). eauto 10.
Qed.

(** The keys of the two dictionaries after one pass. *)
Lemma pass_keys os now clk_tck page_size st n st' pid :
  sample_once os now clk_tck page_size st = Ok (n, st') →
  (is_Some (stats_by_pid st' !! pid) ↔
     is_Some (stats_by_pid st !! pid) ∨ read_ok pid (os, now)) ∧
  (is_Some (prev_by_pid st' !! pid) ↔
     is_Some (prev_by_pid st !! pid) ∨ read_ok pid (os, now)).
Proof.
  intros Hpass.
  destruct (decide (read_ok pid (os, now))) as [Hok|Hno].
  - destruct Hok as [Hin [[[[name ppid] cpu] rss] Hread]] eqn:E. simpl in *.
    destruct (sample_once_at _ _ _ _ _ _ _ _ _ _ _ _ Hpass Hin Hread)
      as (c&d&x&r&_&_&-> &->).
    split; split; eauto.
  - destruct (sample_once_unread _ _ _ _ _ _ _ _ Hpass (not_read_ok _ _ _ Hno)) as [-> ->].
    split; split; try tauto; by intros [?|?].
Qed.

Lemma run_passes_keys clk_tck page_size pid passes : ∀ st st',
  run_passes clk_tck page_size passes st = Ok st' →
  (is_Some (stats_by_pid st' !! pid) ↔
     is_Some (stats_by_pid st !! pid) ∨ (0 < times_read pid passes)%nat) ∧
  (is_Some (prev_by_pid st' !! pid) ↔
     is_Some (prev_by_pid st !! pid) ∨ (0 < times_read pid passes)%nat).
Proof.
  induction passes as [|[os now] passes IH]; intros st st' H.
  - unfold run_passes in H. simpl in H. simplify_eq.
    unfold times_read. simpl. split; (split; [tauto|]); intros [?|?]; [done|lia|done|lia].
  - apply run_passes_cons in H as (n&st1&H1&H). simpl in H1.
    destruct (IH _ _ H) as [IHs IHp].
    destruct (pass_keys _ _ _ _ _ _ _ pid H1) as [Hs Hp].
    rewrite times_read_cons, IHs, IHp, Hs, Hp.
    destruct (decide (read_ok pid (os, now))) as [Hok|Hno].
    + split; (split; [intros _; right; lia|tauto]).
    + simpl. split; tauto.
Qed.

(** A pid has a record at the end of a session exactly when some pass read
    it. *)
Lemma session_recorded clk_tck page_size passes st pid :
  run_passes clk_tck page_size passes empty_state = Ok st →
  is_Some (stats_by_pid st !! pid) ↔ (0 < times_read pid passes)%nat.
Proof.
  intros H. destruct (run_passes_keys _ _ pid _ _ _ H) as [Hs _].
  rewrite Hs. simpl. rewrite lookup_empty. split; [|tauto]. by intros [[? ?]|?].
Qed.

(** Induction over a session, for one pid: a property of the pid's two
    entries that holds at the start and is kept by every successful read
    holds at the end, indexed by the number of successful reads. *)
Lemma session_induction clk_tck page_size pid
    (P : nat → option ProcessStats → option PrevSample → Prop) :
  (∀ k os now name ppid cpu_ticks rss_pages record prev cpu_pct disk_bps xfer_bps rss,
     read_stat os pid = Some (name, ppid, cpu_ticks, rss_pages) →
     P k record prev →
     rates prev now clk_tck cpu_ticks (disk_read os pid) (xfer_read os pid)
       = Ok (cpu_pct, disk_bps, xfer_bps) →
     float_of_int (rss_pages * page_size) = Ok rss →
     P (S k)
       (Some (record_sample (lookup_or_create record pid name ppid now)
                cpu_pct disk_bps xfer_bps rss))
       (Some (next_prev prev now cpu_ticks (disk_read os pid) (xfer_read os pid)))) →
  ∀ passes k st st',
    run_passes clk_tck page_size passes st = Ok st' →
    P k (stats_by_pid st !! pid) (prev_by_pid st !! pid) →
    P (k + times_read pid passes)%nat (stats_by_pid st' !! pid) (prev_by_pid st' !! pid).
Proof.
  intros Hstep. induction passes as [|[os now] passes IH]; intros k st st' H HP.
  - unfold run_passes in H. simpl in H. simplify_eq.
    unfold times_read. simpl. by rewrite Nat.add_0_r.
  - apply run_passes_cons in H as (n&st1&H1&H). simpl in H1.
    rewrite times_read_cons.
    destruct (decide (read_ok pid (os, now))) as [[Hin [[[[name ppid] cpu] rss] Hread]]|Hno].
    + simpl in *.
      destruct (sample_once_at _ _ _ _ _ _ _ _ _ _ _ _ H1 Hin Hread)
        as (c&d&x&m&Hr&Hm&Hst&Hpv).
      replace (k + S (times_read pid passes))%nat with (S k + times_read pid passes)%nat
        by lia.
      apply (IH _ _ _ H). rewrite Hst, Hpv. by eapply Hstep.
    + destruct (sample_once_unread _ _ _ _ _ _ _ _ H1 (not_read_ok _ _ _ Hno)) as [E1 E2].
      simpl. apply (IH _ _ _ H). by rewrite E1, E2.
Qed.

Lemma count_add acc value : count (add acc value) = count acc + tally value.
Proof. destruct value; simpl; lia. Qed.

(** Which rates can be present together. *)
Lemma rates_shape prev now clk_tck cpu_ticks io cpu_pct disk_bps xfer_bps :
  rates prev now clk_tck cpu_ticks (fst <$> io) (snd <$> io)
    = Ok (cpu_pct, disk_bps, xfer_bps) →
  (prev = None → cpu_pct = None) ∧
  (is_Some disk_bps ↔ is_Some xfer_bps) ∧
  (is_Some disk_bps → is_Some cpu_pct).
Proof.
  intros H. destruct prev as [p|].
  2:{ rewrite rates_first in H. simplify_eq. split_and!; [done|done|]. by intros [? ?]. }
  destruct (float_gt (SF64sub now (PrevSample.timestamp p)) zero) eqn:Hgt.
  - apply rates_elapsed_inv in H as ((q&_&->)&Hd&Hx); [|done].
    destruct io as [[d x]|]; simpl in *.
    + destruct Hd as (?&_&->), Hx as (?&_&->). split_and!; [done|split; eauto|eauto].
    + subst. split_and!; [done|split|]; by intros [? ?].
  - rewrite rates_no_elapsed in H by done. simplify_eq.
    split_and!; [done|done|]. by intros [? ?].
Qed.

(** How many values the four accumulators of a pid hold when a session
    ends. *)
Lemma session_counts clk_tck page_size passes st pid record :
  run_passes clk_tck page_size passes empty_state = Ok st →
  stats_by_pid st !! pid = Some record →
  count (ProcessStats.mem record) = Z.of_nat (times_read pid passes) ∧
  count (ProcessStats.cpu record) + 1 ≤ count (ProcessStats.mem record) ∧
  count (ProcessStats.disk record) = count (ProcessStats.xfer record) ∧
  0 ≤ count (ProcessStats.disk record) ≤ count (ProcessStats.cpu record).
Proof.
  intros Hrun Hrec.
  set (P := λ (k : nat) (record : option ProcessStats) (prev : option PrevSample),
         (record = None → prev = None ∧ k = 0%nat) ∧
         ∀ r, record = Some r →
           count (ProcessStats.mem r) = Z.of_nat k ∧
           count (ProcessStats.cpu r) + 1 ≤ count (ProcessStats.mem r) ∧
           count (ProcessStats.disk r) = count (ProcessStats.xfer r) ∧
           0 ≤ count (ProcessStats.disk r) ≤ count (ProcessStats.cpu r)).
  assert (P (0 + times_read pid passes)%nat
            (stats_by_pid st !! pid) (prev_by_pid st !! pid)) as [_ Hfinal].
  { apply (session_induction clk_tck page_size pid P) with (st := empty_state);
      [|done|by split].
    clear. intros k os now name ppid cpu_ticks rss_pages record prev c d x rss
      Hread [Hnone Hrec] Hr _.
    split; [done|]. intros r [= <-]. unfold disk_read, xfer_read in Hr.
    apply rates_shape in Hr as (Hc&Hdx&Hdc).
    unfold record_sample. cbn [ProcessStats.mem ProcessStats.cpu ProcessStats.disk
                                 ProcessStats.xfer].
    rewrite !count_add.
    assert (tally d = tally x) as Edx.
    { destruct d, x; try done; [destruct (proj1 Hdx)|destruct (proj2 Hdx)]; eauto; done. }
    assert (tally d ≤ tally c ∧ 0 ≤ tally d ≤ 1 ∧ 0 ≤ tally c ≤ 1) as Edc.
    { destruct d, c; simpl; try lia. destruct Hdc; eauto; done. }
    destruct record as [r0|]; simpl.
    + destruct (Hrec r0 eq_refl) as (Hm&Hcm&Hd&Hd0). clear Hrec Hnone Hc Hdx Hdc.
      revert Edx Edc. generalize (tally c), (tally d), (tally x). intros. lia.
    + destruct (Hnone eq_refl) as [-> ->]. rewrite (Hc eq_refl) in *.
      clear Hrec Hnone Hc Hdx Hdc. cbn [tally] in *.
      revert Edx Edc. generalize (tally d), (tally x). intros. lia. }
  by apply Hfinal.
Qed.

Lemma next_prev_timestamp prev now cpu_ticks disk_total xfer_total :
  PrevSample.timestamp (next_prev prev now cpu_ticks disk_total xfer_total) = now.
Proof.
  unfold next_prev. destruct (_ || _); [done|]. by destruct prev.
Qed.

(** With an advancing clock every read after the first one yields a CPU
    rate, and a disk and a transfer rate when its I/O read succeeds. *)
Lemma run_passes_rate_counts clk_tck page_size pid passes : ∀ st st',
  run_passes clk_tck page_size passes st = Ok st' →
  advancing passes.*2 →
  (∀ prev, prev_by_pid st !! pid = Some prev →
     Forall (λ t', float_gt (SF64sub t' (PrevSample.timestamp prev)) zero = true) passes.*2) →
  let l := rated (prev_by_pid st !! pid) (reads pid passes) in
  count (cpu_of (stats_by_pid st' !! pid))
    = count (cpu_of (stats_by_pid st !! pid)) + Z.of_nat (length l) ∧
  count (disk_of (stats_by_pid st' !! pid))
    = count (disk_of (stats_by_pid st !! pid)) + Z.of_nat (length (with_io pid l)) ∧
  count (xfer_of (stats_by_pid st' !! pid))
    = count (xfer_of (stats_by_pid st !! pid)) + Z.of_nat (length (with_io pid l)).
Proof.
  induction passes as [|[os now] passes IH]; intros st st' H Hadv Hprev.
  - unfold run_passes in H. simpl in H. simplify_eq.
    unfold reads. simpl. destruct (prev_by_pid st' !! pid); simpl; lia.
  - apply run_passes_cons in H as (n&st1&H1&H). simpl in H1.
    destruct Hadv as [Hnow Hadv]. fold (advancing passes.*2) in Hadv.
    unfold reads. rewrite filter_cons. fold (reads pid passes).
    destruct (decide (read_ok pid (os, now)))
      as [[Hin [[[[name ppid] cpu] rss] Hread]]|Hno].
    + simpl in Hin, Hread.
      destruct (sample_once_at _ _ _ _ _ _ _ _ _ _ _ _ H1 Hin Hread)
        as (c&d&x&r&Hr&_&Hst&Hpv).
      specialize (IH _ _ H Hadv). rewrite Hpv, Hst in IH.
      destruct IH as (IHc&IHd&IHx).
      { intros prev' [= <-]. by rewrite next_prev_timestamp. }
      simpl in IHc, IHd, IHx. rewrite IHc, IHd, IHx. clear IHc IHd IHx.
      destruct (prev_by_pid st !! pid) as [prev|] eqn:Eprev.
      * specialize (Hprev prev eq_refl). apply Forall_cons in Hprev as [Hgt _]. simpl in Hgt.
        apply rates_elapsed_inv in Hr as ((q&_&->)&Hd&Hx); [|done].
        cbn [rated]. unfold with_io. rewrite filter_cons. fold (with_io pid (reads pid passes)).
        cbn [fst]. unfold disk_read, xfer_read in Hd, Hx.
        destruct (read_io_counters os pid) as [[dv xv]|] eqn:Eio; simpl in Hd, Hx.
        -- destruct Hd as (fd&_&->), Hx as (fx&_&->).
           rewrite decide_True by eauto.
           destruct (stats_by_pid st !! pid); simpl; lia.
        -- subst d x. rewrite decide_False by (by intros [? ?]).
           destruct (stats_by_pid st !! pid); simpl; lia.
      * rewrite rates_first in Hr. simplify_eq. cbn [rated drop]. rewrite drop_0.
        destruct (stats_by_pid st !! pid); simpl; lia.
    + destruct (sample_once_unread _ _ _ _ _ _ _ _ H1 (not_read_ok _ _ _ Hno)) as [Es Ep].
      specialize (IH _ _ H Hadv). rewrite Es, Ep in IH. apply IH.
      intros prev Eprev. specialize (Hprev prev Eprev).
      by apply Forall_cons in Hprev as [_ ?].
Qed.

(** The identity fields and [first_seen] of a stored record survive any
    further passes. *)
Lemma run_passes_identity clk_tck page_size pid passes : ∀ st st' record,
  run_passes clk_tck page_size passes st = Ok st' →
  stats_by_pid st !! pid = Some record →
  ∃ record',
    stats_by_pid st' !! pid = Some record' ∧
    ProcessStats.pid record' = ProcessStats.pid record ∧
    ProcessStats.name record' = ProcessStats.name record ∧
    ProcessStats.ppid record' = ProcessStats.ppid record ∧
    ProcessStats.first_seen record' = ProcessStats.first_seen record.
Proof.
  induction passes as [|[os now] passes IH]; intros st st' record H Hrec.
  - unfold run_passes in H. simpl in H. simplify_eq. by exists record.
  - apply run_passes_cons in H as (n&st1&H1&H). simpl in H1.
    assert (∃ r1, stats_by_pid st1 !! pid = Some r1 ∧
              ProcessStats.pid r1 = ProcessStats.pid record ∧
              ProcessStats.name r1 = ProcessStats.name record ∧
              ProcessStats.ppid r1 = ProcessStats.ppid record ∧
              ProcessStats.first_seen r1 = ProcessStats.first_seen record)
      as (r1&Hr1&E1&E2&E3&E4).
    { destruct (decide (read_ok pid (os, now)))
        as [[Hin [[[[name ppid] cpu] rss] Hread]]|Hno].
      - simpl in *.
        destruct (sample_once_at _ _ _ _ _ _ _ _ _ _ _ _ H1 Hin Hread)
          as (c&d&x&r&_&_&Hst&_).
        rewrite Hrec in Hst. eexists. split; [exact Hst|]. done.
      - destruct (sample_once_unread _ _ _ _ _ _ _ _ H1 (not_read_ok _ _ _ Hno)) as [E _].
        exists record. by rewrite E. }
    destruct (IH _ _ _ H Hr1) as (r'&Hr'&F1&F2&F3&F4).
    exists r'. split; [done|]. by rewrite F1, F2, F3, F4.
Qed.

(** What a pass, and a session, does to a pid depends only on what it shows
    about that pid. *)
Lemma pass_local os1 os2 now clk_tck page_size st1 st2 n1 n2 st1' st2' pid :
  sample_once os1 now clk_tck page_size st1 = Ok (n1, st1') →
  sample_once os2 now clk_tck page_size st2 = Ok (n2, st2') →
  agree_on pid (os1, now) (os2, now) →
  stats_by_pid st1 !! pid = stats_by_pid st2 !! pid →
  prev_by_pid st1 !! pid = prev_by_pid st2 !! pid →
  stats_by_pid st1' !! pid = stats_by_pid st2' !! pid ∧
  prev_by_pid st1' !! pid = prev_by_pid st2' !! pid.
Proof.
  intros H1 H2 (_&Hin&Hstat&Hio) Hs Hp. simpl in *.
  destruct (decide (read_ok pid (os1, now)))
    as [[Hin1 [[[[name ppid] cpu] rss] Hread]]|Hno].
  - simpl in *.
    destruct (sample_once_at _ _ _ _ _ _ _ _ _ _ _ _ H1 Hin1 Hread)
      as (c1&d1&x1&r1&Hr1&Hf1&-> &->).
    rewrite Hstat in Hread.
    destruct (sample_once_at _ _ _ _ _ _ _ _ _ _ _ _ H2 (proj1 Hin Hin1) Hread)
      as (c2&d2&x2&r2&Hr2&Hf2&-> &->).
    unfold disk_read, xfer_read in *. rewrite Hio, Hp in Hr1. rewrite Hr1 in Hr2.
    rewrite Hf1 in Hf2. simplify_eq. by rewrite Hio, Hp, Hs.
  - destruct (not_read_ok _ _ _ Hno) as [Hnotin|Hnone].
    + destruct (sample_once_unread _ _ _ _ _ _ _ _ H1 (or_introl Hnotin)) as [-> ->].
      destruct (sample_once_unread _ _ _ _ _ _ _ pid H2) as [-> ->]; [|done].
      left. by rewrite <- Hin.
    + destruct (sample_once_unread _ _ _ _ _ _ _ _ H1 (or_intror Hnone)) as [-> ->].
      destruct (sample_once_unread _ _ _ _ _ _ _ pid H2) as [-> ->]; [|done].
      right. by rewrite <- Hstat.
Qed.

Lemma run_passes_local clk_tck page_size pid passes1 passes2 :
  Forall2 (agree_on pid) passes1 passes2 → ∀ st1 st2 st1' st2',
  run_passes clk_tck page_size passes1 st1 = Ok st1' →
  run_passes clk_tck page_size passes2 st2 = Ok st2' →
  stats_by_pid st1 !! pid = stats_by_pid st2 !! pid →
  prev_by_pid st1 !! pid = prev_by_pid st2 !! pid →
  stats_by_pid st1' !! pid = stats_by_pid st2' !! pid ∧
  prev_by_pid st1' !! pid = prev_by_pid st2' !! pid.
Proof.
  induction 1 as [|[os1 t1] [os2 t2] l1 l2 Hagree _ IH]; intros st1 st2 st1' st2' H1 H2 Hs Hp.
  - unfold run_passes in H1, H2. simpl in H1, H2. by simplify_eq.
  - apply run_passes_cons in H1 as (n1&s1&Hp1&H1).
    apply run_passes_cons in H2 as (n2&s2&Hp2&H2). simpl in Hp1, Hp2.
    assert (t2 = t1) as -> by (destruct Hagree as [E _]; by simpl in E).
    destruct (pass_local _ _ _ _ _ _ _ _ _ _ _ pid Hp1 Hp2 Hagree Hs Hp) as [Hs' Hp'].
    by apply (IH _ _ _ _ H1 H2).
Qed.

Lemma rss_sample_read page_size pid os now name ppid cpu_ticks rss_pages rss :
  pid ∈ pids_in_service_cgroup os →
  read_stat os pid = Some (name, ppid, cpu_ticks, rss_pages) →
  float_of_int (rss_pages * page_size) = Ok rss →
  rss_sample page_size pid (os, now) = Some rss.
Proof. intros Hin Hread Hf. unfold rss_sample. simpl. by rewrite decide_True, Hread, Hf. Qed.

Lemma rss_sample_unread page_size pid pass :
  ¬ read_ok pid pass → rss_sample page_size pid pass = None.
Proof.
  intros Hno. unfold rss_sample. destruct pass as [os now].
  destruct (not_read_ok _ _ _ Hno) as [Hnotin|Hnone]; simpl in *.
  - by rewrite decide_False.
  - rewrite Hnone. by case_decide.
Qed.

Lemma run_passes_memory clk_tck page_size pid passes : ∀ st st',
  run_passes clk_tck page_size passes st = Ok st' →
  mem_of (stats_by_pid st' !! pid)
    = feed (rss_sample page_size pid <$> passes) (mem_of (stats_by_pid st !! pid)) ∧
  current_mem_of (stats_by_pid st' !! pid)
    = default (current_mem_of (stats_by_pid st !! pid))
        (last (present (rss_sample page_size pid <$> passes))) ∧
  length (present (rss_sample page_size pid <$> passes)) = times_read pid passes.
Proof.
  induction passes as [|[os now] passes IH]; intros st st' H.
  - unfold run_passes in H. simpl in H. by simplify_eq.
  - apply run_passes_cons in H as (n&st1&H1&H). simpl in H1.
    destruct (IH _ _ H) as (-> & -> & Hlen). clear IH H.
    rewrite fmap_cons, times_read_cons.
    destruct (decide (read_ok pid (os, now)))
      as [[Hin [[[[name ppid] cpu] rss] Hread]]|Hno].
    + simpl in *.
      destruct (sample_once_at _ _ _ _ _ _ _ _ _ _ _ _ H1 Hin Hread)
        as (c&d&x&r&_&Hf&Hst&_).
      rewrite (rss_sample_read _ _ _ _ _ _ _ _ _ Hin Hread Hf), Hst.
      unfold feed, present in *. simpl. split_and!.
      * f_equal. by destruct (stats_by_pid st !! pid).
      * rewrite last_cons. by destruct (last _).
      * by rewrite Hlen.
    + destruct (sample_once_unread _ _ _ _ _ _ _ _ H1 (not_read_ok _ _ _ Hno)) as [-> _].
      by rewrite (rss_sample_unread _ _ _ Hno).
Qed.

(** * Rates and reports that are never negative *)

Lemma signed_not_nan s x : signed s x → is_nan x = false.
Proof. by destruct x. Qed.

Lemma signed_false_ge x : signed false x → float_le zero x = true.
Proof. destruct x as [[]|[]| |[] m e]; simpl; done. Qed.

Lemma max_zero_signed x : signed false (Py.max zero x).
Proof. destruct x as [[]|[]| |[] m e]; simpl; done. Qed.

Lemma SF64add_nonneg x y : signed false x → signed false y → signed false (SF64add x y).
Proof.
  destruct x as [[]|[]| |[] mx ex], y as [[]|[]| |[] my ey]; simpl; try done.
  intros _ _. unfold binary_round. destruct (shl_align _ _ _).
  by apply binary_round_aux_signed.
Qed.

(** Any number over a finite non-zero divisor: the signs combine. *)
Lemma SF64div_by_finite sx sy x y :
  signed sx x → signed sy y → is_inf y = false → is_zero y = false →
  signed (xorb sx sy) (SF64div x y).
Proof.
  intros Hx Hy Hiy Hzy.
  destruct (is_inf x) eqn:Hix; [|by apply SF64div_signed].
  destruct x as [s1|s1| |s1 m1 e1], y as [s2|s2| |s2 m2 e2]; simpl in *; try done.
  by subst.
Qed.

Lemma clamp_signed rate v : clamp rate = Some v → signed false v.
Proof. destruct rate as [r|]; simpl; [|done]. intros [= <-]. apply max_zero_signed. Qed.

Lemma rates_signed prev now clk_tck cpu_ticks disk_total xfer_total cpu_pct disk_bps xfer_bps :
  rates prev now clk_tck cpu_ticks disk_total xfer_total = Ok (cpu_pct, disk_bps, xfer_bps) →
  (∀ v, cpu_pct = Some v → signed false v) ∧
  (∀ v, disk_bps = Some v → signed false v) ∧
  (∀ v, xfer_bps = Some v → signed false v).
Proof.
  unfold rates. intros H. apply bind_Ok in H as ([[c d] x]&_&H). simplify_eq.
  split_and!; intros v Hv; by apply clamp_signed in Hv.
Qed.

Lemma nonneg_acc_new : nonneg_acc MetricAccumulator_new.
Proof. unfold nonneg_acc. simpl. split_and!; done. Qed.

Lemma nonneg_acc_add acc value :
  nonneg_acc acc → (∀ v, value = Some v → signed false v) → nonneg_acc (add acc value).
Proof.
  intros (Hc&Ht&Hmin&Hzero&Hpos) Hv. destruct value as [v|]; [|done].
  specialize (Hv v eq_refl).
  pose proof (signed_not_nan _ _ Hv) as Hvn.
  pose proof (signed_not_nan _ _ Hmin) as Hmn.
  rewrite add_Some. unfold nonneg_acc. simpl.
  assert (signed false (fmin (minimum acc) v)) as Hmin'.
  { unfold fmin. by destruct (float_lt v (minimum acc)). }
  split_and!; [lia|by apply SF64add_nonneg|done|lia|]. intros _.
  destruct (Z.eq_dec (count acc) 0) as [H0|H0].
  - rewrite (Hzero H0).
    assert (fmax neg_inf v = v) as -> by (by destruct v as [[]|[]| |[] m e]).
    split; [done|]. by apply fmin_le_new.
  - destruct Hpos as [Hmax Hle]; [lia|].
    pose proof (signed_not_nan _ _ Hmax) as HMn.
    split.
    + unfold fmax. by destruct (float_gt v (maximum acc)).
    + eapply float_le_trans; [by apply fmin_le_old|].
      eapply float_le_trans; [exact Hle|]. by apply fmax_ge_old.
Qed.

(** What [as_tuple] reports for such an accumulator. *)
Lemma nonneg_acc_as_tuple acc lo hi avg :
  nonneg_acc acc → as_tuple acc = Ok (lo, hi, avg) →
  float_le zero lo = true ∧ float_le lo hi = true ∧ float_le zero avg = true.
Proof.
  intros (Hc&Ht&Hmin&Hzero&Hpos). unfold as_tuple.
  destruct (Z.eqb_spec (count acc) 0) as [H0|H0]; [by intros [= <- <- <-]|].
  intros H. apply bind_Ok in H as (a&Ha&H). simplify_eq.
  destruct Hpos as [Hmax Hle]; [lia|].
  split_and!; [by apply signed_false_ge|done|].
  unfold float_div_int in Ha. apply bind_Ok in Ha as (y&Hy&Ha).
  unfold float_truediv in Ha. destruct (float_eq y zero) eqn:Hyz; [done|]. simplify_eq.
  destruct (float_of_int_signed _ _ Hy) as [Hs Hi].
  replace (count acc <? 0) with false in Hs by (symmetry; apply Z.ltb_ge; lia).
  apply signed_false_ge.
  apply (SF64div_by_finite false false); [done|done|done|].
  by destruct y as [[]|[]| |[] m e].
Qed.

(** * The report *)

#[global] Instance pid_le_trans : Transitive pid_le.
Proof. intros a b c. unfold pid_le. lia. Qed.

#[global] Instance pid_le_total : Total pid_le.
Proof. intros a b. unfold pid_le. lia. Qed.

Lemma map_result_Ok {A B} (f : A → result B) l : ∀ ys,
  map_result f l = Ok ys → Forall2 (λ x y, f x = Ok y) l ys.
Proof.
  induction l as [|x l IH]; intros ys H; simpl in H.
  - simplify_eq. constructor.
  - apply bind_Ok in H as (y&Hy&H). apply bind_Ok in H as (ys'&Hys&H). simplify_eq.
    constructor; auto.
Qed.

Lemma map_result_ok {A B} (f : A → result B) l :
  Forall (λ x, ∃ y, f x = Ok y) l → ∃ ys, map_result f l = Ok ys.
Proof.
  induction 1 as [|x l [y Hy] _ [ys Hys]]; simpl; [by eexists|].
  rewrite Hy. simpl. rewrite Hys. by eexists.
Qed.

Lemma report_row_pid entry row : report_row entry = Ok row → row_pid row = entry.1.
Proof.
  destruct entry as [pid rec]. unfold report_row. intros H.
  apply bind_Ok in H as (c&_&H).
  apply bind_Ok in H as ([[m1 m2] m3]&_&H).
  apply bind_Ok in H as (a&_&H).
  apply bind_Ok in H as (b&_&H).
  apply bind_Ok in H as (e&_&H).
  apply bind_Ok in H as (d&_&H).
  apply bind_Ok in H as (x&_&H). by simplify_eq.
Qed.

Lemma report_rows_pids entries rows :
  map_result report_row entries = Ok rows → row_pid <$> rows = entries.*1.
Proof.
  intros H%map_result_Ok. induction H as [|e r es rs Hr _ IH]; [done|].
  simpl. f_equal; [by apply report_row_pid|done].
Qed.

Lemma sorted_pids_strict (l : list (Z * ProcessStats)) :
  StronglySorted pid_le l → NoDup l.*1 → StronglySorted Z.lt l.*1.
Proof.
  induction 1 as [|e l _ IH Hall]; intros Hnd; [constructor|].
  simpl in *. apply NoDup_cons in Hnd as [Hnotin Hnd].
  constructor; [by apply IH|].
  apply Forall_fmap, Forall_forall. intros e' Hin.
  rewrite Forall_forall in Hall. specialize (Hall _ Hin). unfold pid_le in Hall.
  simpl. destruct (decide (e.1 = e'.1)) as [E|]; [|lia].
  exfalso. apply Hnotin. rewrite E. apply list_elem_of_fmap. eauto.
Qed.

(** [sorted(stats_by_pid)]: the keys, each once, in ascending order. *)
Lemma sorted_items_pids stats :
  StronglySorted Z.lt (sorted_items stats).*1 ∧
  ∀ pid, pid ∈ (sorted_items stats).*1 ↔ is_Some (stats !! pid).
Proof.
  unfold sorted_items.
  pose proof (merge_sort_Permutation pid_le (map_to_list stats)) as Hperm.
  split.
  - apply sorted_pids_strict; [apply (StronglySorted_merge_sort pid_le)|].
    rewrite Hperm. apply NoDup_fst_map_to_list.
  - intros pid. rewrite Hperm. rewrite list_elem_of_fmap. split.
    + intros ([p r]&->&Hin). apply elem_of_map_to_list in Hin. simpl. eauto.
    + intros [r Hr]. exists (pid, r). split; [done|]. by apply elem_of_map_to_list.
Qed.

(** ** The report raises nothing *)

Lemma Zdigits2_mono a b : 0 ≤ a ≤ b → Zdigits2 a ≤ Zdigits2 b.
Proof.
  intros [Ha Hab]. apply Zdigits2_le; [apply Zdigits2_nonneg|].
  pose proof (Zdigits2_gt b ltac:(lia)). lia.
Qed.

Lemma Zdigits2_pos n : 0 < n → 1 ≤ Zdigits2 n.
Proof. destruct n; simpl; lia. Qed.

Lemma round_nearest_even_ge m l : m ≤ round_nearest_even m l.
Proof. destruct l as [|[]]; simpl; try lia. destruct (Z.even m); lia. Qed.

(** Rounding a positive mantissa far above the subnormal range never gives
    a zero. *)
Lemma binary_round_aux_nonzero s m e l :
  0 < m → -1000 ≤ Zdigits2 m + e →
  is_zero (binary_round_aux prec emax s m e l) = false.
Proof.
  intros Hm Hd. unfold binary_round_aux.
  pose proof (Zdigits2_pos m Hm) as Hdm.
  pose proof (shr_fexp_spec m e l ltac:(lia)) as H1.
  destruct (shr_fexp prec emax m e l) as [mrs' e']. destruct H1 as (He'&Hm'&Hd').
  pose proof (round_nearest_even_ge (shr_m mrs') (loc_of_shr_record mrs')) as Hge.
  pose proof (Zdigits2_mono _ _ (conj Hm' Hge)) as Hmono.
  pose proof (shr_fexp_spec (round_nearest_even (shr_m mrs') (loc_of_shr_record mrs')) e'
                loc_Exact ltac:(lia)) as H2.
  destruct (shr_fexp prec emax _ e' loc_Exact) as [mrs'' e'']. destruct H2 as (He''&Hm''&Hd'').
  assert (1 ≤ Zdigits2 (shr_m mrs'')) as Hpos.
  { unfold fexp, SpecFloat.emin, prec, emax in *. lia. }
  destruct (shr_m mrs'') as [|q|q]; [simpl in Hpos; lia| |lia].
  by destruct (e'' <=? emax - prec).
Qed.

(** [float(n)] is not zero for [n ≠ 0]. *)
Lemma float_of_int_nonzero n f : n ≠ 0 → float_of_int n = Ok f → float_eq f zero = false.
Proof.
  intros Hn. unfold float_of_int.
  enough (is_zero (binary_normalize prec emax n 0 false) = false) as Hnz.
  { destruct (binary_normalize prec emax n 0 false) as [|[]| |[] m e];
      intros; by simplify_eq. }
  assert (∀ s m, is_zero (binary_round prec emax s m 0) = false) as Hround.
  { intros s m. unfold binary_round, shl_align.
    destruct (fexp prec emax (Z.pos (digits2_pos m) + 0) - 0) as [|d|d] eqn:E;
      apply binary_round_aux_nonzero; simpl; rewrite ?digits2_pos_iter_xO;
      unfold fexp, SpecFloat.emin, prec, emax in *; lia. }
  destruct n as [|m|m]; simpl; [done|apply Hround|apply Hround].
Qed.

Lemma as_tuple_ok acc : Z.abs (count acc) < 2 ^ 1000 → ∃ t, as_tuple acc = Ok t.
Proof.
  intros Hc. unfold as_tuple. destruct (Z.eqb_spec (count acc) 0) as [|Hne]; [by eexists|].
  unfold float_div_int. destruct (float_of_int_ok _ Hc) as [y Hy]. rewrite Hy. simpl.
  unfold float_truediv. rewrite (float_of_int_nonzero _ _ Hne Hy). by eexists.
Qed.

Lemma Ok_bind {A B} (a : A) (k : A → result B) : Ok a ≫= k = k a.
Proof. done. Qed.

(** The division by [1024 * 1024] raises nothing. *)
Lemma float_div_mib x : ∃ y, float_div_int x (1024 * 1024) = Ok y.
Proof.
  unfold float_div_int.
  destruct (float_of_int (1024 * 1024)) as [y|] eqn:E; [|by vm_compute in E].
  cbn [Py.bind]. unfold float_truediv.
  rewrite (float_of_int_nonzero (1024 * 1024) _ ltac:(lia) E). by eexists.
Qed.

Lemma report_row_ok pid rec :
  Z.abs (count (ProcessStats.cpu rec)) < 2 ^ 1000 →
  Z.abs (count (ProcessStats.mem rec)) < 2 ^ 1000 →
  Z.abs (count (ProcessStats.disk rec)) < 2 ^ 1000 →
  Z.abs (count (ProcessStats.xfer rec)) < 2 ^ 1000 →
  ∃ row, report_row (pid, rec) = Ok row.
Proof.
  intros Hc Hm Hd Hx. unfold report_row.
  destruct (as_tuple_ok _ Hc) as [c ->].
  destruct (as_tuple_ok _ Hm) as [[[m1 m2] m3] ->].
  destruct (as_tuple_ok _ Hd) as [d ->].
  destruct (as_tuple_ok _ Hx) as [x ->].
  rewrite !Ok_bind.
  destruct (float_div_mib m1) as [a ->].
  destruct (float_div_mib m2) as [b ->].
  destruct (float_div_mib m3) as [e ->].
  rewrite !Ok_bind. by eexists.
Qed.

(** The concrete OSes read small numbers only. *)
Lemma one_process_small page_size name ppid cpu_ticks io :
  small cpu_ticks → small (10 * page_size) →
  (∀ d x, io = Some (d, x) → small d ∧ small x) →
  small_os page_size (one_process name ppid cpu_ticks io).
Proof.
  intros Hcpu Hrss Hio. split.
  - intros pid name' ppid' cpu' rss'. simpl. case_decide; [|done]. by intros [= <- <- <- <-].
  - intros pid d x. simpl. case_decide; [|done]. apply Hio.
Qed.

(** * The text of the files *)

Ltac flatten_app := repeat first [rewrite <- app_assoc | progress simpl]; done.

Lemma lstrip_token c s : Str.isspace c = false → Str.lstrip (c :: s) = c :: s.
Proof. intros H. simpl. by rewrite H. Qed.

Lemma lstrip_spaces ws s :
  Forall (λ c, Str.isspace c = true) ws → Str.lstrip (ws ++ s) = Str.lstrip s.
Proof. induction 1 as [|c ws Hc _ IH]; simpl; [done|by rewrite Hc]. Qed.

Lemma rstrip_spaces s ws :
  Forall (λ c, Str.isspace c = true) ws → Str.rstrip (s ++ ws) = Str.rstrip s.
Proof.
  intros H. unfold Str.rstrip. rewrite reverse_app, lstrip_spaces; [done|].
  by apply Forall_reverse.
Qed.

Lemma rstrip_token s c : Str.isspace c = false → Str.rstrip (s ++ [c]) = s ++ [c].
Proof.
  intros H. unfold Str.rstrip. rewrite reverse_app, reverse_singleton.
  change ([c] ++ reverse s) with (c :: reverse s).
  rewrite lstrip_token by done. by rewrite reverse_cons, reverse_involutive.
Qed.

(** [strip] removes exactly the trailing whitespace of a text that begins
    and ends with other characters. *)
Lemma strip_framed x a c trailer :
  Str.isspace x = false → Str.isspace c = false →
  Forall (λ c, Str.isspace c = true) trailer →
  Str.strip (x :: a ++ c :: trailer) = x :: a ++ [c].
Proof.
  intros Hx Hc Htrailer. unfold Str.strip. rewrite lstrip_token by done.
  replace (x :: a ++ c :: trailer) with (((x :: a) ++ [c]) ++ trailer)
    by (by rewrite <- app_assoc).
  rewrite rstrip_spaces by done. by rewrite rstrip_token.
Qed.

Lemma split_token w rest :
  token w → (rest = [] ∨ ∃ c r, rest = c :: r ∧ Str.isspace c = true) →
  Str.split (w ++ rest) = w :: Str.split rest.
Proof.
  intros [Hne Hw] Hrest. induction Hw as [|c w Hc Hw IH]; [done|].
  destruct w as [|c2 w].
  - simpl. rewrite Hc. destruct Hrest as [->|(c'&r&->&Hc')]; [done|]. by rewrite Hc'.
  - rewrite <- !app_comm_cons. apply Forall_cons in Hw as Hw'. destruct Hw' as [Hc2 _].
    change (Str.split (c :: c2 :: w ++ rest)) with
      (if Str.isspace c then Str.split (c2 :: w ++ rest)
       else if Str.isspace c2 then [c] :: Str.split (c2 :: w ++ rest)
            else match Str.split (c2 :: w ++ rest) with
                 | word :: words => (c :: word) :: words
                 | [] => [[c]]
                 end).
    rewrite Hc, Hc2. rewrite app_comm_cons, IH by done. done.
Qed.

(** Splitting the joined fields gives the fields back. *)
Lemma split_join fields :
  Forall token fields → Str.split (join_sp fields) = fields.
Proof.
  induction 1 as [|f fields Hf Hfs IH]; [done|].
  destruct fields as [|f2 fields].
  - simpl. rewrite <- (app_nil_r f) at 1. rewrite split_token by auto. done.
  - change (join_sp (f :: f2 :: fields)) with (f ++ 32%N :: join_sp (f2 :: fields)).
    rewrite split_token; [|done|right; by eexists _, _].
    change (Str.split (32%N :: ?s)) with (Str.split s). by rewrite IH.
Qed.

Lemma join_sp_notin c fields :
  c ≠ 32%N → Forall (λ f, c ∉ f) fields → c ∉ join_sp fields.
Proof.
  intros Hc. induction 1 as [|f fields Hf _ IH]; [apply not_elem_of_nil|].
  destruct fields as [|f2 fields]; [done|].
  change (join_sp (f :: f2 :: fields)) with (f ++ 32%N :: join_sp (f2 :: fields)).
  intros Hin. apply elem_of_app in Hin as [?|Hin]; [done|].
  apply elem_of_cons in Hin as [?|?]; [done|]. by apply IH.
Qed.

Lemma join_sp_last fields :
  Forall token fields → fields ≠ [] →
  ∃ s c, join_sp fields = s ++ [c] ∧ Str.isspace c = false.
Proof.
  induction 1 as [|f fields Hf _ IH]; intros Hne; [done|].
  destruct fields as [|f2 fields].
  - destruct Hf as [Hf Hall]. simpl.
    destruct (exists_last Hf) as (s&c&->). exists s, c. split; [done|].
    apply Forall_app in Hall as [_ Hc]. exact (Forall_inv Hc).
  - destruct IH as (s&c&E&Hc); [done|].
    change (join_sp (f :: f2 :: fields)) with (f ++ 32%N :: join_sp (f2 :: fields)).
    rewrite E. exists (f ++ 32%N :: s), c. split; [|done].
    by rewrite <- app_assoc.
Qed.

Lemma stat_line_eq pid_txt name fields :
  stat_line pid_txt name fields
    = pid_txt ++ 32%N :: 40%N :: name ++ 41%N :: 32%N :: join_sp fields.
Proof. reflexivity. Qed.

Lemma find_app s c rest : c ∉ s → Str.find (s ++ c :: rest) c = Z.of_nat (length s).
Proof.
  induction s as [|c' s IH]; intros Hnotin; simpl.
  - by rewrite N.eqb_refl.
  - apply not_elem_of_cons in Hnotin as [Hne Hnotin].
    rewrite (proj2 (N.eqb_neq c' c)) by done.
    rewrite IH by done. destruct (Z.eqb_spec (Z.of_nat (length s)) (-1)); lia.
Qed.

Lemma rfind_notin s c : c ∉ s → Str.rfind s c = -1.
Proof.
  induction s as [|c' s IH]; intros Hnotin; simpl; [done|].
  apply not_elem_of_cons in Hnotin as [Hne Hnotin].
  rewrite IH by done. simpl. by rewrite (proj2 (N.eqb_neq c' c)).
Qed.

Lemma rfind_app s c rest : c ∉ rest → Str.rfind (s ++ c :: rest) c = Z.of_nat (length s).
Proof.
  intros Hnotin. induction s as [|c' s IH]; simpl.
  - rewrite rfind_notin by done. simpl. by rewrite N.eqb_refl.
  - rewrite IH. destruct (Z.eqb_spec (Z.of_nat (length s)) (-1)); lia.
Qed.

Lemma lstrip_char_head c s : Str.startswith (Str.lstrip_char c s) [c] = false.
Proof.
  induction s as [|c' s IH]; simpl; [done|].
  destruct (N.eqb_spec c' c) as [->|Hne]; [done|].
  simpl. by rewrite (proj2 (N.eqb_neq c' c) Hne).
Qed.

Lemma lstrip_char_nil c s : Str.lstrip_char c s = [] ↔ Forall (λ c', c' = c) s.
Proof.
  induction s as [|c' s IH]; simpl; [done|].
  destruct (N.eqb_spec c' c) as [->|Hne].
  - rewrite IH. split; [by constructor|]. by intros [_ ?]%Forall_cons.
  - split; [done|]. by intros [? _]%Forall_cons.
Qed.

Section Readers.
Context (py_int : text → option Z).

(** [read_stat] on a text whose stripped form is [head (name) rest], with
    no opening parenthesis in [head] and no closing one in [rest]: the name
    is [name], and the fields are those of [rest] after its first
    character. *)
Lemma read_stat_shape contents head name rest :
  Str.strip contents = head ++ 40%N :: name ++ 41%N :: rest →
  40%N ∉ head → 41%N ∉ rest →
  Parse.read_stat py_int (Some contents) =
    let tail := Str.split (drop 1 rest) in
    if bool_decide (length tail < 22)%nat then None
    else
      ppid ← py_int (nth 1 tail []);
      utime ← py_int (nth 11 tail []);
      stime ← py_int (nth 12 tail []);
      rss_pages ← py_int (nth 21 tail []);
      Some (name, ppid, utime + stime, rss_pages).
Proof.
  intros Hraw Hhead Hrest. unfold Parse.read_stat. rewrite Hraw.
  rewrite find_app by done.
  replace (head ++ 40%N :: name ++ 41%N :: rest) with ((head ++ 40%N :: name) ++ 41%N :: rest)
    by (by rewrite <- app_assoc).
  rewrite rfind_app by done. rewrite length_app. simpl.
  rewrite bool_decide_false by lia.
  assert (Str.slice ((head ++ 40%N :: name) ++ 41%N :: rest)
            (Z.of_nat (length head) + 1) (Z.of_nat (length head + S (length name))) = name) as ->.
  { unfold Str.slice.
    replace (Z.to_nat (Z.of_nat (length head) + 1)) with (length (head ++ [40%N]))
      by (rewrite length_app; simpl; lia).
    replace (Z.to_nat (Z.of_nat (length head + S (length name))) - length (head ++ [40%N]))%nat
      with (length name) by (rewrite length_app; simpl; lia).
    replace ((head ++ 40%N :: name) ++ 41%N :: rest)
      with ((head ++ [40%N]) ++ name ++ 41%N :: rest)
      by (by rewrite <- !app_assoc).
    rewrite drop_app_length. by rewrite take_app_length. }
  assert (Str.slice_from ((head ++ 40%N :: name) ++ 41%N :: rest)
            (Z.of_nat (length head + S (length name)) + 2) = drop 1 rest) as ->.
  { unfold Str.slice_from.
    replace (Z.to_nat (Z.of_nat (length head + S (length name)) + 2))
      with (length ((head ++ 40%N :: name) ++ [41%N]) + 1)%nat
      by (rewrite !length_app; simpl; lia).
    replace ((head ++ 40%N :: name) ++ 41%N :: rest)
      with (((head ++ 40%N :: name) ++ [41%N]) ++ rest)
      by (by rewrite <- !app_assoc).
    by rewrite drop_app_add'. }
  done.
Qed.

Lemma second_field_inr line n :
  Parse.second_field py_int line = inr n ↔ field_value py_int line = Some n.
Proof.
  unfold Parse.second_field, field_value.
  destruct (Str.split line) as [|w [|field ws]]; [done..|].
  destruct (py_int field); split; intros; by simplify_eq.
Qed.

(** One iteration of the loop of [read_io_counters]. *)
Lemma sum_counters_cons line lines d x :
  Parse.sum_counters py_int (line :: lines) d x =
    if disk_line line then
      match Parse.second_field py_int line with
      | inr n => Parse.sum_counters py_int lines (d + n) x
      | inl e => inl e
      end
    else if xfer_line line then
      match Parse.second_field py_int line with
      | inr n => Parse.sum_counters py_int lines d (x + n)
      | inl e => inl e
      end
    else Parse.sum_counters py_int lines d x.
Proof.
  unfold xfer_line, disk_line.
  change (Parse.sum_counters py_int (line :: lines) d x) with
    (if Str.startswith line (text_of "read_bytes:")
        || Str.startswith line (text_of "write_bytes:") then
       match Parse.second_field py_int line with
       | inr n => Parse.sum_counters py_int lines (d + n) x
       | inl e => inl e
       end
     else if Str.startswith line (text_of "rchar:")
             || Str.startswith line (text_of "wchar:") then
       match Parse.second_field py_int line with
       | inr n => Parse.sum_counters py_int lines d (x + n)
       | inl e => inl e
       end
     else Parse.sum_counters py_int lines d x).
  by destruct (_ || _).
Qed.

(** The loop ends normally exactly when every counted line has an integer
    in its second field; the totals are then the two sums. *)
Lemma sum_counters_inr lines : ∀ d x t,
  Parse.sum_counters py_int lines d x = inr t ↔
  Forall (λ line, counted line → is_Some (field_value py_int line)) lines ∧
  t = (d + sum_fields py_int disk_line lines, x + sum_fields py_int xfer_line lines).
Proof.
  induction lines as [|line lines IH]; intros d x t.
  - simpl. rewrite !Z.add_0_r. split; [intros [= <-]; by split|intros [_ ->]; done].
  - rewrite sum_counters_cons, Forall_cons. unfold counted at 1.
    change (sum_fields py_int ?p (line :: lines)) with
      (if p line then default 0 (field_value py_int line) + sum_fields py_int p lines
       else sum_fields py_int p lines).
    assert (disk_line line = true → xfer_line line = false) as Hexcl
      by (unfold xfer_line; by intros ->).
    destruct (disk_line line) eqn:Hd; [rewrite (Hexcl eq_refl)|destruct (xfer_line line) eqn:Hx].
    + destruct (Parse.second_field py_int line) as [e|n] eqn:E.
      * split; [done|]. intros [[Hv _] _]. destruct Hv as [n Hn]; [by left|].
        apply second_field_inr in Hn. congruence.
      * apply second_field_inr in E. rewrite E, IH. simpl.
        rewrite !Z.add_assoc. split; intros [? ->]; (split; [|done]); [by eauto|tauto].
    + destruct (Parse.second_field py_int line) as [e|n] eqn:E.
      * split; [done|]. intros [[Hv _] _]. destruct Hv as [n Hn]; [by right|].
        apply second_field_inr in Hn. congruence.
      * apply second_field_inr in E. rewrite E, IH. simpl.
        rewrite !Z.add_assoc. split; intros [? ->]; (split; [|done]); [by eauto|tauto].
    + rewrite IH. split; intros [? ->]; (split; [|done]); [|tauto].
      split; [|done]. by intros [?|?].
Qed.

Lemma read_io_counters_Some lines totals :
  Parse.read_io_counters py_int (Some lines) = Parse.Returns (Some totals) ↔
  Forall (λ line, counted line → is_Some (field_value py_int line)) lines ∧
  totals = (sum_fields py_int disk_line lines, sum_fields py_int xfer_line lines).
Proof.
  unfold Parse.read_io_counters. rewrite <- (sum_counters_inr lines 0 0 totals).
  destruct (Parse.sum_counters py_int lines 0 0) as [[]|t]; split; intros; by simplify_eq.
Qed.

Lemma sum_fields_permutation select lines lines' :
  lines ≡ₚ lines' → sum_fields py_int select lines = sum_fields py_int select lines'.
Proof.
  unfold sum_fields. induction 1 as [|l ls ls' _ IH|l1 l2 ls|ls1 ls2 ls3 _ IH1 _ IH2]; simpl.
  - done.
  - by rewrite IH.
  - destruct (select l1), (select l2); lia.
  - by rewrite IH1.
Qed.

Lemma sum_counters_uncounted lines : ∀ d x,
  Parse.sum_counters py_int lines d x
    = Parse.sum_counters py_int (filter counted lines) d x.
Proof.
  induction lines as [|line lines IH]; intros d x; [done|].
  rewrite filter_cons. unfold counted at 1. destruct (decide _) as [Hc|Hn].
  - rewrite !sum_counters_cons.
    destruct (disk_line line); [destruct (Parse.second_field py_int line); by rewrite ?IH|].
    destruct (xfer_line line); [destruct (Parse.second_field py_int line); by rewrite ?IH|].
    apply IH.
  - rewrite sum_counters_cons.
    destruct (disk_line line); [exfalso; apply Hn; by left|].
    destruct (xfer_line line); [exfalso; apply Hn; by right|]. apply IH.
Qed.

End Readers.

(** * Further properties of the sampling pass and of a session *)

(** X1. The state in which a sampling pass ends does not depend on the
    order in which the loop visits the tracked pids: running the loop body
    over any ordering of the tracked set from the same state gives the
    result of [sample_once], which returns the size of the tracked set. *)
Theorem pass_order_irrelevant os now clk_tck page_size st st' order :
  order ≡ₚ elements (pids_in_service_cgroup os) →
  for_each (sample_pid os now clk_tck page_size) order st = Ok st' →
  sample_once os now clk_tck page_size st
    = Ok (Z.of_nat (size (pids_in_service_cgroup os)), st').
Proof.
  intros Hperm Hrun. unfold sample_once. case_decide as Hempty.
  - rewrite Hempty, elements_empty in Hperm. apply Permutation_nil_r in Hperm as ->.
    simpl in Hrun. simplify_eq. by rewrite Hempty, size_empty.
  - by rewrite (for_each_permutation _ _ _ _ _ _ Hperm _ _ Hrun).
Qed.

Lemma pass_order_irrelevant_witness :
  sample_once (two_processes 0 0) (fl 0) 100 4096 empty_state
    = Ok (2, state_after 100 4096 [(two_processes 0 0, fl 0)]).
Proof.
  apply (pass_order_irrelevant (two_processes 0 0) (fl 0) 100 4096 empty_state
           (state_after 100 4096 [(two_processes 0 0, fl 0)]) [200; 100]).
  - assert (elements (pids_in_service_cgroup (two_processes 0 0)) = [100; 200]) as ->
      by (vm_compute; reflexivity).
    apply perm_swap.
  - vm_compute. reflexivity.
Defined.

(** X2. A sampling pass leaves the entries of a pid untouched, in both
    dictionaries, when the pid is not in the tracked set or its stat file
    cannot be read: records of processes that have exited are kept as they
    were. *)
Theorem unread_pid_untouched os now clk_tck page_size st n st' pid :
  sample_once os now clk_tck page_size st = Ok (n, st') →
  pid ∉ pids_in_service_cgroup os ∨ read_stat os pid = None →
  stats_by_pid st' !! pid = stats_by_pid st !! pid ∧
  prev_by_pid st' !! pid = prev_by_pid st !! pid.
Proof. apply sample_once_unread. Qed.

Lemma unread_pid_untouched_witness :
  stats_by_pid (state_after 100 4096 io_gap_session) !! 100
    = stats_by_pid (state_after 100 4096 (io_gap_session ++ [(unreadable, fl 3)])) !! 100.
Proof.
  destruct (unread_pid_untouched unreadable (fl 3) 100 4096
              (state_after 100 4096 io_gap_session) 1
              (state_after 100 4096 (io_gap_session ++ [(unreadable, fl 3)])) 100)
    as [Hs _].
  - vm_compute. reflexivity.
  - right. reflexivity.
  - symmetry. exact Hs.
Defined.

(** X3. When a session that started with empty dictionaries ends, a pid
    has a record in [stats_by_pid], and likewise a previous sample in
    [prev_by_pid], exactly when at least one pass had it in the tracked set
    and read its stat file. *)
Theorem session_keys clk_tck page_size passes st pid :
  run_passes clk_tck page_size passes empty_state = Ok st →
  (is_Some (stats_by_pid st !! pid) ↔ (0 < times_read pid passes)%nat) ∧
  (is_Some (prev_by_pid st !! pid) ↔ (0 < times_read pid passes)%nat).
Proof.
  intros H. destruct (run_passes_keys _ _ pid _ _ _ H) as [Hs Hp].
  rewrite Hs, Hp. simpl. rewrite !lookup_empty.
  split; (split; [|tauto]); by intros [[? ?]|?].
Qed.

Lemma session_keys_witness :
  is_Some (stats_by_pid (state_after 100 4096 two_process_session) !! 200) ∧
  is_Some (prev_by_pid (state_after 100 4096 two_process_session) !! 200).
Proof.
  destruct (session_keys 100 4096 two_process_session
              (state_after 100 4096 two_process_session) 200) as [[_ Hs] [_ Hp]].
  - vm_compute. reflexivity.
  - split; [apply Hs|apply Hp]; vm_compute; lia.
Defined.

(** X4. For the record a session holds for a pid: the memory accumulator
    has one value per successful read of the pid; the CPU accumulator has at
    least one value less (the first read yields no rate); the disk and the
    transfer accumulators hold equally many values, and no more than the CPU
    accumulator. *)
Theorem sample_counts clk_tck page_size passes st pid record :
  run_passes clk_tck page_size passes empty_state = Ok st →
  stats_by_pid st !! pid = Some record →
  count (ProcessStats.mem record) = Z.of_nat (times_read pid passes) ∧
  count (ProcessStats.cpu record) + 1 ≤ count (ProcessStats.mem record) ∧
  count (ProcessStats.disk record) = count (ProcessStats.xfer record) ∧
  0 ≤ count (ProcessStats.disk record) ≤ count (ProcessStats.cpu record).
Proof. apply session_counts. Qed.

Lemma sample_counts_witness :
  count (ProcessStats.mem (the_record (state_after 100 4096 io_gap_session) 100)) = 3 ∧
  count (ProcessStats.cpu (the_record (state_after 100 4096 io_gap_session) 100)) ≤ 2.
Proof.
  destruct (sample_counts 100 4096 io_gap_session (state_after 100 4096 io_gap_session) 100
              (the_record (state_after 100 4096 io_gap_session) 100)) as (Hm&Hc&_).
  - vm_compute. reflexivity.
  - vm_compute. reflexivity.
  - assert (Z.of_nat (times_read 100 io_gap_session) = 3) as E by (vm_compute; reflexivity).
    rewrite E in Hm. rewrite Hm in Hc. split; [exact Hm|lia].
Defined.

(** X5. With a clock that advances from every pass to every later one, a
    pid read successfully [n] times in a session ends with [n - 1] values in
    its CPU accumulator, and in its disk and transfer accumulators with one
    value for every read after the first whose I/O read succeeded. *)
Theorem rate_sample_counts clk_tck page_size passes st pid record :
  run_passes clk_tck page_size passes empty_state = Ok st →
  advancing passes.*2 →
  stats_by_pid st !! pid = Some record →
  count (ProcessStats.cpu record) = Z.of_nat (times_read pid passes) - 1 ∧
  count (ProcessStats.disk record)
    = Z.of_nat (length (with_io pid (drop 1 (reads pid passes)))) ∧
  count (ProcessStats.xfer record)
    = Z.of_nat (length (with_io pid (drop 1 (reads pid passes)))).
Proof.
  intros Hrun Hadv Hrec.
  destruct (run_passes_rate_counts _ _ pid _ _ _ Hrun Hadv) as (Hc&Hd&Hx).
  { intros prev. simpl. by rewrite lookup_empty. }
  rewrite Hrec in Hc, Hd, Hx. cbn [empty_state stats_by_pid prev_by_pid] in Hc, Hd, Hx.
  rewrite !lookup_empty in Hc, Hd, Hx.
  cbn [rated cpu_of disk_of xfer_of from_option MetricAccumulator_new count] in Hc, Hd, Hx.
  rewrite Hc, Hd, Hx. split_and!; [|done..].
  rewrite length_drop. fold (times_read pid passes).
  pose proof (proj1 (session_recorded _ _ _ _ pid Hrun) ltac:(eauto)) as Hk.
  unfold reads, times_read in *. lia.
Qed.

Lemma rate_sample_counts_witness :
  count (ProcessStats.cpu (the_record (state_after 100 4096 io_gap_session) 100)) = 2 ∧
  count (ProcessStats.disk (the_record (state_after 100 4096 io_gap_session) 100)) = 1.
Proof.
  destruct (rate_sample_counts 100 4096 io_gap_session (state_after 100 4096 io_gap_session)
              100 (the_record (state_after 100 4096 io_gap_session) 100)) as (Hc&Hd&_).
  - vm_compute. reflexivity.
  - simpl. repeat split; repeat constructor.
  - vm_compute. reflexivity.
  - split; [rewrite Hc|rewrite Hd]; vm_compute; reflexivity.
Defined.

(** X6. Every CPU, disk and transfer triple that [as_tuple] reports for a
    record of a session satisfies [0 ≤ minimum ≤ maximum] and [0 ≤ average]:
    no negative rate and no NaN reaches the final table. *)
Theorem reported_rates_nonnegative clk_tck page_size passes st pid record acc lo hi avg :
  run_passes clk_tck page_size passes empty_state = Ok st →
  stats_by_pid st !! pid = Some record →
  acc ∈ [ProcessStats.cpu record; ProcessStats.disk record; ProcessStats.xfer record] →
  as_tuple acc = Ok (lo, hi, avg) →
  float_le zero lo = true ∧ float_le lo hi = true ∧ float_le zero avg = true.
Proof.
  intros Hrun Hrec Hacc Htuple.
  set (P := λ (k : nat) (record : option ProcessStats) (prev : option PrevSample),
         ∀ r, record = Some r →
           nonneg_acc (ProcessStats.cpu r) ∧ nonneg_acc (ProcessStats.disk r) ∧
           nonneg_acc (ProcessStats.xfer r)).
  assert (P (0 + times_read pid passes)%nat
            (stats_by_pid st !! pid) (prev_by_pid st !! pid)) as Hfinal.
  { apply (session_induction clk_tck page_size pid P) with (st := empty_state);
      [|done|done].
    clear. intros k os now name ppid cpu_ticks rss_pages record prev c d x rss
      _ Hrec Hr _ r [= <-].
    apply rates_signed in Hr as (Hc&Hd&Hx).
    assert (nonneg_acc (ProcessStats.cpu (lookup_or_create record pid name ppid now)) ∧
            nonneg_acc (ProcessStats.disk (lookup_or_create record pid name ppid now)) ∧
            nonneg_acc (ProcessStats.xfer (lookup_or_create record pid name ppid now)))
      as (H1&H2&H3).
    { destruct record as [r0|]; simpl; [by apply Hrec|].
      split_and!; apply nonneg_acc_new. }
    unfold record_sample. simpl. split_and!; by apply nonneg_acc_add. }
  destruct (Hfinal record Hrec) as (H1&H2&H3).
  apply (nonneg_acc_as_tuple acc); [|done].
  apply elem_of_cons in Hacc as [->|Hacc]; [done|].
  apply elem_of_cons in Hacc as [->|Hacc]; [done|].
  apply list_elem_of_singleton in Hacc as ->. done.
Qed.

Lemma reported_rates_nonnegative_witness :
  as_tuple (ProcessStats.cpu (the_record (state_after 100 4096 io_gap_session) 100))
    = Ok (fl 50, fl 100, fl 75) ∧
  float_le zero (fl 50) = true ∧ float_le (fl 50) (fl 100) = true ∧
  float_le zero (fl 75) = true.
Proof.
  assert (as_tuple (ProcessStats.cpu (the_record (state_after 100 4096 io_gap_session) 100))
          = Ok (fl 50, fl 100, fl 75)) as Htuple by (vm_compute; reflexivity).
  split; [exact Htuple|].
  apply (reported_rates_nonnegative 100 4096 io_gap_session
           (state_after 100 4096 io_gap_session) 100
           (the_record (state_after 100 4096 io_gap_session) 100)
           (ProcessStats.cpu (the_record (state_after 100 4096 io_gap_session) 100))).
  - vm_compute. reflexivity.
  - vm_compute. reflexivity.
  - apply elem_of_cons. by left.
  - exact Htuple.
Defined.

(** X7. In a session from empty dictionaries, take a pass that reads a pid
    successfully.  If no earlier pass read the pid, the record the session
    ends with carries this pass's time as [first_seen] and this pass's pid,
    name and parent pid; if no later pass reads the pid, it carries this
    pass's time as [last_seen]. *)
Theorem seen_times clk_tck page_size before os now after st pid name ppid cpu_ticks rss_pages :
  run_passes clk_tck page_size (before ++ (os, now) :: after) empty_state = Ok st →
  pid ∈ pids_in_service_cgroup os →
  read_stat os pid = Some (name, ppid, cpu_ticks, rss_pages) →
  ∃ record,
    stats_by_pid st !! pid = Some record ∧
    (times_read pid before = 0%nat →
       ProcessStats.first_seen record = now ∧
       ProcessStats.pid record = pid ∧
       ProcessStats.name record = name ∧
       ProcessStats.ppid record = ppid) ∧
    (times_read pid after = 0%nat → ProcessStats.last_seen record = now).
Proof.
  intros Hrun Hin Hread.
  apply run_passes_app in Hrun as (st1&Hbefore&Hrun).
  apply run_passes_cons in Hrun as (n&st2&Hpass&Hafter). simpl in Hpass.
  destruct (sample_once_at _ _ _ _ _ _ _ _ _ _ _ _ Hpass Hin Hread)
    as (c&d&x&r&_&_&Hst2&_).
  destruct (run_passes_identity _ _ pid _ _ _ _ Hafter Hst2) as (record&Hrec&E1&E2&E3&E4).
  exists record. split; [done|]. split.
  - intros Hnone.
    destruct (run_passes_never_read _ _ pid _ _ _ Hbefore Hnone) as [Hs _].
    simpl in Hs. rewrite lookup_empty in Hs.
    rewrite E1, E2, E3, E4, Hs. done.
  - intros Hnone.
    destruct (run_passes_never_read _ _ pid _ _ _ Hafter Hnone) as [Hs _].
    rewrite Hs, Hst2 in Hrec. simplify_eq. by destruct (stats_by_pid st1 !! pid).
Qed.

Lemma seen_times_witness :
  ∃ record,
    stats_by_pid (state_after 100 4096
                    [(no_process, fl 0); (io_gap_pass0, fl 1); (unreadable, fl 2)]) !! 100
      = Some record ∧
    ProcessStats.first_seen record = fl 1 ∧
    ProcessStats.name record = "proc"%string ∧
    ProcessStats.last_seen record = fl 1.
Proof.
  destruct (seen_times 100 4096 [(no_process, fl 0)] io_gap_pass0 (fl 1) [(unreadable, fl 2)]
              (state_after 100 4096
                 [(no_process, fl 0); (io_gap_pass0, fl 1); (unreadable, fl 2)])
              100 "proc" 1 0 10) as (record&Hs&Hfirst&Hlast).
  - vm_compute. reflexivity.
  - vm_compute. reflexivity.
  - reflexivity.
  - destruct Hfirst as (Hf&_&Hn&_); [vm_compute; reflexivity|].
    exists record. split_and!; [exact Hs|exact Hf|exact Hn|].
    apply Hlast. vm_compute. reflexivity.
Defined.

(** X8. A pass in which the stat read of a known pid succeeds and its I/O
    read fails still records the memory value [float(rss_pages * page_size)],
    in the memory accumulator and in [current_mem], and, when time has
    elapsed since the previous sample, the CPU rate
    [max(0.0, (cpu_ticks - prev.cpu_ticks) / clk_tck / dt * 100.0)], in the
    CPU accumulator and in [current_cpu] (without elapsed time the CPU
    accumulator is unchanged and [current_cpu] is [0.0]); it adds nothing to
    the disk and transfer accumulators and sets [current_disk] and
    [current_xfer] to [0.0]. *)
Theorem io_read_failure os now clk_tck page_size st n st' pid
    name ppid cpu_ticks rss_pages record prev :
  let dt := SF64sub now (PrevSample.timestamp prev) in
  sample_once os now clk_tck page_size st = Ok (n, st') →
  pid ∈ pids_in_service_cgroup os →
  read_stat os pid = Some (name, ppid, cpu_ticks, rss_pages) →
  read_io_counters os pid = None →
  stats_by_pid st !! pid = Some record →
  prev_by_pid st !! pid = Some prev →
  ∃ record' rss,
    stats_by_pid st' !! pid = Some record' ∧
    float_of_int (rss_pages * page_size) = Ok rss ∧
    ProcessStats.mem record' = add (ProcessStats.mem record) (Some rss) ∧
    ProcessStats.current_mem record' = rss ∧
    ProcessStats.disk record' = ProcessStats.disk record ∧
    ProcessStats.xfer record' = ProcessStats.xfer record ∧
    ProcessStats.current_disk record' = zero ∧
    ProcessStats.current_xfer record' = zero ∧
    (float_gt dt zero = true →
       ∃ q, int_truediv (cpu_ticks - PrevSample.cpu_ticks prev) clk_tck = Ok q ∧
            ProcessStats.current_cpu record'
              = Py.max zero (SF64mul (SF64div q dt) hundred) ∧
            ProcessStats.cpu record'
              = add (ProcessStats.cpu record)
                  (Some (Py.max zero (SF64mul (SF64div q dt) hundred)))) ∧
    (float_gt dt zero = false →
       ProcessStats.current_cpu record' = zero ∧
       ProcessStats.cpu record' = ProcessStats.cpu record).
Proof.
  intros dt Hpass Hin Hread Hio Hrec Hprev.
  destruct (sample_once_at _ _ _ _ _ _ _ _ _ _ _ _ Hpass Hin Hread)
    as (c&d&x&r&Hr&Hf&Hst&_).
  unfold disk_read, xfer_read in Hr. rewrite Hprev, Hio in Hr. rewrite Hrec in Hst.
  simpl in Hr, Hst. fold dt in Hr.
  exists (record_sample (ProcessStats.set_last_seen record now) c d x r), r.
  destruct (float_gt dt zero) eqn:Hgt.
  - apply rates_elapsed_inv in Hr as ((q&Hq&->)&->&->); [|done]. fold dt.
    split_and!; try done. intros _. by exists q.
  - unfold dt in Hgt. rewrite rates_no_elapsed in Hr by done. simplify_eq.
    split_and!; try done.
Qed.

Lemma io_read_failure_witness :
  ∃ record',
    stats_by_pid (state_after 100 4096 (take 2 io_gap_session)) !! 100 = Some record' ∧
    ProcessStats.current_mem record' = fl 40960 ∧
    ProcessStats.current_cpu record' = fl 50 ∧
    count (ProcessStats.cpu record') = 1 ∧
    ProcessStats.current_disk record' = zero ∧
    count (ProcessStats.disk record') = 0.
Proof.
  destruct (io_read_failure io_gap_pass1 (fl 1) 100 4096
              (state_after 100 4096 (take 1 io_gap_session)) 1
              (state_after 100 4096 (take 2 io_gap_session))
              100 "proc" 1 50 10
              (the_record (state_after 100 4096 (take 1 io_gap_session)) 100)
              (PrevSample.mk 0 1000 5000 (fl 0)))
    as (record'&rss&Hs&Hrss&_&Hm&Hd&_&Hcd&_&Hc&_).
  - vm_compute. reflexivity.
  - vm_compute. reflexivity.
  - reflexivity.
  - reflexivity.
  - vm_compute. reflexivity.
  - vm_compute. reflexivity.
  - destruct Hc as (q&Hq&Hcur&Hcpu); [vm_compute; reflexivity|].
    assert (rss = fl 40960) as -> by (vm_compute in Hrss; injection Hrss as <-; reflexivity).
    assert (q = SF64div (fl 1) (fl 2)) as ->
      by (vm_compute in Hq; injection Hq as <-; reflexivity).
    exists record'. rewrite Hm, Hcur, Hcpu, Hcd, Hd.
    split_and!; [exact Hs|reflexivity|vm_compute; reflexivity|reflexivity|reflexivity|
                 reflexivity].
Defined.

(** X9. The memory accumulator of a record is exactly the accumulation, in
    pass order, of the resident set sizes (in bytes, as floats) of the
    passes that read the pid, one per successful read, and [current_mem] is
    the last of them. *)
Theorem memory_history clk_tck page_size passes st pid record :
  run_passes clk_tck page_size passes empty_state = Ok st →
  stats_by_pid st !! pid = Some record →
  ProcessStats.mem record = feed (rss_sample page_size pid <$> passes) MetricAccumulator_new ∧
  Some (ProcessStats.current_mem record)
    = last (present (rss_sample page_size pid <$> passes)) ∧
  length (present (rss_sample page_size pid <$> passes)) = times_read pid passes.
Proof.
  intros Hrun Hrec.
  destruct (run_passes_memory _ _ pid _ _ _ Hrun) as (Hmem&Hcur&Hlen).
  rewrite Hrec in Hmem, Hcur. simpl in Hmem, Hcur. rewrite lookup_empty in Hmem.
  simpl in Hmem. split_and!; [done| |done].
  destruct (last _) eqn:E; simpl in Hcur; [by rewrite Hcur|].
  apply last_None in E. rewrite E in Hlen. simpl in Hlen.
  pose proof (proj1 (session_recorded _ _ _ _ pid Hrun) ltac:(eauto)). lia.
Qed.

Lemma memory_history_witness :
  ProcessStats.mem (the_record (state_after 100 4096 two_process_session) 200)
    = feed [Some (fl 81920); Some (fl 81920)] MetricAccumulator_new ∧
  ProcessStats.current_mem (the_record (state_after 100 4096 two_process_session) 200)
    = fl 81920.
Proof.
  destruct (memory_history 100 4096 two_process_session
              (state_after 100 4096 two_process_session) 200
              (the_record (state_after 100 4096 two_process_session) 200)) as (Hm&Hc&_).
  - vm_compute. reflexivity.
  - vm_compute. reflexivity.
  - split; [rewrite Hm; vm_compute; reflexivity|].
    apply (inj Some). rewrite Hc. vm_compute. reflexivity.
Defined.

(** X19. The entries a session ends with for a pid depend only on what the
    passes show about that pid: two sessions whose passes are made at the
    same times and agree on the pid's membership in the tracked set and on
    its stat and I/O reads end with the same record and the same previous
    sample for it, whatever other processes the service has. *)
Theorem session_local clk_tck page_size pid passes1 passes2 st1 st2 :
  Forall2 (agree_on pid) passes1 passes2 →
  run_passes clk_tck page_size passes1 empty_state = Ok st1 →
  run_passes clk_tck page_size passes2 empty_state = Ok st2 →
  stats_by_pid st1 !! pid = stats_by_pid st2 !! pid ∧
  prev_by_pid st1 !! pid = prev_by_pid st2 !! pid.
Proof.
  intros Hagree H1 H2. by apply (run_passes_local _ _ _ _ _ Hagree _ _ _ _ H1 H2).
Qed.

Lemma session_local_witness :
  stats_by_pid (state_after 100 4096 io_gap_session) !! 100
    = stats_by_pid (state_after 100 4096
                      ((λ pass, (with_neighbour pass.1, pass.2)) <$> io_gap_session)) !! 100.
Proof.
  destruct (session_local 100 4096 100 io_gap_session
              ((λ pass, (with_neighbour pass.1, pass.2)) <$> io_gap_session)
              (state_after 100 4096 io_gap_session)
              (state_after 100 4096
                 ((λ pass, (with_neighbour pass.1, pass.2)) <$> io_gap_session)))
    as [Hs _].
  - repeat (apply Forall2_cons_2 || apply Forall2_nil_2);
      (split_and!; [reflexivity|split; intros _; vm_compute; reflexivity|
                    reflexivity|reflexivity]).
  - vm_compute. reflexivity.
  - vm_compute. reflexivity.
  - exact Hs.
Defined.

(** * Further properties of [main] *)

(** X10. When [main] returns, its exit status is 2 exactly when the
    interval is [≤ 0]; otherwise it is 1 exactly when no pass of the session
    read any stat file successfully (also when pids were tracked but none
    was readable), and 0 exactly when some pid was read at least once. *)
Theorem exit_status_of_main interval clk_tck page_size passes outcome :
  main interval clk_tck page_size passes = Ok outcome →
  (exit_status outcome = 2 ↔ float_le interval zero = true) ∧
  (exit_status outcome = 1 ↔
     float_le interval zero = false ∧ ∀ pid, times_read pid passes = 0%nat) ∧
  (exit_status outcome = 0 ↔
     float_le interval zero = false ∧ ∃ pid, (0 < times_read pid passes)%nat).
Proof.
  unfold main. intros H.
  destruct (float_le interval zero) eqn:Hint.
  { simplify_eq. simpl. split_and!; split; try done; try (intros [? _]; done). }
  apply bind_Ok in H as (st&Hrun&H).
  case_decide as Hempty.
  - simplify_eq. simpl.
    assert (∀ pid, times_read pid passes = 0%nat) as Hnone.
    { intros pid. pose proof (proj2 (session_recorded _ _ _ _ pid Hrun)) as Hk.
      destruct (times_read pid passes); [done|].
      destruct Hk as [r Hr]; [lia|]. by rewrite Hempty, lookup_empty in Hr. }
    split_and!; split; try done.
    intros [_ [pid Hpid]]. specialize (Hnone pid). lia.
  - apply bind_Ok in H as (rows&_&H). simplify_eq. simpl.
    assert (∃ pid, (0 < times_read pid passes)%nat) as Hsome.
    { destruct (map_choose _ Hempty) as (pid&r&Hr). exists pid.
      apply (session_recorded _ _ _ _ pid Hrun). eauto. }
    split_and!; split; try done.
    intros [_ Hnone]. destruct Hsome as [pid Hpid]. specialize (Hnone pid). lia.
Qed.

Lemma exit_status_of_main_witness :
  main (fl 1) 100 4096 [(unreadable, fl 0); (unreadable, fl 1)] = Ok NoData ∧
  ∃ pid, (0 < times_read pid io_gap_session)%nat.
Proof.
  destruct (exit_status_of_main (fl 1) 100 4096 io_gap_session
              (outcome_of (main (fl 1) 100 4096 io_gap_session))) as (_&_&[Hzero _]).
  - vm_compute. reflexivity.
  - split; [vm_compute; reflexivity|].
    apply Hzero. vm_compute. reflexivity.
Defined.

(** X11. The final table has one row for every pid that was read at least
    once in the session and no other row, and its rows are in strictly
    ascending order of pid. *)
Theorem report_rows interval clk_tck page_size passes rows :
  main interval clk_tck page_size passes = Ok (Report rows) →
  StronglySorted Z.lt (row_pid <$> rows) ∧
  rows ≠ [] ∧
  ∀ pid, pid ∈ row_pid <$> rows ↔ (0 < times_read pid passes)%nat.
Proof.
  unfold main. intros H.
  destruct (float_le interval zero); [done|].
  apply bind_Ok in H as (st&Hrun&H).
  case_decide as Hempty; [done|].
  apply bind_Ok in H as (rows'&Hrows&H). simplify_eq.
  apply report_rows_pids in Hrows.
  destruct (sorted_items_pids (stats_by_pid st)) as [Hsorted Hkeys].
  rewrite Hrows. split_and!; [done| |].
  - intros ->. simpl in Hrows.
    apply Hempty, map_empty. intros pid. apply eq_None_not_Some.
    rewrite <- Hkeys, <- Hrows. apply not_elem_of_nil.
  - intros pid. rewrite Hkeys. apply (session_recorded _ _ _ _ pid Hrun).
Qed.

Lemma report_rows_witness :
  row_pid <$> report_entries (outcome_of (main (fl 1) 100 4096 two_process_session))
    = [100; 200] ∧
  StronglySorted Z.lt
    (row_pid <$> report_entries (outcome_of (main (fl 1) 100 4096 two_process_session))).
Proof.
  destruct (report_rows (fl 1) 100 4096 two_process_session
              (report_entries (outcome_of (main (fl 1) 100 4096 two_process_session))))
    as (Hsorted&_&_).
  - vm_compute. reflexivity.
  - split; [vm_compute; reflexivity|exact Hsorted].
Defined.



(** * The readers *)

Section ReaderProperties.
Context (py_int : text → option Z).

(** X13. For a stat line as the kernel writes it, [pid (name) fields...]
    followed by any trailing whitespace, [read_stat] returns the command
    name exactly as it stands between the first opening and the last
    closing parenthesis, whatever characters it contains (spaces and
    parentheses included), with the parent pid from the second field after
    the name, the sum of the twelfth and thirteenth as CPU ticks and the
    twenty-second as resident pages; it returns [None] when fewer than 22
    fields follow the name or one of the four is not an integer. *)
Theorem read_stat_of_stat_line pid_txt name fields trailer :
  token pid_txt → 40%N ∉ pid_txt →
  Forall (λ f, token f ∧ 41%N ∉ f) fields →
  Forall (λ c, Str.isspace c = true) trailer →
  Parse.read_stat py_int (Some (stat_line pid_txt name fields ++ trailer)) =
    if bool_decide (length fields < 22)%nat then None
    else
      ppid ← py_int (nth 1 fields []);
      utime ← py_int (nth 11 fields []);
      stime ← py_int (nth 12 fields []);
      rss_pages ← py_int (nth 21 fields []);
      Some (name, ppid, utime + stime, rss_pages).
Proof.
  intros [Hpid Hpidtok] Hlpar Hfields Htrailer.
  apply Forall_and in Hfields as [Htok Hrpar].
  destruct pid_txt as [|p pid_txt]; [done|]. apply Forall_cons in Hpidtok as [Hp _].
  assert (∃ rest, Str.strip (stat_line (p :: pid_txt) name fields ++ trailer)
                    = ((p :: pid_txt) ++ [32%N]) ++ 40%N :: name ++ 41%N :: rest ∧
                  (41%N ∉ rest) ∧ Str.split (drop 1 rest) = fields)
    as (rest&Hraw&Hrest&Hsplit).
  { destruct fields as [|f fields].
    - exists []. split_and!; [|apply not_elem_of_nil|done].
      assert (stat_line (p :: pid_txt) name [] ++ trailer
              = p :: (pid_txt ++ 32%N :: 40%N :: name) ++ 41%N :: (32%N :: trailer)) as ->
        by (rewrite stat_line_eq; flatten_app).
      rewrite strip_framed by (by try constructor). flatten_app.
    - exists (32%N :: join_sp (f :: fields)). split_and!.
      + destruct (join_sp_last (f :: fields) Htok ltac:(done)) as (s&c&E&Hc).
        assert (stat_line (p :: pid_txt) name (f :: fields) ++ trailer
                = p :: (pid_txt ++ 32%N :: 40%N :: name ++ 41%N :: 32%N :: s) ++ c :: trailer)
          as -> by (rewrite stat_line_eq, E; flatten_app).
        rewrite strip_framed by done. rewrite E. flatten_app.
      + apply not_elem_of_cons. split; [done|]. by apply join_sp_notin.
      + by apply split_join. }
  etrans; [apply (read_stat_shape py_int _ _ _ _ Hraw)|].
  - apply not_elem_of_app. split; [done|]. apply not_elem_of_cons. split; [done|].
    apply not_elem_of_nil.
  - done.
  - cbv zeta. by rewrite Hsplit.
Qed.

(** X14. [read_io_counters] returns a pair of totals exactly when every
    line that starts with one of the four counted prefixes has an integer
    in its second field; the disk total is then the sum over the
    [read_bytes:] and [write_bytes:] lines and the transfer total the sum
    over the [rchar:] and [wchar:] lines. *)
Theorem read_io_counters_totals lines totals :
  Parse.read_io_counters py_int (Some lines) = Parse.Returns (Some totals) ↔
  Forall (λ line, counted line → is_Some (field_value py_int line)) lines ∧
  totals = (sum_fields py_int disk_line lines, sum_fields py_int xfer_line lines).
Proof. apply read_io_counters_Some. Qed.

(** X15. The totals [read_io_counters] returns do not depend on the order
    of the lines of the file. *)
Theorem read_io_counters_permutation lines lines' totals :
  lines ≡ₚ lines' →
  Parse.read_io_counters py_int (Some lines) = Parse.Returns (Some totals) →
  Parse.read_io_counters py_int (Some lines') = Parse.Returns (Some totals).
Proof.
  intros Hperm. rewrite !read_io_counters_Some. intros [Hall ->]. split.
  - by rewrite <- Hperm.
  - f_equal; by apply sum_fields_permutation.
Qed.

(** X16. Lines that start with none of the four counted prefixes never
    change what [read_io_counters] does, however they are formed: the
    result is that of the file with those lines removed. *)
Theorem read_io_counters_ignores_other_lines lines :
  Parse.read_io_counters py_int (Some lines)
    = Parse.read_io_counters py_int (Some (filter counted lines)).
Proof. unfold Parse.read_io_counters. by rewrite sum_counters_uncounted. Qed.

(** X17. A counted line with no second field makes [read_io_counters]
    raise IndexError, which its [except] clause does not catch, when every
    counted line before it has an integer in its second field. *)
Theorem read_io_counters_index_error before line after :
  Forall (λ line, counted line → is_Some (field_value py_int line)) before →
  counted line →
  (length (Str.split line) < 2)%nat →
  Parse.read_io_counters py_int (Some (before ++ line :: after)) = Parse.RaisesIndexError.
Proof.
  intros Hbefore Hline Hshort. unfold Parse.read_io_counters.
  enough (∀ d x, Parse.sum_counters py_int (before ++ line :: after) d x
                 = inl Parse.IndexError) as -> by done.
  induction Hbefore as [|l before Hl _ IH]; intros d x.
  - simpl app. rewrite sum_counters_cons.
    assert (Parse.second_field py_int line = inl Parse.IndexError) as ->.
    { unfold Parse.second_field. destruct (Str.split line) as [|w [|field ws]]; [done..|].
      simpl in Hshort. lia. }
    destruct Hline as [->| ->]; [done|]. by destruct (disk_line line).
  - rewrite <- app_comm_cons, sum_counters_cons.
    destruct (disk_line l) eqn:Hd.
    { destruct Hl as [n Hn]; [by left|]. apply second_field_inr in Hn. by rewrite Hn. }
    destruct (xfer_line l) eqn:Hx; [|done].
    destruct Hl as [n Hn]; [by right|]. apply second_field_inr in Hn. by rewrite Hn.
Qed.

End ReaderProperties.

Lemma read_stat_of_stat_line_witness :
  Parse.read_stat decimal
    (Some (stat_line (text_of "4242") (text_of "my (proc) 1") stat_fields ++ nl))
    = Some (text_of "my (proc) 1", 1, 30, 10).
Proof.
  rewrite (read_stat_of_stat_line decimal (text_of "4242") (text_of "my (proc) 1")
             stat_fields nl).
  - vm_compute. reflexivity.
  - apply (bool_decide_unpack _). vm_compute. exact I.
  - apply (bool_decide_unpack _). vm_compute. exact I.
  - apply (bool_decide_unpack _). vm_compute. exact I.
  - apply (bool_decide_unpack _). vm_compute. exact I.
Defined.

Lemma read_io_counters_permutation_witness :
  Parse.read_io_counters decimal (Some (reverse io_example))
    = Parse.Returns (Some (1400, 5800)).
Proof.
  apply (read_io_counters_permutation decimal io_example (reverse io_example) (1400, 5800)).
  - symmetry. apply reverse_Permutation.
  - vm_compute. reflexivity.
Defined.

Lemma read_io_counters_index_error_witness :
  Parse.read_io_counters decimal
    (Some [text_of "rchar: 5000" ++ nl; text_of "read_bytes:" ++ nl;
           text_of "write_bytes: 400" ++ nl])
    = Parse.RaisesIndexError.
Proof.
  apply (read_io_counters_index_error decimal [text_of "rchar: 5000" ++ nl]
           (text_of "read_bytes:" ++ nl) [text_of "write_bytes: 400" ++ nl]).
  - apply (bool_decide_unpack _). vm_compute. exact I.
  - left. vm_compute. reflexivity.
  - vm_compute. lia.
Defined.

(** X18. For every cgroup that [get_service_cgroup] returns (never the
    empty string, never ["/"]), the directory that [pids_in_service_cgroup]
    walks is ["/sys/fs/cgroup/"] followed by the cgroup without its leading
    slashes: [os.path.join] never discards the root.  The walk starts at the
    root ["/sys/fs/cgroup/"] itself exactly when the cgroup consists of
    slashes only. *)
Theorem service_path_rooted run cgroup :
  Parse.get_service_cgroup run = Some cgroup →
  cgroup ≠ [] ∧ cgroup ≠ text_of "/" ∧
  Parse.service_path cgroup = text_of "/sys/fs/cgroup/" ++ Str.lstrip_char 47 cgroup ∧
  (Parse.service_path cgroup = text_of "/sys/fs/cgroup/" ↔ Forall (λ c, c = 47%N) cgroup).
Proof.
  intros Hget.
  assert (cgroup ≠ [] ∧ cgroup ≠ text_of "/") as [Hne Hroot].
  { unfold Parse.get_service_cgroup in Hget. destruct run as [[returncode stdout]|]; [|done].
    case_bool_decide; [done|]. case_bool_decide as Hvalue; [done|]. simplify_eq.
    split; intros E; apply Hvalue; [by left|by right]. }
  assert (Parse.service_path cgroup = text_of "/sys/fs/cgroup/" ++ Str.lstrip_char 47 cgroup)
    as E.
  { unfold Parse.service_path, Parse.path_join.
    change (text_of "/") with [47%N]. rewrite lstrip_char_head.
    rewrite bool_decide_false by done. rewrite (bool_decide_false (last _ = _)) by done.
    done. }
  split_and!; [done..|]. rewrite E, <- lstrip_char_nil.
  rewrite <- (app_nil_r (text_of "/sys/fs/cgroup/")) at 2.
  split; [by intros H%app_inv_head|by intros ->].
Qed.

Lemma service_path_rooted_witness :
  Parse.service_path (text_of "/system.slice/nginx.service")
    = text_of "/sys/fs/cgroup/system.slice/nginx.service".
Proof.
  destruct (service_path_rooted (Some (0, text_of "/system.slice/nginx.service" ++ nl))
              (text_of "/system.slice/nginx.service")) as (_&_&Hpath&_).
  - vm_compute. reflexivity.
  - rewrite Hpath. vm_compute. reflexivity.
Defined.
